(** * TanStack Router: route generator, rendered matches and navigation blocker

    A shallow embedding of
    - [packages/router-generator/src/generator.ts] (route scanning, the
      stable multi-key sort, the tree built from the flat node list, the
      guarded write of the generated file),
    - [packages/react-router/src/Matches.tsx] (selection of the rendered
      match list, [Match], [MatchInner], [Outlet]),
    - [useBlocker] (the idle/blocked resolver),
    followed by the properties proved about them.

    JavaScript strings are lists of characters, objects that are mutated
    through several references live in an explicit store and are named by
    their index, and every [await] is a point where another invocation may
    run. *)

From Stdlib Require Import ZArith Ascii String Lia.
From stdpp Require Import base decidable option list sorting gmap strings.

Local Open Scope Z_scope.
Local Open Scope list_scope.

(* ===================================================================== *)
(** * Part I. Definitions                                                 *)
(* ===================================================================== *)

(** ** JavaScript strings *)

Abbreviation jsstring := (list ascii).

Definition str (s : string) : jsstring := list_ascii_of_string s.

Arguments str : simpl never.

Module JS.

(** [s.startsWith(p)] and [s.endsWith(p)]. *)
Definition startsWith (s p : jsstring) : bool := bool_decide (p `prefix_of` s).
Definition endsWith (s p : jsstring) : bool := bool_decide (p `suffix_of` s).

(** [s.split(c)] for a one-character separator. *)
Fixpoint split (sep : ascii) (s : jsstring) : list jsstring :=
  match s with
  | [] => [[]]
  | c :: s' =>
      if Ascii.eqb c sep then [] :: split sep s'
      else match split sep s' with
           | seg :: rest => (c :: seg) :: rest
           | [] => [[c]]
           end
  end.

(** [l.join(sep)]. *)
Fixpoint join (sep : jsstring) (l : list jsstring) : jsstring :=
  match l with
  | [] => []
  | [x] => x
  | x :: rest => x ++ sep ++ join sep rest
  end.

(** [l.pop()] as used for its effect on [l]: the list without its last
    element. *)
Definition pop {A} (l : list A) : list A := removelast l.

(** [s.lastIndexOf(c)]: [None] stands for [-1]. *)
Fixpoint lastIndexOf (c : ascii) (s : jsstring) : option nat :=
  match s with
  | [] => None
  | d :: s' =>
      match lastIndexOf c s' with
      | Some i => Some (S i)
      | None => if Ascii.eqb d c then Some 0%nat else None
      end
  end.

(** [s.substring(0, i)], a negative [i] being read as [0]. *)
Definition substring0 (s : jsstring) (i : option nat) : jsstring :=
  match i with
  | Some n => take n s
  | None => []
  end.

(** [a || b] on strings: the empty string is falsy. *)
Definition orElse (a b : jsstring) : jsstring :=
  match a with [] => b | _ => a end.

(** [s.replace(pat, rep)] with a string pattern: the leftmost occurrence
    only. *)
Fixpoint replaceFirst (pat rep s : jsstring) : jsstring :=
  if startsWith s pat then rep ++ drop (length pat) s
  else match s with
       | [] => []
       | c :: s' => c :: replaceFirst pat rep s'
       end.

(** [s.replace(/pat/g, rep)] for a literal, non-empty [pat]: every
    occurrence, left to right, without overlap.  The fuel is the length
    of the text still to be read. *)
Fixpoint replaceAll_go (fuel : nat) (pat rep s : jsstring) : jsstring :=
  match fuel with
  | O => s
  | S fuel' =>
      match s with
      | [] => []
      | c :: s' =>
          if startsWith s pat
          then rep ++ replaceAll_go fuel' pat rep (drop (length pat) s)
          else c :: replaceAll_go fuel' pat rep s'
      end
  end.

Definition replaceAll (pat rep s : jsstring) : jsstring :=
  replaceAll_go (length s) pat rep s.

(** The text a replacement string stands for when the pattern is a
    string, which has no groups: [$$] is a dollar sign, [$&] the matched
    text, [$`] and [$'] the text before and after the match; any other
    character, a [$] that is followed by none of these too, stands for
    itself. *)
Fixpoint substitution (rep before matched after : jsstring) : jsstring :=
  match rep with
  | [] => []
  | c :: rep' =>
      if Ascii.eqb c "$"%char then
        match rep' with
        | d :: rep'' =>
            if Ascii.eqb d "$"%char then
              "$"%char :: substitution rep'' before matched after
            else if Ascii.eqb d "&"%char then
              matched ++ substitution rep'' before matched after
            else if Ascii.eqb d "`"%char then
              before ++ substitution rep'' before matched after
            else if Ascii.eqb d "'"%char then
              after ++ substitution rep'' before matched after
            else c :: substitution rep' before matched after
        | [] => [c]
        end
      else c :: substitution rep' before matched after
  end.

(** [s.replaceAll(pat, rep)] for a non-empty string [pat] and a
    replacement string: every occurrence, left to right, without
    overlap, each replaced by what [rep] stands for there.  [before] is
    the text read so far; the fuel is the length of the text still to
    be read. *)
Fixpoint replaceAllWith_go (fuel : nat) (pat rep before s : jsstring) : jsstring :=
  match fuel with
  | O => s
  | S fuel' =>
      match s with
      | [] => []
      | c :: s' =>
          if startsWith s pat
          then
            let after := drop (length pat) s in
            substitution rep before pat after
            ++ replaceAllWith_go fuel' pat rep (before ++ pat) after
          else c :: replaceAllWith_go fuel' pat rep (before ++ [c]) s'
      end
  end.

Definition replaceAllWith (pat rep s : jsstring) : jsstring :=
  replaceAllWith_go (length s) pat rep [] s.

(** [s.includes(pat)]. *)
Fixpoint includes (s pat : jsstring) : bool :=
  startsWith s pat
  || match s with
     | [] => false
     | _ :: s' => includes s' pat
     end.

(** [path.join(dir, name)] for a directory that is ['./'] or an earlier
    result and a name read from the directory (POSIX separator). *)
Definition pathJoin (dir name : jsstring) : jsstring :=
  if bool_decide (dir = str "./") then name else dir ++ str "/" ++ name.

(** Removal of a trailing [suffix] when it is there ([/suffix$/] replaced
    by the empty string). *)
Definition stripSuffix (suffix s : jsstring) : option jsstring :=
  if endsWith s suffix then Some (take (length s - length suffix) s) else None.

End JS.

(** ** JavaScript values compared by the sort

    The accessors of the generator return numbers, strings, [undefined]
    (which is [None] below) and, with [(d) => d] (the default of line 505
    and the last accessor of line 296), the item itself, which is an
    object.  Numbers are integers here: the generator only produces
    lengths and the constants [1] and [-1].  An object is known by its
    reference: two objects are the same object or different ones. *)

Inductive jsval :=
| VNum (n : Z)
| VStr (s : jsstring)
| VObj (ref : nat).

(** Strings are compared code unit by code unit. *)
Fixpoint str_gt (a b : jsstring) : bool :=
  match a, b with
  | [], _ => false
  | _ :: _, [] => true
  | x :: a', y :: b' =>
      if (nat_of_ascii y <? nat_of_ascii x)%nat then true
      else if Ascii.eqb x y then str_gt a' b'
      else false
  end.

(** [a === b] on two defined values: objects are equal when they are
    the same object. *)
Definition jsval_eqb (a b : jsval) : bool :=
  match a, b with
  | VNum m, VNum n => (m =? n)%Z
  | VStr s, VStr t => bool_decide (s = t)
  | VObj r, VObj r' => bool_decide (r = r')
  | _, _ => false
  end.

(** What [>] makes of an operand first: an object is turned into a
    primitive value, and the objects of the generator, made by object
    literals, all give the string ['[object Object]']. *)
Definition toPrimitive (a : jsval) : jsval :=
  match a with
  | VObj _ => VStr (str "[object Object]")
  | _ => a
  end.

(** [a > b] on two defined values.  A number against a string goes through
    [ToNumber] in JavaScript; the generator never compares a number with
    a string of its own, and the model gives such a comparison the outcome
    it has when the string is no numeral ([false]), which
    ['[object Object]'] is not. *)
Definition jsval_gtb (a b : jsval) : bool :=
  match toPrimitive a, toPrimitive b with
  | VNum m, VNum n => (n <? m)%Z
  | VStr s, VStr t => str_gt s t
  | _, _ => false
  end.

(** [ao === bo] and [ao > bo] where either side may be [undefined]. *)
Definition strictEq (ao bo : option jsval) : bool :=
  match ao, bo with
  | None, None => true
  | Some a, Some b => jsval_eqb a b
  | _, _ => false
  end.

Definition greaterThan (ao bo : option jsval) : bool :=
  match ao, bo with
  | Some a, Some b => jsval_gtb a b
  | _, _ => false
  end.

Definition isUndefined (ao : option jsval) : bool :=
  match ao with None => true | Some _ => false end.

(** ** [multiSortBy] (generator.ts, lines 503-531) *)

Section MultiSortBy.
Context {T : Type}.

Definition accessor := T -> option jsval.

(** The comparator handed to [sort]: the [for] loop over the accessors,
    then [ai - bi]. *)
Fixpoint compareEntries (accessors : list accessor) (x y : T * nat) : Z :=
  match accessors with
  | [] => Z.of_nat x.2 - Z.of_nat y.2
  | accessor :: rest =>
      let ao := accessor x.1 in
      let bo := accessor y.1 in
      if isUndefined ao then
        if isUndefined bo then compareEntries rest x y else 1
      else if strictEq ao bo then compareEntries rest x y
      else if greaterThan ao bo then 1 else -1
  end.

(** [Array.prototype.sort(cmp)].  The language fixes the result for a
    consistent comparator and leaves the algorithm open; insertion from
    the right is used, which places [x] before the first element it does
    not exceed. *)
Fixpoint sortInsert (cmp : T * nat -> T * nat -> Z) (x : T * nat)
    (l : list (T * nat)) : list (T * nat) :=
  match l with
  | [] => [x]
  | y :: l' => if (cmp x y <=? 0)%Z then x :: y :: l' else y :: sortInsert cmp x l'
  end.

Definition arraySort (cmp : T * nat -> T * nat -> Z) (l : list (T * nat))
  : list (T * nat) :=
  foldr (sortInsert cmp) [] l.

(** [arr.map((d, i) => [d, i])]. *)
Definition withIndex (arr : list T) : list (T * nat) :=
  imap (fun i d => (d, i)) arr.

(** The sorted entries, before the final [.map(([d]) => d)]. *)
Definition sortedEntries (arr : list T) (accessors : list accessor)
  : list (T * nat) :=
  arraySort (compareEntries accessors) (withIndex arr).

Definition multiSortBy (arr : list T) (accessors : list accessor) : list T :=
  (sortedEntries arr accessors).*1.

(** Every accessor yields values of one kind over the array, numbers or
    strings, so that [>] orders them. *)
Definition sameKind (a b : jsval) : Prop :=
  match a, b with
  | VNum _, VNum _ | VStr _, VStr _ => True
  | _, _ => False
  end.

Definition comparable (arr : list T) (f : accessor) : Prop :=
  forall x y a b, x ∈ arr -> y ∈ arr -> f x = Some a -> f y = Some b -> sameKind a b.

(** Two items to which every accessor gives values of one kind. *)
Definition agree (accessors : list accessor) (a b : T) : Prop :=
  Forall (fun f : accessor =>
            forall va vb, f a = Some va -> f b = Some vb -> sameKind va vb)
    accessors.

End MultiSortBy.

Arguments accessor : clear implicits.

(** ** The generator's data (generator.ts, lines 7-29; config.ts) *)

Record Config := {
  routeFilePrefix : option jsstring;
  routeFileIgnorePrefix : jsstring;
  routesDirectory : jsstring;
  generatedRouteTree : jsstring;
  quoteStyleSingle : bool;
  disableTypes : bool
}.

(** [getConfig] (config.ts): the schema applied to the content of
    [tsr.config.json], or to the empty object when there is no such file,
    then the extension of the generated file when types are disabled.  A
    field of the file that is absent is [None]; [quoteStyle] is [true] for
    ['single'].  A value of another type than the schema's makes [parse]
    throw: the fields below have the schema's types. *)
Module ConfigSchema.

Record input := {
  routeFilePrefix : option jsstring;
  routeFileIgnorePrefix : option jsstring;
  routesDirectory : option jsstring;
  generatedRouteTree : option jsstring;
  quoteStyle : option bool;
  disableTypes : option bool
}.

Definition empty : input :=
  {| routeFilePrefix := None; routeFileIgnorePrefix := None;
     routesDirectory := None; generatedRouteTree := None;
     quoteStyle := None; disableTypes := None |}.

End ConfigSchema.

Definition configSchema_parse (file : ConfigSchema.input) : Config :=
  {| routeFilePrefix := ConfigSchema.routeFilePrefix file;
     routeFileIgnorePrefix := default (str "-") (ConfigSchema.routeFileIgnorePrefix file);
     routesDirectory := default (str "./src/routes") (ConfigSchema.routesDirectory file);
     generatedRouteTree :=
       default (str "./src/routeTree.gen.ts") (ConfigSchema.generatedRouteTree file);
     quoteStyleSingle := default true (ConfigSchema.quoteStyle file);
     disableTypes := default false (ConfigSchema.disableTypes file) |}.

(** [generatedRouteTree.replace(/\.(ts|tsx)$/, '.js')]. *)
Definition replaceTsExtension (p : jsstring) : jsstring :=
  match JS.stripSuffix (str ".ts") p with
  | Some stem => stem ++ str ".js"
  | None =>
      match JS.stripSuffix (str ".tsx") p with
      | Some stem => stem ++ str ".js"
      | None => p
      end
  end.

Definition getConfig (file : option ConfigSchema.input) : Config :=
  let config := configSchema_parse (default ConfigSchema.empty file) in
  if disableTypes config then
    {| routeFilePrefix := routeFilePrefix config;
       routeFileIgnorePrefix := routeFileIgnorePrefix config;
       routesDirectory := routesDirectory config;
       generatedRouteTree := replaceTsExtension (generatedRouteTree config);
       quoteStyleSingle := quoteStyleSingle config;
       disableTypes := disableTypes config |}
  else config.

Definition rootPathId : jsstring := str "__root".

(** A [RouteNode].  Objects of this type are shared between the flat list,
    the tree and the pieces table, and are mutated after they are created:
    [parent] and [children] hold references (indices into the store of the
    build).  A flag that is [undefined] reads as [false]; [routePath] is
    set on every node the scan creates. *)
Record RouteNode := {
  filePath : jsstring;
  fullPath : jsstring;
  variableName : jsstring;
  routePath : jsstring;
  cleanedPath : option jsstring;
  path : option jsstring;
  isNonPath : bool;
  isNonLayout : bool;
  isRoute : bool;
  isLoader : bool;
  isComponent : bool;
  isErrorComponent : bool;
  isPendingComponent : bool;
  isNotFoundComponent : bool;
  isVirtual : bool;
  children : list nat;
  parent : option nat
}.

Record RouteSubNode := {
  component : option nat;
  errorComponent : option nat;
  pendingComponent : option nat;
  notFoundComponent : option nat;
  loader : option nat
}.

Definition emptySubNode : RouteSubNode :=
  {| component := None; errorComponent := None; pendingComponent := None;
     notFoundComponent := None; loader := None |}.

(** A directory as [fs.readdir] lists it. *)
#[warnings="-register-all"]
Inductive Dirent :=
| File (name : jsstring)
| Directory (name : jsstring) (entries : list Dirent).

Definition direntName (d : Dirent) : jsstring :=
  match d with File n => n | Directory n _ => n end.

(** ** String helpers of generator.ts (lines 480-548) *)

(** [removeExt]: [d.substring(0, d.lastIndexOf('.')) || d]. *)
Definition removeExt (d : jsstring) : jsstring :=
  JS.orElse (JS.substring0 d (JS.lastIndexOf "."%char d)) d.

(** [replaceBackslash]: every backslash becomes a slash. *)
Definition replaceBackslash (s : jsstring) : jsstring :=
  map (fun c => if Ascii.eqb c "\"%char then "/"%char else c) s.

(** [removeUnderscores]: [s.replace(/(^_|_$)/, '').replace(/(\/_|_\/)/, '/')],
    each replacement acting on the leftmost match only. *)
Definition dropEdgeUnderscore (s : jsstring) : jsstring :=
  if JS.startsWith s (str "_") then drop 1 s
  else if JS.endsWith s (str "_") then take (length s - 1) s
  else s.

Fixpoint dropSlashUnderscore (s : jsstring) : jsstring :=
  if JS.startsWith s (str "/_") || JS.startsWith s (str "_/")
  then "/"%char :: drop 2 s
  else match s with
       | [] => []
       | c :: s' => c :: dropSlashUnderscore s'
       end.

Definition removeUnderscores (s : jsstring) : jsstring :=
  dropSlashUnderscore (dropEdgeUnderscore s).

(** [removeTrailingUnderscores]:
    [s.replace(/(_$)/, '').replace(/(_\/)/, '/')]. *)
Definition dropTrailingUnderscore (s : jsstring) : jsstring :=
  if JS.endsWith s (str "_") then take (length s - 1) s else s.

Fixpoint dropUnderscoreSlash (s : jsstring) : jsstring :=
  if JS.startsWith s (str "_/") then "/"%char :: drop 2 s
  else match s with
       | [] => []
       | c :: s' => c :: dropUnderscoreSlash s'
       end.

Definition removeTrailingUnderscores (s : jsstring) : jsstring :=
  dropUnderscoreSlash (dropTrailingUnderscore s).

(** [escapedRoutePath] of [buildRouteConfig] (lines 263-265):
    [removeTrailingUnderscores(node.routePath?.replaceAll('$', '$$') ?? '')],
    the route path that is written into [FileRoute('...')] of a route
    file. *)
Definition escapedRoutePath (routePath : jsstring) : jsstring :=
  removeTrailingUnderscores (JS.replaceAllWith (str "$") (str "$$") routePath).

(** [capitalize], on the letters [a]-[z]. *)
Definition toUpperCase (c : ascii) : ascii :=
  let n := nat_of_ascii c in
  if ((97 <=? n) && (n <=? 122))%nat then ascii_of_nat (n - 32) else c.

Definition capitalize (s : jsstring) : jsstring :=
  match s with
  | [] => []
  | c :: s' => toUpperCase c :: s'
  end.

Definition isAlphaNum (c : ascii) : bool :=
  let n := nat_of_ascii c in
  (((48 <=? n) && (n <=? 57)) || ((65 <=? n) && (n <=? 90))
   || ((97 <=? n) && (n <=? 122)))%nat.

(** [s.split(/[/-]/g)]. *)
Fixpoint splitSlashDash (s : jsstring) : list jsstring :=
  match s with
  | [] => [[]]
  | c :: s' =>
      if Ascii.eqb c "/"%char || Ascii.eqb c "-"%char then [] :: splitSlashDash s'
      else match splitSlashDash s' with
           | seg :: rest => (c :: seg) :: rest
           | [] => [[c]]
           end
  end.

(** [routePathToVariable]. *)
Definition routePathToVariable (d : jsstring) : jsstring :=
  let s1 := removeUnderscores d in
  let s2 := JS.replaceAll (str "/$/") (str "/splat/") s1 in
  let s3 := match JS.stripSuffix (str "$") s2 with
            | Some pre => pre ++ str "splat"
            | None => s2
            end in
  let s4 := filter (fun c => c <> "$"%char) s3 in
  let parts := imap (fun i d => if bool_decide (0 < i)%nat then capitalize d else d)
                 (splitSlashDash s4) in
  filter (fun c => isAlphaNum c = true) (JS.join [] parts).

(** ** Scanning the routes directory ([getRouteNodes], lines 31-112) *)

(** The directory filter of lines 40-53. *)
Definition keepDirent (cfg : Config) (d : Dirent) : bool :=
  let name := direntName d in
  if JS.startsWith name (str ".")
     || (negb (bool_decide (routeFileIgnorePrefix cfg = []))
         && JS.startsWith name (routeFileIgnorePrefix cfg))
  then false
  else match routeFilePrefix cfg with
       | Some (c :: pre) => JS.startsWith name (c :: pre)
       | _ => true
       end.

(** [/\.(tsx|ts|jsx|js)$/]. *)
Definition hasRouteExtension (p : jsstring) : bool :=
  JS.endsWith p (str ".tsx") || JS.endsWith p (str ".ts")
  || JS.endsWith p (str ".jsx") || JS.endsWith p (str ".js").

(** The words of
    [/\/(component|errorComponent|pendingComponent|notFoundComponent|loader|route)$/]. *)
Definition pieceSuffixes : list jsstring :=
  [str "/component"; str "/errorComponent"; str "/pendingComponent";
   str "/notFoundComponent"; str "/loader"; str "/route"].

(** [routePath.replace(/\/(component|...|route)$/, '')]: the match starts
    at the last slash, so at most one of the words applies. *)
Fixpoint stripPieceSuffix (suffixes : list jsstring) (routePath : jsstring) : jsstring :=
  match suffixes with
  | [] => routePath
  | suffix :: rest =>
      match JS.stripSuffix suffix routePath with
      | Some pre => pre
      | None => stripPieceSuffix rest routePath
      end
  end.

(** [routePath.replace(/\/index$/, '/')]. *)
Definition replaceTrailingIndex (routePath : jsstring) : jsstring :=
  match JS.stripSuffix (str "/index") routePath with
  | Some pre => pre ++ str "/"
  | None => routePath
  end.

(** The route path of a file as the specification words it: the
    relative path is cut at its dots and slashes, the last part (the
    extension) is dropped, then one trailing segment that names a piece of
    a route is dropped, a trailing [index] segment is emptied, and the
    segments are joined again after a leading slash. *)
Definition dotsToSlashes (s : jsstring) : jsstring :=
  map (fun c => if Ascii.eqb c "."%char then "/"%char else c) s.

Definition pieceSegments : list jsstring :=
  [str "route"; str "component"; str "errorComponent"; str "pendingComponent";
   str "notFoundComponent"; str "loader"].

Definition dropPieceSegment (segments : list jsstring) : list jsstring :=
  match last segments with
  | Some seg => if bool_decide (seg ∈ pieceSegments) then JS.pop segments else segments
  | None => segments
  end.

Definition emptyIndexSegment (segments : list jsstring) : list jsstring :=
  match last segments with
  | Some seg =>
      if bool_decide (seg = str "index") then JS.pop segments ++ [[]] else segments
  | None => segments
  end.

Definition routePathSpec (filePath : jsstring) : jsstring :=
  let segments := JS.pop (JS.split "/"%char (dotsToSlashes filePath)) in
  str "/" ++ JS.join (str "/") (emptyIndexSegment (dropPieceSegment segments)).

(** The segments of a path written out, each after a slash. *)
Definition slashed (segments : list jsstring) : jsstring :=
  flat_map (fun seg => str "/" ++ seg) segments.

(** [`/${filePathNoExt.split('.').join('/')}`], the argument of
    [cleanPath] at line 65. *)
Definition dottedPath (filePath : jsstring) : jsstring :=
  let filePathNoExt := removeExt filePath in
  str "/" ++ JS.join (str "/") (JS.split "."%char filePathNoExt).

(** The route path of a file as the amended wording has it.  The relative
    path is cut at its dots and slashes and the last part, the extension,
    is dropped; what is left is joined by slashes after a leading slash
    and handed to [cleanPath].  What comes back is cut at its slashes,
    [first] being what precedes the first slash and [segments] what
    follows each slash: one last segment that names a piece of a route is
    dropped, a last segment [index] is emptied, [index] alone and the
    empty path are the root. *)
Definition routePathOfSegments (first : jsstring) (segments : list jsstring)
  : jsstring :=
  let segments := dropPieceSegment segments in
  if bool_decide (first = str "index" /\ segments = []) then str "/"
  else JS.orElse (first ++ slashed (emptyIndexSegment segments)) (str "/").

Definition routePathAmended (cleanPath : jsstring -> jsstring) (filePath : jsstring)
  : jsstring :=
  let stem := JS.pop (JS.split "/"%char (dotsToSlashes filePath)) in
  match JS.split "/"%char (cleanPath (str "/" ++ JS.join (str "/") stem)) with
  | first :: segments => routePathOfSegments first segments
  | [] => str "/"
  end.

Section Scan.

(** [cleanPath] is imported from [./utils], which is not among the
    sources at hand: it is a parameter of the model. *)
Context (cleanPath : jsstring -> jsstring).

(** Lines 63-88: the route path of a file, from its path relative to the
    routes directory. *)
Definition rawRoutePath (relativePath : jsstring) : jsstring :=
  let filePath := replaceBackslash relativePath in
  JS.orElse (cleanPath (dottedPath filePath)) [].

Definition routePathOfFile (relativePath : jsstring) : jsstring :=
  let routePath := rawRoutePath relativePath in
  let routePath := stripPieceSuffix pieceSuffixes routePath in
  let routePath :=
    if bool_decide (routePath = str "index") then str "/" else routePath in
  JS.orElse (replaceTrailingIndex routePath) (str "/").

(** Lines 90-101: the node pushed for a file. *)
Definition routeNodeOfFile (cfg : Config) (relativePath : jsstring) : RouteNode :=
  let raw := rawRoutePath relativePath in
  {| filePath := replaceBackslash relativePath;
     fullPath := JS.pathJoin (routesDirectory cfg) relativePath;
     variableName := routePathToVariable raw;
     routePath := routePathOfFile relativePath;
     cleanedPath := None;
     path := None;
     isNonPath := false;
     isNonLayout := false;
     isRoute := JS.endsWith raw (str "/route");
     isLoader := JS.endsWith raw (str "/loader");
     isComponent := JS.endsWith raw (str "/component");
     isErrorComponent := JS.endsWith raw (str "/errorComponent");
     isPendingComponent := JS.endsWith raw (str "/pendingComponent");
     isNotFoundComponent := JS.endsWith raw (str "/notFoundComponent");
     isVirtual := false;
     children := [];
     parent := None |}.

(** [recurse]: the files of a directory are pushed while the listing is
    mapped over, the content of a sub-directory once its own listing has
    arrived.  The order below (files first, then the sub-directories in
    turn) is one of the orders in which those listings can arrive. *)
Definition scanFiles (cfg : Config) (dir : jsstring) (dirList : list Dirent)
  : list RouteNode :=
  flat_map
    (fun dirent =>
       match dirent with
       | File name =>
           if keepDirent cfg dirent && hasRouteExtension name
           then [routeNodeOfFile cfg (JS.pathJoin dir name)] else []
       | Directory _ _ => []
       end) dirList.

Fixpoint scanSubdirectory (cfg : Config) (dir : jsstring) (dirent : Dirent)
  : list RouteNode :=
  match dirent with
  | File _ => []
  | Directory name entries =>
      let relativePath := JS.pathJoin dir name in
      scanFiles cfg relativePath entries
      ++ flat_map
           (fun e => if keepDirent cfg e
                     then scanSubdirectory cfg relativePath e else [])
           entries
  end.

Definition recurse (cfg : Config) (dir : jsstring) (dirList : list Dirent)
  : list RouteNode :=
  scanFiles cfg dir dirList
  ++ flat_map
       (fun e => if keepDirent cfg e then scanSubdirectory cfg dir e else [])
       dirList.

(** [getRouteNodes]: [recurse('./')] on the listing of the routes
    directory. *)
Definition getRouteNodes (cfg : Config) (dirList : list Dirent) : list RouteNode :=
  recurse cfg (str "./") dirList.

(** ** The first sort (lines 152-167) *)

Definition sign (b : bool) : option jsval :=
  Some (VNum (if b then -1 else 1)).

Definition matchesIndex (filePath : jsstring) : bool :=
  JS.includes filePath (str ".index.") || JS.includes filePath (str "/index.").

Definition pieceWords : list jsstring :=
  [str "component"; str "errorComponent"; str "pendingComponent";
   str "notFoundComponent"; str "loader"].

Definition matchesPiece (filePath : jsstring) : bool :=
  existsb (fun w => JS.includes filePath (str "." ++ w ++ str ".")
                    || JS.includes filePath (str "/" ++ w ++ str "."))
    pieceWords.

Definition matchesRoute (filePath : jsstring) : bool :=
  JS.includes filePath (str ".route.") || JS.includes filePath (str "/route.").

Definition preSortAccessors : list (accessor RouteNode) :=
  [ fun d => sign (bool_decide (routePath d = str "/"));
    fun d => Some (VNum (Z.of_nat (length (JS.split "/"%char (routePath d)))));
    fun d => sign (negb (matchesIndex (filePath d)));
    fun d => sign (negb (matchesPiece (filePath d)));
    fun d => sign (matchesRoute (filePath d));
    fun d => sign (JS.endsWith (routePath d) (str "/"));
    fun d => Some (VStr (routePath d)) ].

Definition routePathIdPrefix (cfg : Config) : jsstring :=
  default [] (routeFilePrefix cfg).

Definition preRouteNodes (cfg : Config) (dirList : list Dirent) : list RouteNode :=
  filter (fun d => routePath d <> str "/" ++ routePathIdPrefix cfg ++ rootPathId)
    (multiSortBy (getRouteNodes cfg dirList) preSortAccessors).

End Scan.

(** ** The second sort (lines 291-297) and the default accessors

    [routeNodes] holds objects, each paired with its reference here; the
    last accessor, [(d) => d], returns the object itself.  Only the
    accessors are given: to nodes that the first three accessors do not
    tell apart the comparator answers [-1] in either order, and the order
    in which [sort] then returns them is not fixed by the language. *)
Definition sortedRouteNodesAccessors (routePathIdPrefix : jsstring)
  : list (accessor (nat * RouteNode)) :=
  [ fun d => sign (JS.includes (routePath d.2)
                     (str "/" ++ routePathIdPrefix ++ rootPathId));
    fun d => Some (VNum (Z.of_nat (length (JS.split "/"%char (routePath d.2)))));
    fun d => sign (JS.endsWith (routePath d.2) (str "index'"));
    fun d => Some (VObj d.1) ].

(** [[(d) => d]], the default of line 505, for an array of objects. *)
Definition defaultAccessors : list (accessor nat) :=
  [ fun d => Some (VObj d) ].

(** ** [hasParentRoute] (lines 550-578) *)

(** The routes handed to [hasParentRoute] are objects of the store: each is
    paired with its reference. *)
Definition parentSortAccessors : list (accessor (nat * RouteNode)) :=
  [ fun d => Some (VNum (Z.of_nat (length (routePath d.2)) * -1));
    fun d => Some (VStr (variableName d.2)) ].

(** The [for] loop of lines 563-572. *)
Definition isParentOf (routePathToCheck : jsstring) (route : nat * RouteNode) : bool :=
  negb (bool_decide (routePath route.2 = str "/"))
  && JS.startsWith routePathToCheck (routePath route.2 ++ str "/")
  && negb (bool_decide (routePath route.2 = routePathToCheck)).

Definition parentCandidates (routes : list (nat * RouteNode)) : list (nat * RouteNode) :=
  filter (fun d => routePath d.2 <> str "/" ++ rootPathId)
    (multiSortBy routes parentSortAccessors).

(** The recursion is on a path that loses its last segment at every call;
    the fuel bounds the number of calls and [None] in the outer option
    reports that it ran out. *)
Fixpoint hasParentRoute_go (fuel : nat) (routes : list (nat * RouteNode))
    (routePathToCheck : jsstring) : option (option nat) :=
  match fuel with
  | O => None
  | S fuel' =>
      if bool_decide (routePathToCheck = []) || bool_decide (routePathToCheck = str "/")
      then Some None
      else
        match List.find (isParentOf routePathToCheck) (parentCandidates routes) with
        | Some route => Some (Some route.1)
        | None =>
            let segments := JS.split "/"%char routePathToCheck in
            let parentRoutePath := JS.join (str "/") (JS.pop segments) in
            hasParentRoute_go fuel' routes parentRoutePath
        end
  end.

Definition hasParentRoute (routes : list (nat * RouteNode))
    (routePathToCheck : jsstring) : option (option nat) :=
  hasParentRoute_go (S (length routePathToCheck)) routes routePathToCheck.

(** ** Building the tree ([handleNode], lines 169-244) *)

Record BuildState := {
  heap : list RouteNode;
  routeNodes : list nat;
  routeTree : list nat;
  routePiecesByPath : gmap jsstring RouteSubNode
}.

(** The objects a list of references stands for. *)
Definition deref (h : list RouteNode) (refs : list nat) : list (nat * RouteNode) :=
  omap (fun r => (fun n => (r, n)) <$> h !! r) refs.

Definition isPiece (node : RouteNode) : bool :=
  isLoader node || isComponent node || isErrorComponent node
  || isPendingComponent node || isNotFoundComponent node.

(** The assignment of lines 206-216, by the nested conditional. *)
Definition setPiece (node : RouteNode) (r : nat) (sub : RouteSubNode) : RouteSubNode :=
  if isLoader node then
    {| component := component sub; errorComponent := errorComponent sub;
       pendingComponent := pendingComponent sub;
       notFoundComponent := notFoundComponent sub; loader := Some r |}
  else if isErrorComponent node then
    {| component := component sub; errorComponent := Some r;
       pendingComponent := pendingComponent sub;
       notFoundComponent := notFoundComponent sub; loader := loader sub |}
  else if isPendingComponent node then
    {| component := component sub; errorComponent := errorComponent sub;
       pendingComponent := Some r;
       notFoundComponent := notFoundComponent sub; loader := loader sub |}
  else if isNotFoundComponent node then
    {| component := component sub; errorComponent := errorComponent sub;
       pendingComponent := pendingComponent sub;
       notFoundComponent := Some r; loader := loader sub |}
  else
    {| component := Some r; errorComponent := errorComponent sub;
       pendingComponent := pendingComponent sub;
       notFoundComponent := notFoundComponent sub; loader := loader sub |}.

(** The piece a node is recorded as. *)
Definition pieceOf (node : RouteNode) (sub : RouteSubNode) : option nat :=
  if isLoader node then loader sub
  else if isErrorComponent node then errorComponent sub
  else if isPendingComponent node then pendingComponent sub
  else if isNotFoundComponent node then notFoundComponent sub
  else component sub.

Definition withParent (p : option nat) (n : RouteNode) : RouteNode :=
  {| filePath := filePath n; fullPath := fullPath n; variableName := variableName n;
     routePath := routePath n; cleanedPath := cleanedPath n; path := path n;
     isNonPath := isNonPath n; isNonLayout := isNonLayout n; isRoute := isRoute n;
     isLoader := isLoader n; isComponent := isComponent n;
     isErrorComponent := isErrorComponent n;
     isPendingComponent := isPendingComponent n;
     isNotFoundComponent := isNotFoundComponent n; isVirtual := isVirtual n;
     children := children n; parent := p |}.

Definition withPaths (p : jsstring) (nonPath nonLayout : bool) (cleaned : jsstring)
    (n : RouteNode) : RouteNode :=
  {| filePath := filePath n; fullPath := fullPath n; variableName := variableName n;
     routePath := routePath n; cleanedPath := Some cleaned; path := Some p;
     isNonPath := nonPath; isNonLayout := nonLayout; isRoute := isRoute n;
     isLoader := isLoader n; isComponent := isComponent n;
     isErrorComponent := isErrorComponent n;
     isPendingComponent := isPendingComponent n;
     isNotFoundComponent := isNotFoundComponent n; isVirtual := isVirtual n;
     children := children n; parent := parent n |}.

Definition pushChild (c : nat) (n : RouteNode) : RouteNode :=
  {| filePath := filePath n; fullPath := fullPath n; variableName := variableName n;
     routePath := routePath n; cleanedPath := cleanedPath n; path := path n;
     isNonPath := isNonPath n; isNonLayout := isNonLayout n; isRoute := isRoute n;
     isLoader := isLoader n; isComponent := isComponent n;
     isErrorComponent := isErrorComponent n;
     isPendingComponent := isPendingComponent n;
     isNotFoundComponent := isNotFoundComponent n; isVirtual := isVirtual n;
     children := children n ++ [c]; parent := parent n |}.

(** The object literal of lines 221-229. *)
Definition virtualCopy (n : RouteNode) : RouteNode :=
  {| filePath := filePath n; fullPath := fullPath n; variableName := variableName n;
     routePath := routePath n; cleanedPath := cleanedPath n; path := path n;
     isNonPath := isNonPath n; isNonLayout := isNonLayout n; isRoute := isRoute n;
     isLoader := false; isComponent := false; isErrorComponent := false;
     isPendingComponent := false; isNotFoundComponent := false; isVirtual := true;
     children := children n; parent := parent n |}.

Definition setHeap (h : list RouteNode) (st : BuildState) : BuildState :=
  {| heap := h; routeNodes := routeNodes st; routeTree := routeTree st;
     routePiecesByPath := routePiecesByPath st |}.

Definition setPieces (m : gmap jsstring RouteSubNode) (st : BuildState) : BuildState :=
  {| heap := heap st; routeNodes := routeNodes st; routeTree := routeTree st;
     routePiecesByPath := m |}.

Definition pushRouteTree (r : nat) (st : BuildState) : BuildState :=
  {| heap := heap st; routeNodes := routeNodes st; routeTree := routeTree st ++ [r];
     routePiecesByPath := routePiecesByPath st |}.

Definition pushRouteNodes (r : nat) (st : BuildState) : BuildState :=
  {| heap := heap st; routeNodes := routeNodes st ++ [r]; routeTree := routeTree st;
     routePiecesByPath := routePiecesByPath st |}.

Section Tree.

(** [trimPathLeft] is imported from [./utils], which is not among the
    sources at hand: it is a parameter of the model. *)
Context (trimPathLeft : jsstring -> jsstring).

(** Lines 177-192: the parent, the local path and what is read off it. *)
Definition prepareNode (st : BuildState) (r : nat) : option BuildState :=
  node ← heap st !! r;
  parentRoute ← hasParentRoute (deref (heap st) (routeNodes st)) (routePath node);
  let node :=
    match parentRoute with
    | Some p => withParent (Some p) node
    | None => node
    end in
  path ← match parent node with
         | Some p =>
             pn ← heap st !! p;
             Some (JS.orElse (JS.replaceFirst (routePath pn) [] (routePath node))
                     (str "/"))
         | None => Some (routePath node)
         end;
  let trimmedPath := trimPathLeft path in
  let split := JS.split "/"%char trimmedPath in
  let first := default trimmedPath (head split) in
  Some (setHeap
          (<[r := withPaths path (JS.startsWith first (str "_"))
                    (JS.endsWith first (str "_")) (removeUnderscores path) node]>
             (heap st))
          st).

(** Lines 234-241: the node enters the tree and the flat list. *)
Definition insertNode (st : BuildState) (r : nat) (node : RouteNode) : BuildState :=
  pushRouteNodes r
    match parent node with
    | Some p => setHeap (alter (pushChild r) p (heap st)) st
    | None => pushRouteTree r st
    end.

(** [handleNode].  It calls itself once, on the virtual copy of a piece
    that has no anchor, and that copy is no piece: two units of fuel are
    all it uses. *)
Fixpoint handleNode (fuel : nat) (st : BuildState) (r : nat) : option BuildState :=
  match fuel with
  | O => None
  | S fuel' =>
      st ← prepareNode st r;
      node ← heap st !! r;
      if negb (isVirtual node) && isPiece node then
        let sub := default emptySubNode (routePiecesByPath st !! routePath node) in
        let st :=
          setPieces (<[routePath node := setPiece node r sub]> (routePiecesByPath st))
            st in
        let anchorRoute :=
          List.find (fun d => bool_decide (routePath d.2 = routePath node))
            (deref (heap st) (routeNodes st)) in
        match anchorRoute with
        | None =>
            handleNode fuel' (setHeap (heap st ++ [virtualCopy node]) st)
              (length (heap st))
        | Some _ => Some st
        end
      else Some (insertNode st r node)
  end.

(** The state the loop starts from: the scanned nodes are the first
    objects of the store. *)
Definition initialBuild (pre : list RouteNode) : BuildState :=
  {| heap := pre; routeNodes := []; routeTree := []; routePiecesByPath := ∅ |}.

(** [preRouteNodes.forEach((node) => handleNode(node))] from a given
    state, and from the start. *)
Definition handleNodes (st : BuildState) (refs : list nat) : option BuildState :=
  foldl (fun acc r => st ← acc; handleNode 2 st r) (Some st) refs.

Definition buildRouteTree (pre : list RouteNode) : option BuildState :=
  handleNodes (initialBuild pre) (seq 0 (length pre)).

(** Walking the parent links of a node and concatenating the local
    paths met on the way, the root's first. *)
Fixpoint composePath (fuel : nat) (h : list RouteNode) (r : nat) : option jsstring :=
  match fuel with
  | O => None
  | S fuel' =>
      node ← h !! r;
      local ← path node;
      match parent node with
      | None => Some local
      | Some p => above ← composePath fuel' h p; Some (above ++ local)
      end
  end.

End Tree.

(** ** What holds while the tree is built *)

(** What a node keeps of the file it was made from: [handleNode] changes
    none of these fields. *)
Definition fileOf (n : RouteNode) :=
  (filePath n, fullPath n, variableName n, routePath n, isRoute n,
   (isLoader n, isComponent n, isErrorComponent n, isPendingComponent n,
    isNotFoundComponent n, isVirtual n)).

(** A node as the scan leaves it. *)
Definition fresh (n : RouteNode) : Prop :=
  parent n = None /\ path n = None /\ children n = [].

(** [n] is placed under the node at [p]: the path of that node, which is
    not ['/'], followed by a slash, starts the path of [n], and the local
    path of [n] is the rest. *)
Definition childOf (h : list RouteNode) (n : RouteNode) (p : nat) : Prop :=
  exists pn,
    h !! p = Some pn
    /\ routePath pn <> str "/"
    /\ (routePath pn ++ str "/") `prefix_of` routePath n
    /\ routePath pn <> routePath n
    /\ path n = Some (drop (length (routePath pn)) (routePath n)).

Record TreeInv (pre : list RouteNode) (st : BuildState) : Prop := {
  tree_scanned : forall k n,
    pre !! k = Some n -> exists n', heap st !! k = Some n' /\ fileOf n' = fileOf n;
  tree_parent : forall r n p,
    heap st !! r = Some n -> parent n = Some p ->
    p ∈ routeNodes st /\ childOf (heap st) n p;
  tree_orphan : forall r n,
    heap st !! r = Some n -> parent n = None ->
    path n = None \/ path n = Some (routePath n);
  tree_nodes : forall r,
    r ∈ routeNodes st ->
    exists n, heap st !! r = Some n /\ is_Some (path n)
              /\ negb (isVirtual n) && isPiece n = false;
  tree_top : forall r, r ∈ routeTree st -> r ∈ routeNodes st;
  tree_children : forall q qn c,
    heap st !! q = Some qn -> c ∈ children qn -> c ∈ routeNodes st
}.

(** The parent link of the object at [r]. *)
Definition parentOf (h : list RouteNode) (r : nat) : option nat :=
  n ← h !! r; parent n.

(** The shape of the tree: the processed nodes are listed once; the top of
    the tree holds those without parent and the children of an object
    those whose parent it is, in the order in which they were processed. *)
Definition TreeShape (st : BuildState) : Prop :=
  NoDup (routeNodes st)
  /\ routeTree st = filter (fun r => parentOf (heap st) r = None) (routeNodes st)
  /\ forall q qn,
       heap st !! q = Some qn ->
       children qn = filter (fun r => parentOf (heap st) r = Some q) (routeNodes st).

(** A store that keeps the route path of every object it had. *)
Definition extends (h h' : list RouteNode) : Prop :=
  forall q qn, h !! q = Some qn ->
    exists qn', h' !! q = Some qn' /\ routePath qn' = routePath qn.

(** Some processed node has the route path [p]: an anchor. *)
Definition hasAnchor (st : BuildState) (p : jsstring) : Prop :=
  exists d dn, d ∈ routeNodes st /\ heap st !! d = Some dn /\ routePath dn = p.

(** ** Invocations of [generator] (lines 114-147 and 453-478)

    An invocation runs until its next [await] and is resumed when the
    awaited promise settles; between the two, other invocations run.  The
    module-level variables [latestTask], [first] and [skipMessage] and the
    generated route-tree file are shared by all of them. *)

Module Run.

Inductive message :=
| Generating
| Regenerating
| Processed.

(** What the invocations do to the outside and what the file system
    does for them, in order.  [Read] is the moment at which
    [fs.readFile] takes the content of the generated file ([None] when
    there is no file), [Wrote] the call of [fs.writeFile] and [Landed]
    the moment at which the content of such a call is in the file. *)
Inductive event :=
| Started (taskId : nat)
| Logged (taskId : nat) (m : message)
| Read (taskId : nat) (content : option jsstring)
| Mkdir (taskId : nat)
| Wrote (taskId : nat) (content : jsstring)
| Landed (taskId : nat) (content : jsstring).

(** The shared state.  [routeTreeFile] is the content of
    [config.generatedRouteTree], [None] when the file does not exist.
    A write does not take effect when [fs.writeFile] is called: the
    call returns a promise and the content reaches the file later,
    before that promise is fulfilled. *)
Record World := {
  latestTask : nat;
  first : bool;
  skipMessage : bool;
  routeTreeFile : option jsstring;
  trace : list event
}.

(** Where an invocation is suspended, with the locals it still needs.
    An invocation that waits for [fs.readFile] or [fs.writeFile] is in
    one state before the file system has acted ([AwaitReadFile],
    [AwaitWriteFile]) and in another one afterwards, until it is resumed
    ([ReadFileDone], [WriteFileDone]). *)
Inductive task :=
| AwaitGenerate (taskId : nat)
| AwaitReadFile (taskId : nat) (routeConfigFileContent : jsstring)
| ReadFileDone (taskId : nat) (routeConfigFileContent : jsstring)
    (routeTreeContent : option jsstring)
| AwaitMkdir (taskId : nat) (routeConfigFileContent : jsstring)
| AwaitWriteFile (taskId : nat) (routeConfigFileContent : jsstring)
| WriteFileDone (taskId : nat)
| Returned
| Threw.

(** What happens to the awaited promise.  [Generated] carries the
    formatted text that lines 152-451 produce from the routes directory.
    [FileRead] is the moment at which [fs.readFile] takes the content of
    the file, and [FileWritten] the moment at which [fs.writeFile] puts
    its content there (in one piece); both come before the invocation is
    resumed, and other invocations may run in between.  [Fulfilled] and
    [Rejected] settle the promise and resume the invocation; a step of
    another kind than the awaited one leaves it suspended. *)
Inductive settle :=
| Generated (content : jsstring)
| FileRead
| FileWritten
| Fulfilled
| Rejected.

Definition emit (e : event) (w : World) : World :=
  {| latestTask := latestTask w; first := first w; skipMessage := skipMessage w;
     routeTreeFile := routeTreeFile w; trace := trace w ++ [e] |}.

Definition setSkipMessage (b : bool) (w : World) : World :=
  {| latestTask := latestTask w; first := first w; skipMessage := b;
     routeTreeFile := routeTreeFile w; trace := trace w |}.

(** The file takes the content of a write that was called before. *)
Definition writeFile (taskId : nat) (content : jsstring) (w : World) : World :=
  {| latestTask := latestTask w; first := first w; skipMessage := skipMessage w;
     routeTreeFile := Some content; trace := trace w ++ [Landed taskId content] |}.

(** Lines 126-138, up to the first [await]. *)
Definition start (w : World) : World * task :=
  let taskId := (latestTask w + 1)%nat in
  let announce :=
    if negb (first w) then [Logged taskId Generating]
    else if skipMessage w then []
    else [Logged taskId Regenerating] in
  ({| latestTask := taskId;
      first := true;
      skipMessage := if negb (first w) then skipMessage w
                     else if skipMessage w then false else skipMessage w;
      routeTreeFile := routeTreeFile w;
      trace := trace w ++ announce ++ [Started taskId] |},
   AwaitGenerate taskId).

(** [checkLatest] (lines 140-147). *)
Definition checkLatest (taskId : nat) (w : World) : World * bool :=
  if bool_decide (latestTask w <> taskId) then (setSkipMessage true w, false)
  else (w, true).

(** The code run when the awaited promise settles, up to the next
    [await] or to the end, and what the file system does in between. *)
Definition resume (t : task) (s : settle) (w : World) : World * task :=
  match t, s with
  | Returned, _ => (w, Returned)
  | Threw, _ => (w, Threw)
  | _, Rejected => (w, Threw)
  | AwaitGenerate taskId, Generated content => (w, AwaitReadFile taskId content)
  | AwaitReadFile taskId routeConfigFileContent, FileRead =>
      (emit (Read taskId (routeTreeFile w)) w,
       ReadFileDone taskId routeConfigFileContent (routeTreeFile w))
  | ReadFileDone taskId routeConfigFileContent routeTreeContent, Fulfilled =>
      let '(w, latest) := checkLatest taskId w in
      if negb latest then (w, Returned)
      else if bool_decide (routeTreeContent <> Some routeConfigFileContent)
      then (emit (Mkdir taskId) w, AwaitMkdir taskId routeConfigFileContent)
      else (emit (Logged taskId Processed) w, Returned)
  | AwaitMkdir taskId routeConfigFileContent, Fulfilled =>
      let '(w, latest) := checkLatest taskId w in
      if negb latest then (w, Returned)
      else (emit (Wrote taskId routeConfigFileContent) w,
            AwaitWriteFile taskId routeConfigFileContent)
  | AwaitWriteFile taskId routeConfigFileContent, FileWritten =>
      (writeFile taskId routeConfigFileContent w, WriteFileDone taskId)
  | WriteFileDone taskId, Fulfilled => (emit (Logged taskId Processed) w, Returned)
  | _, _ => (w, t)
  end.

(** All invocations made so far, and the scheduler's choices. *)
Record System := {
  world : World;
  tasks : list task
}.

Inductive action :=
| Invoke
| Resume (i : nat) (s : settle).

Definition step (sys : System) (a : action) : System :=
  match a with
  | Invoke =>
      let '(w, t) := start (world sys) in
      {| world := w; tasks := tasks sys ++ [t] |}
  | Resume i s =>
      match tasks sys !! i with
      | Some t =>
          let '(w, t') := resume t s (world sys) in
          {| world := w; tasks := <[i := t']> (tasks sys) |}
      | None => sys
      end
  end.

Definition run (sys : System) (schedule : list action) : System :=
  foldl step sys schedule.

Definition initial (file : option jsstring) : System :=
  {| world := {| latestTask := 0; first := false; skipMessage := false;
                 routeTreeFile := file; trace := [] |};
     tasks := [] |}.

(** One invocation run to its end with nothing else in between: every
    awaited call fulfils, and what it writes is in the file before it
    goes on. *)
Definition alone (content : jsstring) (w : World) : World * task :=
  let '(w, t) := start w in
  let '(w, t) := resume t (Generated content) w in
  let '(w, t) := resume t FileRead w in
  let '(w, t) := resume t Fulfilled w in
  match t with
  | AwaitMkdir _ _ =>
      let '(w, t) := resume t Fulfilled w in
      let '(w, t) := resume t FileWritten w in
      resume t Fulfilled w
  | _ => (w, t)
  end.

(** Reading a trace. *)
Definition taskOf (t : task) : option nat :=
  match t with
  | AwaitGenerate i | AwaitReadFile i _ | ReadFileDone i _ _
  | AwaitMkdir i _ | AwaitWriteFile i _ | WriteFileDone i => Some i
  | Returned | Threw => None
  end.

Definition isWrite (e : event) : bool :=
  match e with Wrote _ _ => true | _ => false end.

Fixpoint lastStarted (tr : list event) : option nat :=
  match tr with
  | [] => None
  | e :: tr' =>
      match lastStarted tr' with
      | Some i => Some i
      | None => match e with Started i => Some i | _ => None end
      end
  end.

(** The content of the file once the events of [tr] have happened to a
    file that held [file]. *)
Fixpoint fileAfter (file : option jsstring) (tr : list event) : option jsstring :=
  match tr with
  | [] => file
  | Landed _ content :: tr' => fileAfter (Some content) tr'
  | _ :: tr' => fileAfter file tr'
  end.

Definition isLanded (e : event) : bool :=
  match e with Landed _ _ => true | _ => false end.

(** The awaits after which [checkLatest] guards the write: the one of
    line 453, resumed at line 462, and the one of line 465, resumed at
    line 468. *)
Definition atGuard (t : task) (taskId : nat) : Prop :=
  (exists c r, t = ReadFileDone taskId c r) \/ (exists c, t = AwaitMkdir taskId c).

Definition writes (w : World) : list event := filter (fun e => isWrite e = true) (trace w).

(** An event that neither starts an invocation, nor calls for a write,
    nor changes the file. *)
Definition quiet (e : event) : Prop :=
  match e with
  | Logged _ _ | Mkdir _ | Read _ _ => True
  | Started _ | Wrote _ _ | Landed _ _ => False
  end.

(** In the trace [tr] of a run that began with [file] on disk,
    invocation [k] has read the file and found [r] there. *)
Definition hasRead (file : option jsstring) (tr : list event) (k : nat)
    (r : option jsstring) : Prop :=
  exists pre post, tr = pre ++ Read k r :: post /\ r = fileAfter file pre.

(** [fs.writeFile] was called by invocation [k] with [c]. *)
Definition calledBefore (tr : list event) (k : nat) (c : jsstring) : Prop :=
  exists pre post, tr = pre ++ Wrote k c :: post.

(** Every call of [fs.writeFile] is made by the invocation started last
    before it, with a content other than the one that invocation has
    read. *)
Definition writesJustified (file : option jsstring) (tr : list event) : Prop :=
  forall pre k c post,
    tr = pre ++ Wrote k c :: post ->
    lastStarted pre = Some k
    /\ exists r, hasRead file pre k r /\ r <> Some c.

(** What reaches the file was handed to [fs.writeFile] before. *)
Definition landingsCalled (tr : list event) : Prop :=
  forall pre k c post,
    tr = pre ++ Landed k c :: post -> calledBefore pre k c.

(** What holds of every state of a run that began with [file] on disk. *)
Record Inv (file : option jsstring) (sys : System) : Prop := {
  inv_bound : forall i t k,
    tasks sys !! i = Some t -> taskOf t = Some k ->
    (1 <= k <= latestTask (world sys))%nat;
  inv_unique : forall i j ti tj k,
    tasks sys !! i = Some ti -> tasks sys !! j = Some tj ->
    taskOf ti = Some k -> taskOf tj = Some k -> i = j;
  inv_started :
    lastStarted (trace (world sys)) =
      if bool_decide (latestTask (world sys) = 0%nat) then None
      else Some (latestTask (world sys));
  inv_started_bound : forall k,
    Started k ∈ trace (world sys) -> (k <= latestTask (world sys))%nat;
  inv_file : routeTreeFile (world sys) = fileAfter file (trace (world sys));
  inv_read : forall i k c r,
    tasks sys !! i = Some (ReadFileDone k c r) ->
    hasRead file (trace (world sys)) k r;
  inv_mkdir : forall i k c,
    tasks sys !! i = Some (AwaitMkdir k c) ->
    exists r, hasRead file (trace (world sys)) k r /\ r <> Some c;
  inv_called : forall i k c,
    tasks sys !! i = Some (AwaitWriteFile k c) ->
    calledBefore (trace (world sys)) k c;
  inv_writes : writesJustified file (trace (world sys));
  inv_landed : landingsCalled (trace (world sys))
}.

(** The bookkeeping of the invocations: they are numbered from one,
    and the trace is empty before the first of them and starts with its
    announcement afterwards. *)
Definition numbered (sys : System) : Prop :=
  latestTask (world sys) = length (tasks sys)
  /\ (forall i t k, tasks sys !! i = Some t -> taskOf t = Some k -> k = S i)
  /\ ((trace (world sys) = [] /\ first (world sys) = false
       /\ latestTask (world sys) = 0%nat)
      \/ (exists rest,
            trace (world sys) = Logged 1 Generating :: Started 1 :: rest
            /\ (forall k, Logged k Generating ∉ rest)
            /\ first (world sys) = true
            /\ latestTask (world sys) <> 0%nat)).

End Run.

(** ** Rendering the matches (Matches.tsx)

    A component either renders an element or throws; what it throws is an
    error or, to suspend, a promise. *)

Module Render.

Inductive Status :=
| StatusPending
| StatusSuccess
| StatusError.

(** A not-found signal, as [notFound(options)] makes it. *)
Record NotFoundError := {
  global : bool;
  data : option jsstring
}.

Inductive JsError :=
| NotFound (e : NotFoundError)
| OtherError (message : jsstring)
| InvariantFailed
| TypeError.

Definition notFound (options : NotFoundError) : JsError := NotFound options.

Definition isNotFound (e : JsError) : bool :=
  match e with NotFound _ => true | _ => false end.

(** The fields of a [RouteMatch] that rendering reads. *)
Record RouteMatch := {
  id : jsstring;
  routeId : jsstring;
  pathname : jsstring;
  status : Status;
  showPending : bool;
  error : JsError;
  loadPromise : nat
}.

Record RouterState := {
  matches : list RouteMatch;
  pendingMatches : option (list RouteMatch);
  cachedMatches : list RouteMatch
}.

(** A user component: its name, whether it carries a [preload] and
    whether it renders an [<Outlet />]. *)
Record Comp := {
  compName : jsstring;
  preload : bool;
  outlet : bool
}.

(** The values an error-component option takes: left out, switched off
    with [false], or a component. *)
Inductive ErrorOption :=
| ErrUnset
| ErrFalse
| ErrComp (c : Comp).

Record RouteOptions := {
  component : option Comp;
  pendingComponent : option Comp;
  errorComponent : ErrorOption;
  notFoundComponent : option Comp;
  wrapInSuspense : option bool
}.

Record Route := {
  options : RouteOptions;
  isRoot : bool
}.

Record RouterOptions := {
  defaultComponent : option Comp;
  defaultPendingComponent : option Comp;
  defaultErrorComponent : ErrorOption;
  notFoundRoute : option Route
}.

Record Router := {
  routesById : gmap jsstring Route;
  routerOptions : RouterOptions
}.

(** The error component a boundary shows: the built-in [ErrorComponent]
    or one that was configured. *)
Inductive ErrorComp :=
| BuiltinErrorComponent
| UserErrorComponent (c : Comp).

#[warnings="-register-all"]
Inductive Element :=
| ENull
| EComponent (c : Comp) (below : option Element)
| EPending (c : Comp)
| EError (c : ErrorComp) (e : JsError)
| ENotFound (c : Comp) (d : option jsstring)
| EProvider (matchId : option jsstring) (child : Element).

Inductive Thrown :=
| TError (e : JsError)
| TPromise (p : nat).

Inductive Result :=
| Rendered (e : Element)
| Throws (t : Thrown).

(** [getRenderedMatches] (lines 329-333). *)
Definition getRenderedMatches (state : RouterState) : list RouteMatch :=
  match pendingMatches state with
  | Some pending =>
      if existsb showPending pending then pending else matches state
  | None => matches state
  end.

(** [getRouteMatch] (RouterProvider.tsx, lines 204-213): the first match
    with the given id among the cached, the pending and the committed
    matches, in this order. *)
Definition getRouteMatch (state : RouterState) (matchId : jsstring)
  : option RouteMatch :=
  List.find (fun d => bool_decide (id d = matchId))
    (cachedMatches state ++ default [] (pendingMatches state) ++ matches state).

(** *** The selections of the accessors *)

Definition findMatch (ms : list RouteMatch) (matchId : jsstring) : option RouteMatch :=
  List.find (fun d => bool_decide (id d = matchId)) ms.

(** [matches.findIndex((d) => d.id === matchId)], [None] for [-1]. *)
Fixpoint findIndex (ms : list RouteMatch) (matchId : jsstring) : option nat :=
  match ms with
  | [] => None
  | d :: ms' =>
      if bool_decide (id d = matchId) then Some 0%nat
      else S <$> findIndex ms' matchId
  end.

(** [Matches], line 62. *)
Definition Matches_select (s : RouterState) : option jsstring :=
  id <$> head (getRenderedMatches s).

Section WithIds.

(** [rootRouteId] and [throwGlobalNotFoundRouteId] are constants
    imported from [./route] and [./router], which are not among the
    sources at hand: they are parameters of the model. *)
Context (rootRouteId throwGlobalNotFoundRouteId : jsstring).

(** [Match], lines 91-97. *)
Definition hasGlobalNotFound (ms : list RouteMatch) : bool :=
  existsb (fun m => bool_decide (routeId m = throwGlobalNotFoundRouteId)) ms.

Definition Match_select (matchId : jsstring) (s : RouterState)
  : option jsstring * bool :=
  (routeId <$> findMatch (getRenderedMatches s) matchId,
   hasGlobalNotFound (getRenderedMatches s)).

(** [MatchInner], lines 185-200. *)
Definition MatchInner_select (matchId : jsstring) (s : RouterState)
  : option jsstring * option (Status * JsError * bool * nat) :=
  (routeId <$> findMatch (getRenderedMatches s) matchId,
   (fun m => (status m, error m, showPending m, loadPromise m))
     <$> findMatch (getRenderedMatches s) matchId).

(** [Outlet], lines 232-238: the id of the match after [matchId], the
    first one when [matchId] is not found. *)
Definition Outlet_select (matchId : jsstring) (s : RouterState) : option jsstring :=
  let matches := getRenderedMatches s in
  let next :=
    match findIndex matches matchId with
    | Some index => (index + 1)%nat
    | None => 0%nat
    end in
  id <$> matches !! next.

(** [useMatches] and [useParentMatches] (lines 396-418), without a
    [select] of the caller's.  [slice] counts a negative start from the
    end. *)
Definition useMatches (s : RouterState) : list RouteMatch :=
  getRenderedMatches s.

Definition useParentMatches (contextMatchId : jsstring) (s : RouterState)
  : list RouteMatch :=
  let matches := useMatches s in
  match findIndex matches contextMatchId with
  | Some index => drop index matches
  | None => drop (length matches - 1) matches
  end.

(** [useMatch] (lines 335-394), without a [select] of the caller's:
    [None] when an invariant fails or no match is found. *)
Definition useMatch (from : option jsstring) (strict : option bool)
    (nearestMatchId : jsstring) (s : RouterState) : option RouteMatch :=
  let nearestMatchRouteId :=
    routeId <$> findMatch (getRenderedMatches s) nearestMatchId in
  let matches := getRenderedMatches s in
  found ← match from with
          | Some (c :: f) =>
              List.find (fun d => bool_decide (routeId d = c :: f)) matches
          | _ => findMatch matches nearestMatchId
          end;
  let matchRouteId := routeId found in
  if default true strict && negb (bool_decide (nearestMatchRouteId = Some matchRouteId))
  then None
  else findMatch (getRenderedMatches s) nearestMatchId.

(** *** The boundaries *)

(** Modelled from the spec: [React.Suspense], the boundary that the
    spec calls suspense-based control flow for pending matches: a
    promise thrown below it is replaced by the fallback, anything else
    passes. *)
Definition Suspense (fallback : Element) (child : Result) : Result :=
  match child with
  | Throws (TPromise _) => Rendered fallback
  | _ => child
  end.

Definition SafeFragment (child : Result) : Result := child.

(** Modelled from the spec: [CatchBoundary] of [./CatchBoundary], the
    boundary at which an error is surfaced: an error thrown below it is
    handed to [onCatch], which may throw it on ([Some]), and is
    otherwise shown through the error component; a thrown promise
    passes. *)
Definition CatchBoundary (errorComponent : ErrorComp)
    (onCatch : JsError -> option JsError) (child : Result) : Result :=
  match child with
  | Throws (TError e) =>
      match onCatch e with
      | Some e' => Throws (TError e')
      | None => Rendered (EError errorComponent e)
      end
  | _ => child
  end.

(** Modelled from the spec: [CatchNotFound] of [./not-found], the
    handler of not-found signals: a not-found error thrown below it is
    given to [fallback], which renders or throws; anything else
    passes. *)
Definition CatchNotFound (fallback : NotFoundError -> Result) (child : Result)
  : Result :=
  match child with
  | Throws (TError (NotFound e)) => fallback e
  | _ => child
  end.

(** *** [Match] (lines 88-175) *)

Definition resolvePendingComponent (router : Router) (route : Route) : option Comp :=
  match pendingComponent (options route) with
  | Some c => Some c
  | None => defaultPendingComponent (routerOptions router)
  end.

Definition pendingElementOf (PendingComponent : option Comp) : Element :=
  match PendingComponent with
  | Some c => EPending c
  | None => ENull
  end.

(** [a ?? b ?? ErrorComponent], then its truthiness: [None] is
    [false]. *)
Definition resolveErrorComponent (router : Router) (route : Route)
  : option ErrorComp :=
  match errorComponent (options route) with
  | ErrComp c => Some (UserErrorComponent c)
  | ErrFalse => None
  | ErrUnset =>
      match defaultErrorComponent (routerOptions router) with
      | ErrComp c => Some (UserErrorComponent c)
      | ErrFalse => None
      | ErrUnset => Some BuiltinErrorComponent
      end
  end.

Definition resolveNotFoundComponent (router : Router) (route : Route)
  : option Comp :=
  if isRoot route then
    match notFoundComponent (options route) with
    | Some c => Some c
    | None =>
        match notFoundRoute (routerOptions router) with
        | Some r => component (options r)
        | None => None
        end
    end
  else notFoundComponent (options route).

(** The condition of lines 129-134, a chain of [??] read for its
    truthiness. *)
Definition wantsSuspense (router : Router) (route : Route) : bool :=
  match wrapInSuspense (options route) with
  | Some b => b
  | None =>
      match resolvePendingComponent router route with
      | Some _ => true
      | None =>
          match component (options route), errorComponent (options route) with
          | Some c, ErrComp e => preload c || preload e
          | Some c, _ => preload c
          | None, ErrComp e => preload e
          | None, _ => false
          end
      end
  end.

(** Lines 146-174: the boundaries of a match around what [MatchInner]
    gave. *)
Definition MatchBoundaries (router : Router) (route : Route) (matchId : jsstring)
    (inner : Result) : Result :=
  let pendingElement := pendingElementOf (resolvePendingComponent router route) in
  let routeErrorComponent := resolveErrorComponent router route in
  let routeNotFoundComponent := resolveNotFoundComponent router route in
  let ResolvedSuspenseBoundary :=
    if wantsSuspense router route then Suspense pendingElement else SafeFragment in
  let ResolvedCatchBoundary :=
    match routeErrorComponent with
    | Some c =>
        CatchBoundary c (fun error => if isNotFound error then Some error else None)
    | None => SafeFragment
    end in
  let ResolvedNotFoundBoundary :=
    match routeNotFoundComponent with
    | Some c =>
        CatchNotFound
          (fun error =>
             if global error && negb (isRoot route)
             then Throws (TError (NotFound error))
             else Rendered (ENotFound c (data error)))
    | None => SafeFragment
    end in
  match ResolvedSuspenseBoundary
          (ResolvedCatchBoundary (ResolvedNotFoundBoundary inner)) with
  | Rendered e => Rendered (EProvider (Some matchId) e)
  | Throws t => Throws t
  end.

(** [Outlet] (lines 229-245), given how a match is rendered. *)
Definition Outlet (renderMatch : jsstring -> option Result) (s : RouterState)
    (matchId : jsstring) : option Result :=
  match Outlet_select matchId s with
  | Some (c :: childMatchId) => renderMatch (c :: childMatchId)
  | _ => Some (Rendered ENull)
  end.

(** [<Comp />]: a component that has an outlet renders it inside. *)
Definition renderComp (renderMatch : jsstring -> option Result) (s : RouterState)
    (matchId : jsstring) (Comp : Comp) : option Result :=
  if outlet Comp then
    below ← Outlet renderMatch s matchId;
    match below with
    | Rendered e => Some (Rendered (EComponent Comp (Some e)))
    | Throws t => Some (Throws t)
    end
  else Some (Rendered (EComponent Comp None)).

(** [MatchInner] (lines 177-227). *)
Definition MatchInner (renderMatch : jsstring -> option Result) (router : Router)
    (s : RouterState) (matchId : jsstring) (pendingElement : Element)
  : option Result :=
  match MatchInner_select matchId s with
  | (Some routeId, Some (status, error, showPending, loadPromise)) =>
      match status with
      | StatusError => Some (Throws (TError error))
      | StatusPending =>
          if showPending then Some (Rendered pendingElement)
          else Some (Throws (TPromise loadPromise))
      | StatusSuccess =>
          match routesById router !! routeId with
          | None => Some (Throws (TError TypeError))
          | Some route =>
              match component (options route) with
              | Some Comp => renderComp renderMatch s matchId Comp
              | None =>
                  match defaultComponent (routerOptions router) with
                  | Some Comp => renderComp renderMatch s matchId Comp
                  | None => Outlet renderMatch s matchId
                  end
              end
          end
      end
  | _ => Some (Throws (TError TypeError))
  end.

(** [Match].  The fuel bounds the nesting of matches that is
    rendered; [None] reports that it ran out. *)
Fixpoint Match (fuel : nat) (router : Router) (s : RouterState)
    (matchId : jsstring) : option Result :=
  match fuel with
  | O => None
  | S fuel' =>
      match Match_select matchId s with
      | (Some (c :: r), hasGlobalNotFound) =>
          let routeId := c :: r in
          if hasGlobalNotFound && negb (bool_decide (routeId = rootRouteId))
          then Some (Throws (TError (notFound {| global := true; data := None |})))
          else
            match routesById router !! routeId with
            | None => Some (Throws (TError TypeError))
            | Some route =>
                inner ← MatchInner (Match fuel' router s) router s matchId
                          (pendingElementOf (resolvePendingComponent router route));
                Some (MatchBoundaries router route matchId inner)
            end
      | _ => Some (Throws (TError InvariantFailed))
      end
  end.

(** [Matches] (lines 58-82). *)
Definition Matches (fuel : nat) (router : Router) (s : RouterState)
  : option Result :=
  let matchId := Matches_select s in
  child ← match matchId with
          | Some (c :: m) => Match fuel router s (c :: m)
          | _ => Some (Rendered ENull)
          end;
  Some match CatchBoundary BuiltinErrorComponent (fun _ => None) child with
       | Rendered e => Rendered (EProvider matchId e)
       | Throws t => Throws t
       end.

(** Modelled from the spec: the loading of matches, done by [./router],
    which is not among the sources at hand.  The spec has the matches
    loaded from the root to the leaf and, once the path turned out
    unmatched, the root marked and the loading of its descendants
    skipped: the matches whose loaders are run. *)
Definition loadersRun (ms : list RouteMatch) : list RouteMatch :=
  if hasGlobalNotFound ms
  then filter (fun m => routeId m = rootRouteId) ms
  else ms.

(** What a match with status ['success'] renders has an outlet in it:
    the route's component or the default one has one, or there is no
    component and the outlet is rendered directly. *)
Definition rendersOutlet (router : Router) (route : Route) : bool :=
  match component (options route) with
  | Some Comp => outlet Comp
  | None =>
      match defaultComponent (routerOptions router) with
      | Some Comp => outlet Comp
      | None => true
      end
  end.

End WithIds.

End Render.

(** ** [useBlocker]

    The hook keeps two state cells, [resolver] and [promise].  The
    promises made so far are kept in a store, [None] for one that is
    still pending; the functions [proceed] and [reset] of a resolver are
    closures over the [resolve] of one of them. *)

Module Blocker.

Inductive Status :=
| Idle
| Blocked.

Inductive callback :=
| Noop
| Resolve (p : nat) (value : bool).

Record BlockerResolver := {
  status : Status;
  proceed : callback;
  reset : callback
}.

Record Hook := {
  resolver : BlockerResolver;
  promise : nat;
  promises : list (option bool)
}.

(** [resolve(value)]: the first call settles the promise, a later one
    does nothing. *)
Definition settlePromise (p : nat) (value : bool) (ps : list (option bool))
  : list (option bool) :=
  match ps !! p with
  | Some None => <[p := Some value]> ps
  | _ => ps
  end.

Definition call (cb : callback) (h : Hook) : Hook :=
  match cb with
  | Noop => h
  | Resolve p value =>
      {| resolver := resolver h; promise := promise h;
         promises := settlePromise p value (promises h) |}
  end.

(** [createPromise] (lines 47-54): the executor runs at once and sets
    the resolver. *)
Definition createPromise (h : Hook) : Hook * nat :=
  let p := length (promises h) in
  ({| resolver := {| status := Idle; proceed := Resolve p true;
                     reset := Resolve p false |};
      promise := promise h;
      promises := promises h ++ [None] |},
   p).

(** [setPromise(createPromise)]: the state setter is given the function,
    which makes the next value. *)
Definition setPromise_createPromise (h : Hook) : Hook :=
  let '(h, p) := createPromise h in
  {| resolver := resolver h; promise := p; promises := promises h |}.

(** The first render (lines 41-56). *)
Definition mount : Hook :=
  setPromise_createPromise
    {| resolver := {| status := Idle; proceed := Noop; reset := Noop |};
       promise := 0%nat;
       promises := [] |}.

(** [blockerFnComposed] (lines 59-74) up to its [await]: with a
    [blockerFn], whose answer is [answer], that answer is returned;
    without, the resolver becomes blocked and the promise of the hook is
    awaited. *)
Definition blockerFnComposed (blockerFn : option bool) (h : Hook)
  : Hook * (bool + nat) :=
  match blockerFn with
  | Some answer => (h, inl answer)
  | None =>
      ({| resolver := {| status := Blocked; proceed := proceed (resolver h);
                         reset := reset (resolver h) |};
          promise := promise h; promises := promises h |},
       inr (promise h))
  end.

(** The rest of [blockerFnComposed], run once the awaited promise is
    settled: [None] while it is pending. *)
Definition blockerFnResumed (p : nat) (h : Hook) : option (Hook * bool) :=
  match promises h !! p with
  | Some (Some canNavigateAsync) => Some (setPromise_createPromise h, canNavigateAsync)
  | _ => None
  end.

(** The arguments of [useBlocker] (lines 27-40): nothing, a blocker
    function (the deprecated form, with [condition] as second argument)
    or an options object.  A blocker function is given by its answer; a
    condition by its truthiness, [None] when it is [undefined] or
    [null]. *)
Inductive BlockerFnOrOpts :=
| Undefined
| BlockerFn (blockerFn : bool)
| BlockerOpts (blockerFn : option bool) (condition : option bool).

(** Lines 31-39: [blockerFn] and [blockerCondition]. *)
Definition readArguments (blockerFnOrOpts : BlockerFnOrOpts) (condition : option bool)
  : option bool * bool :=
  match blockerFnOrOpts with
  | Undefined => (None, default true condition)
  | BlockerFn blockerFn => (Some blockerFn, default true condition)
  | BlockerOpts blockerFn condition' => (blockerFn, default true condition')
  end.

(** The effect of lines 58-77: the blocker that is handed to
    [history.block], [None] when none is. *)
Definition effect (blockerFnOrOpts : BlockerFnOrOpts) (condition : option bool)
  : option (Hook -> Hook * (bool + nat)) :=
  let '(blockerFn, blockerCondition) := readArguments blockerFnOrOpts condition in
  if negb blockerCondition then None else Some (blockerFnComposed blockerFn).

(** Modelled from the spec: the history backend, whose [block] is not
    among the sources at hand.  A navigation that was held back is
    committed when the blocker approves; a veto leaves the location as it
    was. *)
Definition commitLocation (approved : bool) (next location : jsstring) : jsstring :=
  if approved then next else location.

(** A hook that is waiting for a decision: its resolver settles the
    promise it holds, and that promise is pending. *)
Definition ready (h : Hook) : Prop :=
  proceed (resolver h) = Resolve (promise h) true
  /\ reset (resolver h) = Resolve (promise h) false
  /\ promises h !! promise h = Some None.

End Blocker.

(** ** Sample inputs *)

Module Samples.

Definition config : Config :=
  {| routeFilePrefix := None;
     routeFileIgnorePrefix := str "-";
     routesDirectory := str "./src/routes";
     generatedRouteTree := str "./src/routeTree.gen.ts";
     quoteStyleSingle := true;
     disableTypes := false |}.

(** Stand-ins for the two helpers of [./utils], used to run the model:
    runs of slashes are collapsed, leading slashes are dropped. *)
Fixpoint cleanPath (s : jsstring) : jsstring :=
  match s with
  | [] => []
  | c :: s' =>
      if Ascii.eqb c "/"%char && JS.startsWith s' (str "/")
      then cleanPath s' else c :: cleanPath s'
  end.

Fixpoint dropSlashes (s : jsstring) : jsstring :=
  match s with
  | c :: s' => if Ascii.eqb c "/"%char then dropSlashes s' else s
  | [] => []
  end.

Definition trimPathLeft (s : jsstring) : jsstring :=
  if bool_decide (s = str "/") then s else dropSlashes s.

(** The routes directory of the scenario: [route.tsx], [index.tsx] and
    [$id/route.tsx]. *)
Definition scenario : list Dirent :=
  [File (str "route.tsx"); File (str "index.tsx");
   Directory (str "$id") [File (str "route.tsx")]].

(** A route file with a second file beside it in its directory. *)
Definition nested : list Dirent :=
  [Directory (str "$id") [File (str "route.tsx"); File (str "edit.tsx")]].

(** A directory with a route and pieces of a route that has no file of
    its own. *)
Definition posts : list Dirent :=
  [File (str "posts.tsx"); File (str "posts.$id.component.tsx");
   File (str "posts.$id.loader.ts")].

Import Render.

Definition rootRouteId : jsstring := str "__root__".
Definition throwGlobalNotFoundRouteId : jsstring := str "__notFound__".

Definition NotFoundPage : Comp :=
  {| compName := str "NotFoundPage"; preload := false; outlet := false |}.

Definition plainOptions (e : ErrorOption) (notFound : option Comp) : RouteOptions :=
  {| component := None; pendingComponent := None; errorComponent := e;
     notFoundComponent := notFound; wrapInSuspense := None |}.

Definition rootRoute : Route :=
  {| options := plainOptions ErrUnset (Some NotFoundPage); isRoot := true |}.

Definition postsRoute (e : ErrorOption) : Route :=
  {| options := plainOptions e None; isRoot := false |}.

(** A router whose [/posts] route has the error-component option [e]. *)
Definition router (e : ErrorOption) : Router :=
  {| routesById :=
       <[rootRouteId := rootRoute]> (<[str "/posts" := postsRoute e]> ∅);
     routerOptions :=
       {| defaultComponent := None; defaultPendingComponent := None;
          defaultErrorComponent := ErrUnset; notFoundRoute := None |} |}.

Definition rootMatch : RouteMatch :=
  {| id := str "__root__"; routeId := rootRouteId; pathname := str "/";
     status := StatusSuccess; showPending := false; error := TypeError;
     loadPromise := 0%nat |}.

(** The match of [/posts] whose loader failed with [boom]. *)
Definition postsMatch : RouteMatch :=
  {| id := str "/posts"; routeId := str "/posts"; pathname := str "/posts";
     status := StatusError; showPending := false;
     error := OtherError (str "boom"); loadPromise := 1%nat |}.

Definition unmatchedMatch : RouteMatch :=
  {| id := str "/nowhere"; routeId := throwGlobalNotFoundRouteId;
     pathname := str "/nowhere"; status := StatusSuccess; showPending := false;
     error := TypeError; loadPromise := 2%nat |}.

Definition failing : RouterState :=
  {| matches := [rootMatch; postsMatch]; pendingMatches := None;
     cachedMatches := [] |}.

Definition unmatched : RouterState :=
  {| matches := [rootMatch; unmatchedMatch]; pendingMatches := None;
     cachedMatches := [] |}.

(** A navigation to [/posts] under way, its pending match shown. *)
Definition pendingPostsMatch : RouteMatch :=
  {| id := str "/posts"; routeId := str "/posts"; pathname := str "/posts";
     status := StatusPending; showPending := true; error := TypeError;
     loadPromise := 3%nat |}.

Definition navigating : RouterState :=
  {| matches := [rootMatch];
     pendingMatches := Some [rootMatch; pendingPostsMatch];
     cachedMatches := [] |}.

Definition navigated : RouterState :=
  {| matches := [rootMatch; pendingPostsMatch]; pendingMatches := None;
     cachedMatches := [rootMatch] |}.

End Samples.

(** * Part II: the properties

    ** [multiSortBy] *)

(** ** Order of the compared values *)

Lemma str_gt_irrefl a : str_gt a a = false.
Proof.
  induction a as [|x a IH]; simpl; [done|].
  rewrite Nat.ltb_irrefl, Ascii.eqb_refl. exact IH.
Qed.

Lemma nat_of_ascii_inj x y : nat_of_ascii x = nat_of_ascii y -> x = y.
Proof.
  intros H. rewrite <- (ascii_nat_embedding x), <- (ascii_nat_embedding y).
  by rewrite H.
Qed.

Lemma str_gt_cons x a y b :
  str_gt (x :: a) (y :: b) = true <->
  (nat_of_ascii y < nat_of_ascii x)%nat \/ (x = y /\ str_gt a b = true).
Proof.
  simpl. destruct (Nat.ltb_spec (nat_of_ascii y) (nat_of_ascii x)) as [Hlt|Hge].
  - split; auto.
  - destruct (Ascii.eqb_spec x y) as [->|Hne].
    + split; [auto|]. intros [?|[_ ?]]; [lia|done].
    + split; [done|]. intros [?|[? _]]; [lia|done].
Qed.

Lemma str_gt_trans a b c :
  str_gt a b = true -> str_gt b c = true -> str_gt a c = true.
Proof.
  revert b c. induction a as [|x a IH]; intros [|y b] [|z c]; try done.
  rewrite !str_gt_cons. intros [H1|[-> H1]] [H2|[-> H2]].
  - left. lia.
  - left. lia.
  - left. lia.
  - right. split; [done|]. eauto.
Qed.

Lemma str_gt_total a b : a <> b -> str_gt a b = true \/ str_gt b a = true.
Proof.
  revert b. induction a as [|x a IH]; intros [|y b] Hne; try done; auto.
  rewrite !str_gt_cons.
  destruct (Nat.lt_trichotomy (nat_of_ascii x) (nat_of_ascii y)) as [H|[H|H]]; auto.
  apply nat_of_ascii_inj in H. subst y.
  destruct (IH b) as [?|?]; [congruence|auto..].
Qed.

Lemma str_gt_asym a b : str_gt a b = true -> str_gt b a = false.
Proof.
  intros H. destruct (str_gt b a) eqn:E; [|done].
  pose proof (str_gt_trans _ _ _ H E) as Habs.
  by rewrite str_gt_irrefl in Habs.
Qed.

Lemma jsval_eqb_eq a b : jsval_eqb a b = true <-> a = b.
Proof.
  destruct a as [m|s|r], b as [n|t|r']; simpl; try (split; congruence).
  - rewrite Z.eqb_eq. split; congruence.
  - rewrite bool_decide_eq_true. split; congruence.
  - rewrite bool_decide_eq_true. split; congruence.
Qed.

Lemma jsval_gtb_trans a b c :
  jsval_gtb a b = true -> jsval_gtb b c = true -> jsval_gtb a c = true.
Proof.
  unfold jsval_gtb.
  destruct (toPrimitive a), (toPrimitive b), (toPrimitive c); try done.
  - rewrite !Z.ltb_lt. lia.
  - apply str_gt_trans.
Qed.

Lemma jsval_gtb_irrefl a : jsval_gtb a a = false.
Proof.
  unfold jsval_gtb.
  destruct (toPrimitive a); [apply Z.ltb_irrefl | apply str_gt_irrefl | done].
Qed.

Lemma jsval_gtb_asym a b : jsval_gtb a b = true -> jsval_gtb b a = false.
Proof.
  intros H. destruct (jsval_gtb b a) eqn:E; [|done].
  pose proof (jsval_gtb_trans _ _ _ H E) as Habs.
  by rewrite jsval_gtb_irrefl in Habs.
Qed.

Lemma jsval_gtb_total a b :
  sameKind a b -> a <> b -> jsval_gtb a b = true \/ jsval_gtb b a = true.
Proof.
  destruct a as [m|s|r], b as [n|t|r']; simpl; try done; intros _ Hne.
  - unfold jsval_gtb. simpl. rewrite !Z.ltb_lt. assert (m <> n) by congruence. lia.
  - unfold jsval_gtb. simpl. apply str_gt_total. congruence.
Qed.

(** The three outcomes of comparing two values of one kind. *)
Lemma jsval_compare_cases a b :
  sameKind a b ->
  (a = b /\ jsval_eqb a b = true)
  \/ (jsval_eqb a b = false /\ jsval_gtb a b = true /\ jsval_gtb b a = false)
  \/ (jsval_eqb a b = false /\ jsval_gtb a b = false /\ jsval_gtb b a = true).
Proof.
  intros Hk. destruct (jsval_eqb a b) eqn:E.
  - left. split; [by apply jsval_eqb_eq|done].
  - right. assert (a <> b) as Hne.
    { intros ->. assert (jsval_eqb b b = true) by by apply jsval_eqb_eq. congruence. }
    destruct (jsval_gtb_total a b Hk Hne) as [H|H].
    + left. eauto using jsval_gtb_asym.
    + right. eauto using jsval_gtb_asym.
Qed.

Lemma sameKind_sym a b : sameKind a b -> sameKind b a.
Proof. by destruct a, b. Qed.

Ltac gt_contra :=
  exfalso; subst;
  repeat match goal with
    | H : jsval_gtb ?u ?u = true |- _ =>
        rewrite jsval_gtb_irrefl in H; discriminate
    | H1 : jsval_gtb ?u ?v = true, H2 : jsval_gtb ?v ?u = true |- _ =>
        rewrite (jsval_gtb_asym _ _ H1) in H2; discriminate
    | H1 : jsval_gtb ?u ?v = true, H2 : jsval_gtb ?v ?w = true |- _ =>
        lazymatch goal with
        | _ : jsval_gtb u w = true |- _ => fail
        | _ => pose proof (jsval_gtb_trans _ _ _ H1 H2)
        end
    end.

(** ** The comparator on entries whose accessor values are comparable *)

Section Comparator.
Context {T : Type}.
Implicit Types (x y z : T * nat) (accessors : list (accessor T)).

Lemma compareEntries_flip accessors x y :
  0 < compareEntries accessors x y -> compareEntries accessors y x <= 0.
Proof.
  induction accessors as [|f fs IH]; simpl; [lia|].
  destruct (f x.1) as [a|] eqn:Ea, (f y.1) as [b|] eqn:Eb; simpl; try lia; auto.
  destruct (jsval_eqb a b) eqn:E.
  - apply jsval_eqb_eq in E as ->.
    assert (jsval_eqb b b = true) as -> by by apply jsval_eqb_eq. done.
  - destruct (jsval_gtb a b) eqn:G; [|lia]. intros _.
    assert (jsval_eqb b a = false) as ->.
    { destruct (jsval_eqb b a) eqn:E'; [|done].
      apply jsval_eqb_eq in E' as ->.
      assert (jsval_eqb a a = true) by by apply jsval_eqb_eq. congruence. }
    rewrite (jsval_gtb_asym _ _ G). lia.
Qed.

Lemma compareEntries_trans accessors x y z :
  agree accessors x.1 y.1 -> agree accessors y.1 z.1 -> agree accessors x.1 z.1 ->
  compareEntries accessors x y <= 0 -> compareEntries accessors y z <= 0 ->
  compareEntries accessors x z <= 0.
Proof.
  induction accessors as [|f fs IH]; simpl; [lia|].
  intros Hxy Hyz Hxz.
  apply Forall_cons in Hxy as [Kxy Hxy], Hyz as [Kyz Hyz], Hxz as [Kxz Hxz].
  destruct (f x.1) as [a|] eqn:Ea, (f y.1) as [b|] eqn:Eb, (f z.1) as [c|] eqn:Ec;
    simpl; try lia; auto.
  destruct (jsval_compare_cases a b) as [[Hab Eab]|[(Eab & Gab & Gba)|(Eab & Gab & Gba)]];
      [by eauto|..];
    destruct (jsval_compare_cases b c) as [[Hbc Ebc]|[(Ebc & Gbc & Gcb)|(Ebc & Gbc & Gcb)]];
      try (by eauto);
    destruct (jsval_compare_cases a c) as [[Hac Eac]|[(Eac & Gac & Gca)|(Eac & Gac & Gca)]];
      try (by eauto);
    rewrite ?Eab, ?Gab, ?Ebc, ?Gbc, ?Eac, ?Gac; try lia; auto;
    gt_contra.
Qed.

(** When every accessor gives two items the same value, the indices
    decide. *)
Lemma compareEntries_tie accessors x y :
  (forall f, f ∈ accessors -> f x.1 = f y.1) ->
  compareEntries accessors x y = Z.of_nat x.2 - Z.of_nat y.2.
Proof.
  induction accessors as [|f fs IH]; simpl; [done|]. intros H.
  rewrite <- (H f) by left. destruct (f x.1) as [a|]; simpl.
  - assert (jsval_eqb a a = true) as -> by by apply jsval_eqb_eq.
    apply IH. intros g Hg. apply H. by right.
  - apply IH. intros g Hg. apply H. by right.
Qed.

(** The first accessor that tells two items apart decides. *)
Lemma compareEntries_first (pre : list (accessor T)) (f : accessor T)
    (post : list (accessor T)) x y :
  (forall g, g ∈ pre -> g x.1 = g y.1) -> f x.1 <> f y.1 ->
  compareEntries (pre ++ f :: post) x y =
    if isUndefined (f x.1) then 1
    else if greaterThan (f x.1) (f y.1) then 1 else -1.
Proof.
  induction pre as [|g pre IH]; simpl; intros H Hne.
  - destruct (f x.1) as [a|], (f y.1) as [b|]; simpl; try done.
    destruct (jsval_eqb a b) eqn:E; [|done].
    apply jsval_eqb_eq in E. congruence.
  - rewrite <- (H g) by left. destruct (g x.1) as [a|]; simpl.
    + assert (jsval_eqb a a = true) as -> by by apply jsval_eqb_eq.
      apply IH; [|done]. intros h Hh. apply H. by right.
    + apply IH; [|done]. intros h Hh. apply H. by right.
Qed.

End Comparator.

(** ** Insertion keeps the entries and sorts them *)

Section Sorting.
Context {T : Type}.
Implicit Types (x y : T * nat) (l : list (T * nat)) (accessors : list (accessor T)).

Lemma sortInsert_Permutation (cmp : T * nat -> T * nat -> Z) x l :
  sortInsert cmp x l ≡ₚ x :: l.
Proof.
  induction l as [|y l IH]; simpl; [done|].
  destruct (cmp x y <=? 0); [done|]. rewrite IH. apply Permutation_swap.
Qed.

Lemma arraySort_Permutation (cmp : T * nat -> T * nat -> Z) l :
  arraySort cmp l ≡ₚ l.
Proof.
  induction l as [|x l IH]; simpl; [done|].
  unfold arraySort in *. simpl. by rewrite sortInsert_Permutation, IH.
Qed.

(** Sortedness needs the comparator to be an order on the entries at
    hand only. *)
Lemma sortInsert_sorted accessors (P : T * nat -> Prop) x l :
  (forall a b c, P a -> P b -> P c ->
     compareEntries accessors a b <= 0 -> compareEntries accessors b c <= 0 ->
     compareEntries accessors a c <= 0) ->
  P x -> Forall P l ->
  StronglySorted (fun a b => compareEntries accessors a b <= 0) l ->
  StronglySorted (fun a b => compareEntries accessors a b <= 0)
    (sortInsert (compareEntries accessors) x l).
Proof.
  intros Htrans Hx. induction l as [|y l IH]; simpl; intros HP Hs.
  - repeat constructor.
  - apply Forall_cons in HP as [Hy HP].
    apply StronglySorted_inv in Hs as [Hs Hall].
    destruct (Z.leb_spec (compareEntries accessors x y) 0) as [Hle|Hgt].
    + constructor; [by constructor|].
      constructor; [done|].
      rewrite Forall_forall in Hall, HP. apply Forall_forall. intros z Hz.
      eapply (Htrans x y z); eauto.
    + constructor; [by apply IH|].
      apply Forall_forall. intros z Hz.
      rewrite sortInsert_Permutation in Hz.
      apply elem_of_cons in Hz as [->|Hz].
      * apply compareEntries_flip. lia.
      * rewrite Forall_forall in Hall. by apply Hall.
Qed.

Lemma arraySort_sorted accessors (P : T * nat -> Prop) l :
  (forall a b c, P a -> P b -> P c ->
     compareEntries accessors a b <= 0 -> compareEntries accessors b c <= 0 ->
     compareEntries accessors a c <= 0) ->
  Forall P l ->
  StronglySorted (fun a b => compareEntries accessors a b <= 0)
    (arraySort (compareEntries accessors) l).
Proof.
  intros Htrans. induction l as [|x l IH]; intros HP.
  - constructor.
  - apply Forall_cons in HP as [Hx HP]. unfold arraySort in *. simpl.
    apply (sortInsert_sorted accessors P); auto.
    eapply Forall_forall. intros z Hz.
    fold (arraySort (compareEntries accessors) l) in Hz.
    rewrite arraySort_Permutation in Hz.
    rewrite Forall_forall in HP. by apply HP.
Qed.

Lemma StronglySorted_lookup_lt {A} (R : A -> A -> Prop) (l : list A) p q a b :
  StronglySorted R l -> (p < q)%nat -> l !! p = Some a -> l !! q = Some b -> R a b.
Proof.
  intros Hs. revert p q. induction Hs as [|c l Hs IH Hall]; intros p q Hpq Ha Hb.
  - done.
  - destruct q as [|q]; [lia|]. simpl in Hb. destruct p as [|p]; simpl in Ha.
    + injection Ha as ->. rewrite Forall_forall in Hall. apply Hall.
      eapply list_elem_of_lookup_2. eauto.
    + eapply IH; [|eauto..]. lia.
Qed.

Lemma elem_of_withIndex (arr : list T) d i :
  (d, i) ∈ withIndex arr <-> arr !! i = Some d.
Proof.
  unfold withIndex. rewrite elem_of_lookup_imap. split.
  - intros (j & y & [= -> ->] & H). done.
  - intros H. eauto.
Qed.

Lemma withIndex_fst (arr : list T) : (withIndex arr).*1 = arr.
Proof.
  unfold withIndex. apply list_eq. intros i.
  rewrite list_lookup_fmap, list_lookup_imap. by destruct (arr !! i).
Qed.

Lemma withIndex_snd (arr : list T) : (withIndex arr).*2 = seq 0 (length arr).
Proof.
  unfold withIndex. apply list_eq. intros i.
  rewrite list_lookup_fmap, list_lookup_imap.
  destruct (arr !! i) eqn:E; simpl.
  - symmetry. apply lookup_seq. split; [done|]. eapply lookup_lt_Some. eauto.
  - symmetry. apply lookup_seq_ge. by apply lookup_ge_None.
Qed.

End Sorting.

Lemma comparable_agree {T} (arr : list T) (accessors : list (accessor T)) a b :
  Forall (comparable arr) accessors -> a ∈ arr -> b ∈ arr -> agree accessors a b.
Proof.
  intros H Ha Hb. unfold agree. eapply Forall_impl; [exact H|].
  intros f Hf va vb Ea Eb. exact (Hf a b va vb Ha Hb Ea Eb).
Qed.




(** ** The route tree *)

(** ** Strings: splitting, joining, replacing *)

Module StringFacts.

Lemma split_nonempty sep s : JS.split sep s <> [].
Proof.
  destruct s as [|c s]; simpl; [done|].
  destruct (Ascii.eqb c sep); [done|]. by destruct (JS.split sep s).
Qed.

Lemma join_cons sep x l :
  l <> [] -> JS.join sep (x :: l) = x ++ sep ++ JS.join sep l.
Proof. by destruct l. Qed.

Lemma join_split sep s : JS.join [sep] (JS.split sep s) = s.
Proof.
  induction s as [|c s IH]; simpl; [done|].
  destruct (Ascii.eqb_spec c sep) as [->|Hne].
  - rewrite join_cons by apply split_nonempty. by rewrite IH.
  - pose proof (split_nonempty sep s) as Hs.
    destruct (JS.split sep s) as [|seg rest]; [done|].
    destruct rest as [|y rest]; simpl in *.
    + by rewrite IH.
    + by rewrite <- IH.
Qed.

Lemma join_snoc sep l x :
  l <> [] -> JS.join sep (l ++ [x]) = JS.join sep l ++ sep ++ x.
Proof.
  induction l as [|y l IH]; [done|]. intros _.
  destruct l as [|z l]; [done|].
  change ((y :: z :: l) ++ [x]) with (y :: ((z :: l) ++ [x])).
  rewrite join_cons by (simpl; discriminate).
  rewrite IH by done. rewrite (join_cons sep y (z :: l)) by done.
  by rewrite <- !app_assoc.
Qed.

(** Dropping the last segment of a path: nothing is left, or the path
    is what is left, a slash and the last segment. *)
Lemma parent_path sep s :
  let parentPath := JS.join [sep] (JS.pop (JS.split sep s)) in
  parentPath = [] \/ exists seg, s = parentPath ++ [sep] ++ seg.
Proof.
  intros parentPath. unfold parentPath, JS.pop.
  pose proof (split_nonempty sep s) as Hne.
  destruct (JS.split sep s) as [|x l] eqn:E using rev_ind; [done|].
  clear IHl. rewrite removelast_last.
  destruct l as [|y l]; [by left|]. right. exists x.
  rewrite <- (join_split sep s) at 1. rewrite E. by apply join_snoc.
Qed.

Lemma startsWith_prefix s p : JS.startsWith s p = true <-> p `prefix_of` s.
Proof. unfold JS.startsWith. apply bool_decide_eq_true. Qed.

(** [s.replace(p, '')] removes [p] from the front of [s] when [s] starts
    with [p]. *)
Lemma replaceFirst_prefix p s :
  p `prefix_of` s -> JS.replaceFirst p [] s = drop (length p) s.
Proof.
  intros H. destruct s; simpl; by rewrite (proj2 (startsWith_prefix _ p) H).
Qed.

End StringFacts.

(** ** [hasParentRoute] *)

Module ParentFacts.

Lemma elem_of_multiSortBy {T} (arr : list T) accessors x :
  x ∈ multiSortBy arr accessors <-> x ∈ arr.
Proof.
  unfold multiSortBy, sortedEntries.
  rewrite (arraySort_Permutation (compareEntries accessors) (withIndex arr)).
  by rewrite withIndex_fst.
Qed.

Lemma elem_of_parentCandidates routes d :
  d ∈ parentCandidates routes -> d ∈ routes.
Proof.
  unfold parentCandidates. rewrite list_elem_of_filter, elem_of_multiSortBy. tauto.
Qed.

(** The route that [hasParentRoute] returns is one of the routes it was
    given, and its path followed by a slash starts the path that was
    checked. *)
Lemma hasParentRoute_go_found fuel routes p r :
  hasParentRoute_go fuel routes p = Some (Some r) ->
  exists node,
    (r, node) ∈ routes
    /\ routePath node <> str "/"
    /\ (routePath node ++ str "/") `prefix_of` p
    /\ routePath node <> p.
Proof.
  revert p. induction fuel as [|fuel IH]; intros p; simpl; [done|].
  destruct (_ || _); [done|].
  destruct (List.find (isParentOf p) (parentCandidates routes)) as [route|] eqn:E.
  - intros [= <-]. apply find_some in E as [Hin Hp].
    unfold isParentOf in Hp. apply andb_true_iff in Hp as [Hp Hne].
    apply andb_true_iff in Hp as [Hslash Hp].
    apply StringFacts.startsWith_prefix in Hp.
    apply negb_true_iff, bool_decide_eq_false in Hne.
    apply negb_true_iff, bool_decide_eq_false in Hslash.
    exists route.2. split; [|done].
    apply elem_of_parentCandidates. apply list_elem_of_In in Hin. by destruct route.
  - intros H. apply IH in H as (node & Hin & Hslash & Hpre & Hne).
    destruct (StringFacts.parent_path "/"%char p) as [Hnil|[seg Hseg]].
    + change [("/")%char] with (str "/") in Hnil. rewrite Hnil in Hpre.
      apply prefix_nil_inv in Hpre. by destruct (routePath node).
    + change [("/")%char] with (str "/") in Hseg.
      set (p' := JS.join (str "/") (JS.pop (JS.split "/" p))) in *.
      exists node. split; [done|]. split; [done|]. split.
      * rewrite Hseg. by apply prefix_app_r.
      * intros Heq. apply prefix_length in Hpre.
        rewrite length_app in Hpre. apply (f_equal length) in Hseg, Heq.
        rewrite !length_app in Hseg.
        change (length (str "/")) with 1%nat in *. lia.
Qed.

(** One unit of fuel more than the path is long is enough. *)
Lemma hasParentRoute_go_fuel fuel routes p :
  (length p < fuel)%nat -> is_Some (hasParentRoute_go fuel routes p).
Proof.
  revert p. induction fuel as [|fuel IH]; intros p Hlen; [lia|]. simpl.
  destruct (_ || _) eqn:Hroot; [done|].
  destruct (List.find _ _); [done|]. apply IH.
  destruct (StringFacts.parent_path "/"%char p) as [Hnil|[seg Hseg]].
  - change [("/")%char] with (str "/") in Hnil. rewrite Hnil. simpl.
    apply orb_false_iff in Hroot as [Hp _]. apply bool_decide_eq_false in Hp.
    destruct p; [done|]. simpl in Hlen. lia.
  - change [("/")%char] with (str "/") in Hseg.
    apply (f_equal length) in Hseg. rewrite !length_app in Hseg.
    change (length (str "/")) with 1%nat in *. lia.
Qed.

Lemma hasParentRoute_total routes p : is_Some (hasParentRoute routes p).
Proof. apply hasParentRoute_go_fuel. lia. Qed.

Lemma hasParentRoute_found routes p r :
  hasParentRoute routes p = Some (Some r) ->
  exists node,
    (r, node) ∈ routes
    /\ routePath node <> str "/"
    /\ (routePath node ++ str "/") `prefix_of` p
    /\ routePath node <> p.
Proof. apply hasParentRoute_go_found. Qed.

Lemma elem_of_deref h refs r node :
  (r, node) ∈ deref h refs <-> r ∈ refs /\ h !! r = Some node.
Proof.
  unfold deref. rewrite list_elem_of_omap. split.
  - intros (r' & Hr' & H). destruct (h !! r') as [n|] eqn:E; [|done].
    simpl in H. by injection H as -> ->.
  - intros [Hr H]. exists r. split; [done|]. by rewrite H.
Qed.

End ParentFacts.

(** ** The store while the tree is built *)

Module TreeFacts.

Lemma extends_refl h : extends h h.
Proof. intros q qn H. eauto. Qed.

Lemma extends_insert h r n n' :
  h !! r = Some n -> routePath n' = routePath n -> extends h (<[r := n']> h).
Proof.
  intros Hr Hp q qn Hq. destruct (decide (r = q)) as [->|Hne].
  - rewrite list_lookup_insert_eq by (by eapply lookup_lt_Some).
    exists n'. split; [done|]. congruence.
  - rewrite list_lookup_insert_ne by done. eauto.
Qed.

Lemma extends_alter h (f : RouteNode -> RouteNode) r :
  (forall n, routePath (f n) = routePath n) -> extends h (alter f r h).
Proof.
  intros Hf q qn Hq. destruct (decide (r = q)) as [->|Hne].
  - rewrite list_lookup_alter_eq, Hq. simpl. eauto.
  - rewrite list_lookup_alter_ne by done. eauto.
Qed.

Lemma extends_app h l : extends h (h ++ l).
Proof. intros q qn Hq. exists qn. split; [|done]. by apply lookup_app_l_Some. Qed.

Lemma childOf_extends h h' n p : childOf h n p -> extends h h' -> childOf h' n p.
Proof.
  intros (pn & Hp & H0 & H1 & H2 & H3) He. destruct (He p pn Hp) as (pn' & Hp' & E).
  exists pn'. rewrite E. done.
Qed.

(** The same for a node whose own fields were rewritten but for its
    paths. *)
Lemma childOf_same h n n' p :
  childOf h n p -> routePath n' = routePath n -> path n' = path n -> childOf h n' p.
Proof.
  intros (pn & Hp & H0 & H1 & H2 & H3) E1 E2. exists pn. rewrite E1, E2. done.
Qed.

Lemma orElse_drop pp rp :
  (pp ++ str "/") `prefix_of` rp ->
  JS.orElse (drop (length pp) rp) (str "/") = drop (length pp) rp.
Proof.
  intros [k ->]. rewrite <- app_assoc, drop_app_length. done.
Qed.

Lemma prefix_slash pp rp : (pp ++ str "/") `prefix_of` rp -> pp `prefix_of` rp.
Proof. intros [k ->]. rewrite <- app_assoc. by apply prefix_app_r. Qed.

Section WithTrim.
Context (trimPathLeft : jsstring -> jsstring).

(** [prepareNode] succeeds on every object of the store and rewrites
    that object only. *)
Lemma prepareNode_spec pre st r n :
  TreeInv pre st -> heap st !! r = Some n ->
  exists n1,
    prepareNode trimPathLeft st r = Some (setHeap (<[r := n1]> (heap st)) st)
    /\ fileOf n1 = fileOf n /\ children n1 = children n
    /\ is_Some (path n1)
    /\ (forall p, parent n1 = Some p -> p ∈ routeNodes st /\ childOf (heap st) n1 p)
    /\ (parent n1 = None -> path n1 = Some (routePath n1)).
Proof.
  intros HI Hn. unfold prepareNode. rewrite Hn. cbn [mbind option_bind].
  destruct (ParentFacts.hasParentRoute_total
              (deref (heap st) (routeNodes st)) (routePath n)) as [pr Hpr].
  rewrite Hpr. cbn [mbind option_bind].
  destruct pr as [p|].
  - apply ParentFacts.hasParentRoute_found in Hpr as (pn & Hin & Hslash & Hpre & Hne).
    apply ParentFacts.elem_of_deref in Hin as [Hp Hpn].
    cbn [parent routePath withParent]. rewrite Hpn. cbn [mbind option_bind].
    rewrite (StringFacts.replaceFirst_prefix _ _ (prefix_slash _ _ Hpre)).
    rewrite (orElse_drop _ _ Hpre).
    eexists. split; [reflexivity|]. cbn.
    split; [done|]. split; [done|]. split; [by eexists|]. split; [|done].
    intros p' [= <-]. split; [done|]. exists pn. by repeat split.
  - destruct (parent n) as [p|] eqn:Hparent.
    + destruct (tree_parent _ _ HI r n p Hn Hparent)
        as [Hp (pn & Hpn & Hslash & Hpre & Hne & Hpath)].
      rewrite Hpn. cbn [mbind option_bind].
      rewrite (StringFacts.replaceFirst_prefix _ _ (prefix_slash _ _ Hpre)).
      rewrite (orElse_drop _ _ Hpre).
      eexists. split; [reflexivity|]. cbn.
      split; [done|]. split; [done|]. split; [by eexists|]. rewrite Hparent.
      split; [|done].
      intros p' [= <-]. split; [done|]. exists pn. by repeat split.
    + cbn [mbind option_bind].
      eexists. split; [reflexivity|]. cbn.
      split; [done|]. split; [done|]. split; [by eexists|]. by rewrite Hparent.
Qed.

Lemma piece_flags n n' :
  fileOf n' = fileOf n ->
  negb (isVirtual n') && isPiece n' = negb (isVirtual n) && isPiece n.
Proof. unfold fileOf, isPiece. intros [= _ _ _ _ _ -> -> -> -> -> ->]. done. Qed.

Lemma fileOf_routePath n n' : fileOf n' = fileOf n -> routePath n' = routePath n.
Proof. unfold fileOf. by intros [= _ _ _ -> _]. Qed.

Lemma TreeInv_initial pre : Forall fresh pre -> TreeInv pre (initialBuild pre).
Proof.
  intros Hf. rewrite Forall_forall in Hf. split; simpl.
  - eauto.
  - intros r n p Hn Hp. apply list_elem_of_lookup_2 in Hn.
    destruct (Hf n Hn) as (? & _). congruence.
  - intros r n Hn _. apply list_elem_of_lookup_2 in Hn.
    destruct (Hf n Hn) as (_ & ? & _). by left.
  - intros r Hr. by apply elem_of_nil in Hr.
  - intros r Hr. by apply elem_of_nil in Hr.
  - intros q qn c Hq Hc. apply list_elem_of_lookup_2 in Hq.
    destruct (Hf qn Hq) as (_ & _ & E). rewrite E in Hc. by apply elem_of_nil in Hc.
Qed.

(** Rewriting the object at [r] with what [prepareNode] found. *)
Lemma TreeInv_prepared pre st r n n1 :
  TreeInv pre st -> heap st !! r = Some n ->
  fileOf n1 = fileOf n -> children n1 = children n -> is_Some (path n1) ->
  (forall p, parent n1 = Some p -> p ∈ routeNodes st /\ childOf (heap st) n1 p) ->
  (parent n1 = None -> path n1 = Some (routePath n1)) ->
  TreeInv pre (setHeap (<[r := n1]> (heap st)) st).
Proof.
  intros [Hsc Hpa Hor Hno Hto Hch] Hn Hfile Hchild Hpath Hpar Horph.
  assert (extends (heap st) (<[r := n1]> (heap st))) as Hext
    by (eapply extends_insert; eauto using fileOf_routePath).
  assert (r < length (heap st))%nat as Hlen by by eapply lookup_lt_Some.
  assert (forall q qn, <[r := n1]> (heap st) !! q = Some qn ->
            (q = r /\ qn = n1) \/ (q <> r /\ heap st !! q = Some qn)) as Hlook.
  { intros q qn Hq. destruct (decide (r = q)) as [->|Hne].
    - rewrite list_lookup_insert_eq in Hq by done. left. split; congruence.
    - rewrite list_lookup_insert_ne in Hq by done. right. by split. }
  split; simpl.
  - intros k m Hk. destruct (Hsc k m Hk) as (m' & Hm' & E).
    destruct (decide (r = k)) as [->|Hne].
    + rewrite list_lookup_insert_eq by done. exists n1. split; [done|]. congruence.
    + rewrite list_lookup_insert_ne by done. eauto.
  - intros q qn p Hq Hp. destruct (Hlook q qn Hq) as [[-> ->]|[_ Hq']].
    + destruct (Hpar p Hp). eauto using childOf_extends.
    + destruct (Hpa q qn p Hq' Hp). eauto using childOf_extends.
  - intros q qn Hq Hp. destruct (Hlook q qn Hq) as [[-> ->]|[_ Hq']]; eauto.
  - intros q Hq. destruct (Hno q Hq) as (m & Hm & Hp & Hfl).
    destruct (decide (r = q)) as [->|Hne].
    + rewrite list_lookup_insert_eq by done. exists n1. split; [done|]. split; [done|].
      rewrite (piece_flags n n1 Hfile). congruence.
    + rewrite list_lookup_insert_ne by done. eauto.
  - done.
  - intros q qn c Hq Hc. destruct (Hlook q qn Hq) as [[-> ->]|[_ Hq']].
    + rewrite Hchild in Hc. eauto.
    + eauto.
Qed.

Lemma lookup_alter_pushChild (h : list RouteNode) (p c q : nat) qn :
  alter (pushChild c) p h !! q = Some qn ->
  exists qn', h !! q = Some qn'
    /\ fileOf qn = fileOf qn' /\ parent qn = parent qn' /\ path qn = path qn'
    /\ (children qn = children qn' \/ (q = p /\ children qn = children qn' ++ [c])).
Proof.
  intros Hq. destruct (decide (p = q)) as [->|Hne].
  - rewrite list_lookup_alter_eq in Hq. destruct (h !! q) as [qn'|]; [|done].
    injection Hq as <-. exists qn'. repeat split; auto.
  - rewrite list_lookup_alter_ne in Hq by done. exists qn. repeat split; auto.
Qed.

(** The node at [r] enters the tree and the flat list. *)
Lemma TreeInv_insert pre st r n :
  TreeInv pre st -> heap st !! r = Some n -> is_Some (path n) ->
  negb (isVirtual n) && isPiece n = false ->
  TreeInv pre (insertNode st r n).
Proof.
  intros [Hsc Hpa Hor Hno Hto Hch] Hn Hpath Hfl. unfold insertNode.
  destruct (parent n) as [p|] eqn:Hp.
  - assert (extends (heap st) (alter (pushChild r) p (heap st))) as Hext
      by by apply extends_alter.
    split; simpl.
    + intros k m Hk. destruct (Hsc k m Hk) as (m' & Hm' & E).
      destruct (decide (p = k)) as [->|Hne].
      * rewrite list_lookup_alter_eq, Hm'. simpl. eauto.
      * rewrite list_lookup_alter_ne by done. eauto.
    + intros q qn p' Hq Hp'.
      apply lookup_alter_pushChild in Hq as (qn' & Hq & Hf & Hpar & Hpth & _).
      rewrite Hpar in Hp'. destruct (Hpa q qn' p' Hq Hp') as [Hin Hc].
      split; [apply elem_of_app; by left|].
      apply (childOf_extends (heap st)); [|done].
      apply (childOf_same _ qn'); [done|by eapply fileOf_routePath|done].
    + intros q qn Hq Hp'.
      apply lookup_alter_pushChild in Hq as (qn' & Hq & Hf & Hpar & Hpth & _).
      rewrite Hpar in Hp'. rewrite Hpth, (fileOf_routePath _ _ Hf). eauto.
    + intros q Hq. apply elem_of_app in Hq as [Hq|Hq].
      * destruct (Hno q Hq) as (m & Hm & Hpm & Hfm).
        destruct (decide (p = q)) as [->|Hne].
        -- rewrite list_lookup_alter_eq, Hm. simpl. eauto.
        -- rewrite list_lookup_alter_ne by done. eauto.
      * apply list_elem_of_singleton in Hq as ->.
        destruct (decide (p = r)) as [->|Hne].
        -- rewrite list_lookup_alter_eq, Hn. simpl. eauto.
        -- rewrite list_lookup_alter_ne by done. eauto.
    + intros q Hq. apply elem_of_app. left. by apply Hto.
    + intros q qn c Hq Hc.
      apply lookup_alter_pushChild in Hq as (qn' & Hq & _ & _ & _ & [E|[_ E]]);
        rewrite E in Hc.
      * apply elem_of_app. left. by apply (Hch q qn' c).
      * apply elem_of_app in Hc as [Hc|Hc]; apply elem_of_app; [left|by right].
        by apply (Hch q qn' c).
  - split; simpl.
    + done.
    + intros q qn p' Hq Hp'. destruct (Hpa q qn p' Hq Hp'). split; [apply elem_of_app; by left|done].
    + done.
    + intros q Hq. apply elem_of_app in Hq as [Hq|Hq]; [eauto|].
      apply list_elem_of_singleton in Hq as ->. eauto.
    + intros q Hq. apply elem_of_app in Hq as [Hq|Hq]; apply elem_of_app;
        [left; by apply Hto|by right].
    + intros q qn c Hq Hc. apply elem_of_app. left. by apply (Hch q qn c).
Qed.

(** A copy of the object at [r] is added to the store. *)
Lemma TreeInv_alloc pre st r n n' :
  TreeInv pre st -> heap st !! r = Some n ->
  routePath n' = routePath n -> parent n' = parent n -> path n' = path n ->
  children n' = children n ->
  TreeInv pre (setHeap (heap st ++ [n']) st).
Proof.
  intros [Hsc Hpa Hor Hno Hto Hch] Hn E1 E2 E3 E4.
  assert (extends (heap st) (heap st ++ [n'])) as Hext by apply extends_app.
  assert (forall q qn, (heap st ++ [n']) !! q = Some qn ->
            heap st !! q = Some qn \/ qn = n') as Hlook.
  { intros q qn Hq. apply lookup_app_Some in Hq as [Hq|[_ Hq]]; [by left|].
    right. destruct (q - length (heap st))%nat; [|done]. by injection Hq. }
  split; simpl.
  - intros k m Hk. destruct (Hsc k m Hk) as (m' & Hm' & E).
    exists m'. split; [|done]. by apply lookup_app_l_Some.
  - intros q qn p Hq Hp. destruct (Hlook q qn Hq) as [Hq'| ->].
    + destruct (Hpa q qn p Hq' Hp). eauto using childOf_extends.
    + rewrite E2 in Hp. destruct (Hpa r n p Hn Hp) as [Hin Hc]. split; [done|].
      apply (childOf_extends (heap st)); [|done]. by apply (childOf_same _ n).
  - intros q qn Hq Hp. destruct (Hlook q qn Hq) as [Hq'| ->]; [eauto|].
    rewrite E2 in Hp. rewrite E3, E1. eauto.
  - intros q Hq. destruct (Hno q Hq) as (m & Hm & ?). exists m.
    split; [by apply lookup_app_l_Some|done].
  - done.
  - intros q qn c Hq Hc. destruct (Hlook q qn Hq) as [Hq'| ->]; [eauto|].
    rewrite E4 in Hc. eauto.
Qed.

Lemma TreeInv_setPieces pre st m : TreeInv pre st -> TreeInv pre (setPieces m st).
Proof. by intros []. Qed.

Lemma handleNode_S fuel st r :
  handleNode trimPathLeft (S fuel) st r
  = (st ← prepareNode trimPathLeft st r;
     node ← heap st !! r;
     if negb (isVirtual node) && isPiece node then
       let sub := default emptySubNode (routePiecesByPath st !! routePath node) in
       let st :=
         setPieces (<[routePath node := setPiece node r sub]> (routePiecesByPath st))
           st in
       match List.find (fun d => bool_decide (routePath d.2 = routePath node))
               (deref (heap st) (routeNodes st)) with
       | None =>
           handleNode trimPathLeft fuel
             (setHeap (heap st ++ [virtualCopy node]) st) (length (heap st))
       | Some _ => Some st
       end
     else Some (insertNode st r node)).
Proof. done. Qed.

(** [handleNode] on a node that is no piece, or a virtual one: it is
    prepared and inserted. *)
Lemma handleNode_plain pre st r n fuel :
  TreeInv pre st -> heap st !! r = Some n ->
  negb (isVirtual n) && isPiece n = false ->
  exists n1,
    handleNode trimPathLeft (S fuel) st r
    = Some (insertNode (setHeap (<[r := n1]> (heap st)) st) r n1)
    /\ fileOf n1 = fileOf n
    /\ (forall p, parent n1 = Some p -> p ∈ routeNodes st)
    /\ TreeInv pre (insertNode (setHeap (<[r := n1]> (heap st)) st) r n1).
Proof.
  intros HI Hn Hfl.
  destruct (prepareNode_spec pre st r n HI Hn)
    as (n1 & Hprep & Hfile & Hchild & Hpath & Hpar & Horph).
  assert (r < length (heap st))%nat as Hlen by by eapply lookup_lt_Some.
  exists n1. cbn [handleNode]. rewrite Hprep. cbn [mbind option_bind heap setHeap].
  rewrite list_lookup_insert_eq by done. cbn [mbind option_bind].
  rewrite (piece_flags n n1 Hfile), Hfl.
  split; [done|]. split; [done|]. split; [intros p Hp; by apply Hpar|].
  apply TreeInv_insert.
  - by apply (TreeInv_prepared pre st r n n1).
  - simpl. by rewrite list_lookup_insert_eq.
  - done.
  - by rewrite (piece_flags n n1 Hfile).
Qed.

Lemma anchor_find (st : BuildState) (h : list RouteNode) (p : jsstring) :
  extends (heap st) h -> extends h (heap st) ->
  match List.find (fun d : nat * RouteNode => bool_decide (routePath d.2 = p))
          (deref h (routeNodes st)) with
  | Some _ => hasAnchor st p
  | None => ~ hasAnchor st p
  end.
Proof.
  intros He He'.
  destruct (List.find _ _) as [[d dn]|] eqn:E.
  - apply find_some in E as [Hin Hp]. apply list_elem_of_In in Hin.
    apply ParentFacts.elem_of_deref in Hin as [Hd Hdn].
    apply bool_decide_eq_true in Hp. simpl in Hp.
    destruct (He' d dn Hdn) as (dn' & Hdn' & Erp).
    exists d, dn'. split; [done|]. split; [done|]. congruence.
  - intros (d & dn & Hd & Hdn & Hp).
    destruct (He d dn Hdn) as (dn' & Hdn' & Erp).
    pose proof (find_none _ _ E (d, dn')) as Hnone. simpl in Hnone.
    rewrite bool_decide_eq_true_2 in Hnone by congruence.
    assert (In (d, dn') (deref h (routeNodes st))) as Hin.
    { apply list_elem_of_In, ParentFacts.elem_of_deref. by split. }
    by specialize (Hnone Hin).
Qed.

Lemma pieceOf_setPiece n n1 r sub :
  fileOf n1 = fileOf n -> isPiece n = true -> pieceOf n (setPiece n1 r sub) = Some r.
Proof.
  unfold fileOf, isPiece, pieceOf, setPiece.
  intros [= _ _ _ _ _ E1 E2 E3 E4 E5 _] H. rewrite ?E1, ?E2, ?E3, ?E4, ?E5.
  destruct (isLoader n), (isErrorComponent n), (isPendingComponent n),
    (isNotFoundComponent n), (isComponent n); simpl in *; done.
Qed.

Lemma fileOf_virtualCopy n n1 :
  fileOf n1 = fileOf n -> fileOf (virtualCopy n1) = fileOf (virtualCopy n).
Proof. unfold fileOf. simpl. by intros [= -> -> -> -> -> _ _ _ _ _ _]. Qed.

Lemma routeNodes_bound pre st r :
  TreeInv pre st -> r ∈ routeNodes st -> (r < length (heap st))%nat.
Proof.
  intros HI Hr. destruct (tree_nodes _ _ HI r Hr) as (n & Hn & _).
  by eapply lookup_lt_Some.
Qed.

(** [handleNode] on a piece: it is recorded, and a virtual node is made
    for it when no processed node has its route path. *)
Lemma handleNode_piece pre st r n :
  TreeInv pre st -> heap st !! r = Some n ->
  negb (isVirtual n) && isPiece n = true ->
  exists st',
    handleNode trimPathLeft 2 st r = Some st'
    /\ TreeInv pre st'
    /\ (length (heap st) <= length (heap st'))%nat
    /\ (exists sub, routePiecesByPath st' !! routePath n = Some sub
                    /\ pieceOf n sub = Some r)
    /\ (hasAnchor st (routePath n) ->
        routeNodes st' = routeNodes st /\ routeTree st' = routeTree st
        /\ length (heap st') = length (heap st))
    /\ (~ hasAnchor st (routePath n) ->
        length (heap st') = S (length (heap st))
        /\ routeNodes st' = routeNodes st ++ [length (heap st)]
        /\ exists vn,
             heap st' !! length (heap st) = Some vn
             /\ fileOf vn = fileOf (virtualCopy n)
             /\ match parent vn with
                | Some p =>
                    routeTree st' = routeTree st
                    /\ exists pn, heap st' !! p = Some pn
                                  /\ last (children pn) = Some (length (heap st))
                | None => routeTree st' = routeTree st ++ [length (heap st)]
                end).
Proof.
  intros HI Hn Hfl.
  destruct (prepareNode_spec pre st r n HI Hn)
    as (n1 & Hprep & Hfile & Hchild & Hpath & Hpar & Horph).
  assert (r < length (heap st))%nat as Hlen by by eapply lookup_lt_Some.
  pose proof (TreeInv_prepared pre st r n n1 HI Hn Hfile Hchild Hpath Hpar Horph)
    as HI1.
  assert (isPiece n = true) as Hpiece by by apply andb_true_iff in Hfl as [_ ?].
  rewrite handleNode_S, Hprep. cbn [mbind option_bind heap setHeap].
  rewrite list_lookup_insert_eq by done. cbn [mbind option_bind].
  rewrite (piece_flags n n1 Hfile), Hfl.
  cbn [heap routeNodes setPieces setHeap routePiecesByPath].
  rewrite (fileOf_routePath _ _ Hfile).
  set (m := <[routePath n := setPiece n1 r
               (default emptySubNode (routePiecesByPath st !! routePath n))]>
              (routePiecesByPath st)).
  pose proof (anchor_find st (<[r := n1]> (heap st)) (routePath n)) as Hanchor.
  destruct (List.find _ _) as [a|].
  - (* an anchor exists *)
    eexists. split; [reflexivity|]. split; [by apply TreeInv_setPieces|].
    split; [simpl; by rewrite length_insert|].
    split.
    { eexists. split; [apply lookup_insert_eq|]. by apply pieceOf_setPiece. }
    split.
    + intros _. simpl. by rewrite length_insert.
    + intros Hno. destruct Hno. apply Hanchor.
      * eapply extends_insert; eauto using fileOf_routePath.
      * intros q qn Hq. destruct (decide (r = q)) as [->|Hne].
        -- rewrite list_lookup_insert_eq in Hq by done. injection Hq as <-.
           exists n. split; [done|]. symmetry. by apply fileOf_routePath.
        -- rewrite list_lookup_insert_ne in Hq by done. eauto.
  - (* no anchor: the virtual copy is handled *)
    set (st2 := setHeap (<[r := n1]> (heap st) ++ [virtualCopy n1])
                  (setPieces m (setHeap (<[r := n1]> (heap st)) st))).
    assert (TreeInv pre st2) as HI2.
    { apply (TreeInv_alloc pre (setPieces m (setHeap (<[r := n1]> (heap st)) st))
               r n1 (virtualCopy n1)); try done;
        [by apply TreeInv_setPieces|].
      by apply list_lookup_insert_eq. }
    assert (length (<[r := n1]> (heap st)) = length (heap st)) as Hlen1
      by apply length_insert.
    assert (heap st2 !! length (heap st) = Some (virtualCopy n1)) as Hv.
    { simpl. rewrite <- Hlen1. by apply list_lookup_middle. }
    destruct (handleNode_plain pre st2 (length (heap st)) (virtualCopy n1) 0 HI2 Hv)
      as (n2 & Hrun & Hfile2 & Hpar2 & HI3); [done|].
    rewrite Hlen1. fold st2. rewrite Hrun.
    eexists. split; [reflexivity|]. split; [exact HI3|].
    split.
    { unfold insertNode. destruct (parent n2); simpl;
        rewrite ?length_alter, length_insert, length_app, Hlen1; lia. }
    split.
    { unfold insertNode. destruct (parent n2); simpl;
        (eexists; split; [apply lookup_insert_eq|by apply pieceOf_setPiece]). }
    split.
    { intros Ha. destruct Hanchor; [| |done].
      - eapply extends_insert; eauto using fileOf_routePath.
      - intros q qn Hq. destruct (decide (r = q)) as [->|Hne].
        + rewrite list_lookup_insert_eq in Hq by done. injection Hq as <-.
          exists n. split; [done|]. symmetry. by apply fileOf_routePath.
        + rewrite list_lookup_insert_ne in Hq by done. eauto. }
    intros _.
    assert (length (heap st2) = S (length (heap st))) as Hlen2.
    { simpl. rewrite length_app, Hlen1. simpl. lia. }
    assert (<[length (heap st) := n2]> (heap st2) !! length (heap st) = Some n2)
      as Hn2 by (apply list_lookup_insert_eq; lia).
    assert (fileOf n2 = fileOf (virtualCopy n)) as Hfile3
      by (rewrite Hfile2; by apply fileOf_virtualCopy).
    unfold insertNode. destruct (parent n2) as [p|] eqn:Hp2; simpl.
    + assert (p < length (heap st))%nat as Hp
        by (apply (routeNodes_bound pre st); [done|by apply Hpar2]).
      split; [by rewrite length_alter, length_insert|]. split; [done|].
      exists n2. split; [by rewrite list_lookup_alter_ne by lia|].
      split; [done|]. rewrite Hp2. split; [done|].
      destruct (lookup_lt_is_Some_2 (<[length (heap st) := n2]> (heap st2)) p)
        as [pn Hpn]; [rewrite length_insert; lia|].
      exists (pushChild (length (heap st)) pn). simpl in Hpn.
      split; [by rewrite list_lookup_alter_eq, Hpn|].
      simpl. apply last_snoc.
    + split; [by rewrite length_insert|]. split; [done|].
      exists n2. split; [done|]. split; [done|]. by rewrite Hp2.
Qed.

Lemma handleNode_grows pre st r :
  TreeInv pre st -> (r < length (heap st))%nat ->
  exists st',
    handleNode trimPathLeft 2 st r = Some st' /\ TreeInv pre st'
    /\ (length (heap st) <= length (heap st'))%nat.
Proof.
  intros HI Hr. destruct (lookup_lt_is_Some_2 _ _ Hr) as [n Hn].
  destruct (negb (isVirtual n) && isPiece n) eqn:Hfl.
  - destruct (handleNode_piece pre st r n HI Hn Hfl) as (st' & Hrun & HI' & Hlen & _).
    by exists st'.
  - destruct (handleNode_plain pre st r n 1 HI Hn Hfl) as (n1 & Hrun & _ & _ & HI').
    eexists. split; [exact Hrun|]. split; [done|].
    unfold insertNode. destruct (parent n1); simpl;
      rewrite ?length_alter, length_insert; lia.
Qed.

Lemma handleNodes_cons st r refs :
  handleNodes trimPathLeft st (r :: refs)
  = st' ← handleNode trimPathLeft 2 st r; handleNodes trimPathLeft st' refs.
Proof.
  unfold handleNodes. cbn [foldl mbind option_bind].
  destruct (handleNode trimPathLeft 2 st r); cbn [mbind option_bind]; [done|].
  induction refs; cbn [foldl mbind option_bind]; auto.
Qed.

Lemma handleNodes_app st refs refs' :
  handleNodes trimPathLeft st (refs ++ refs')
  = st' ← handleNodes trimPathLeft st refs; handleNodes trimPathLeft st' refs'.
Proof.
  revert st. induction refs as [|r refs IH]; intros st; [done|].
  rewrite <- app_comm_cons, !handleNodes_cons.
  destruct (handleNode trimPathLeft 2 st r); simpl; [apply IH|done].
Qed.

Lemma handleNodes_inv pre st refs :
  TreeInv pre st -> Forall (fun r => r < length (heap st))%nat refs ->
  exists st',
    handleNodes trimPathLeft st refs = Some st' /\ TreeInv pre st'
    /\ (length (heap st) <= length (heap st'))%nat.
Proof.
  revert st. induction refs as [|r refs IH]; intros st HI Hrefs.
  - exists st. split; [done|]. split; [done|]. lia.
  - apply Forall_cons in Hrefs as [Hr Hrefs].
    destruct (handleNode_grows pre st r HI Hr) as (st1 & Hrun & HI1 & Hlen).
    destruct (IH st1 HI1) as (st' & Hrun' & HI' & Hlen').
    { eapply Forall_impl; [exact Hrefs|]. simpl. intros. lia. }
    exists st'. rewrite handleNodes_cons, Hrun. simpl. split; [done|].
    split; [done|]. lia.
Qed.

(** Walking the parent links of a processed node and joining the
    local paths gives its route path back. *)
Lemma composePath_routePath pre st fuel r n :
  TreeInv pre st -> r ∈ routeNodes st -> heap st !! r = Some n ->
  (length (routePath n) < fuel)%nat ->
  composePath fuel (heap st) r = Some (routePath n).
Proof.
  intros HI. revert r n. induction fuel as [|fuel IH]; intros r n Hr Hn Hlen; [lia|].
  simpl. rewrite Hn. cbn [mbind option_bind].
  destruct (tree_nodes _ _ HI r Hr) as (n' & Hn' & [local Hlocal] & _).
  assert (n' = n) as -> by congruence.
  rewrite Hlocal. cbn [mbind option_bind].
  destruct (parent n) as [p|] eqn:Hp.
  - destruct (tree_parent _ _ HI r n p Hn Hp)
      as [Hin (pn & Hpn & _ & Hpre & Hne & Hpath)].
    rewrite (IH p pn Hin Hpn).
    + cbn [mbind option_bind]. f_equal.
      assert (local = drop (length (routePath pn)) (routePath n)) as -> by congruence.
      destruct Hpre as [k Ek]. rewrite Ek at 2. rewrite Ek.
      rewrite <- !app_assoc. by rewrite drop_app_length.
    + apply prefix_length in Hpre. rewrite length_app in Hpre. simpl in Hpre. lia.
  - destruct (tree_orphan _ _ HI r n Hn Hp) as [E|E]; congruence.
Qed.

End WithTrim.

End TreeFacts.

(** C8. In the tree built from scanned nodes, every node that was given
    a parent has a route path that the parent's route path followed by a
    slash starts, and that differs from it; its local path is its route
    path without the parent's, which is what [replace] and the fallback to
    ['/'] compute; and joining the local paths met on the parent links of
    a node of the tree, from the top down, gives its route path. *)
Theorem tree_paths_compose (trimPathLeft : jsstring -> jsstring)
    (pre : list RouteNode) :
  Forall fresh pre ->
  exists st,
    buildRouteTree trimPathLeft pre = Some st
    /\ (forall r n p,
          heap st !! r = Some n -> parent n = Some p ->
          exists pn,
            heap st !! p = Some pn
            /\ (routePath pn ++ str "/") `prefix_of` routePath n
            /\ routePath pn <> routePath n
            /\ path n = Some (JS.orElse
                               (JS.replaceFirst (routePath pn) [] (routePath n))
                               (str "/"))
            /\ path n = Some (drop (length (routePath pn)) (routePath n)))
    /\ (forall r n,
          r ∈ routeNodes st -> heap st !! r = Some n ->
          composePath (S (length (routePath n))) (heap st) r = Some (routePath n)).
Proof.
  intros Hfresh.
  destruct (TreeFacts.handleNodes_inv trimPathLeft pre (initialBuild pre)
              (seq 0 (length pre)))
    as (st & Hrun & HI & _).
  { by apply TreeFacts.TreeInv_initial. }
  { apply Forall_forall. intros r Hr. apply elem_of_seq in Hr. simpl. lia. }
  exists st. split; [exact Hrun|]. split.
  - intros r n p Hn Hp.
    destruct (tree_parent _ _ HI r n p Hn Hp)
      as [_ (pn & Hpn & _ & Hpre & Hne & Hpath)].
    exists pn. repeat split; try done.
    rewrite (StringFacts.replaceFirst_prefix _ _ (TreeFacts.prefix_slash _ _ Hpre)).
    by rewrite (TreeFacts.orElse_drop _ _ Hpre).
  - intros r n Hr Hn. apply (TreeFacts.composePath_routePath pre st); auto.
Qed.

Lemma tree_paths_compose_witness :
  let pre := preRouteNodes Samples.cleanPath Samples.config Samples.posts in
  exists st,
    buildRouteTree Samples.trimPathLeft pre = Some st
    /\ forall r n,
         r ∈ routeNodes st -> heap st !! r = Some n ->
         composePath (S (length (routePath n))) (heap st) r = Some (routePath n).
Proof.
  intros pre.
  destruct (tree_paths_compose Samples.trimPathLeft pre) as (st & Hst & _ & Hpaths).
  - vm_compute. repeat constructor.
  - exists st. split; [exact Hst|exact Hpaths].
Defined.



Module PieceFacts.

Lemma pieceOf_fileOf n n' sub : fileOf n' = fileOf n -> pieceOf n' sub = pieceOf n sub.
Proof.
  unfold fileOf, pieceOf. intros [= _ _ _ _ _ E1 E2 E3 E4 E5 _].
  by rewrite ?E1, ?E2, ?E3, ?E4, ?E5.
Qed.

Lemma seq_split k n :
  (k < n)%nat -> seq 0 n = seq 0 k ++ k :: seq (S k) (n - S k).
Proof.
  intros Hk. replace n with (k + S (n - S k))%nat at 1 by lia.
  by rewrite seq_app.
Qed.

(** A scanned piece is in no list of the tree. *)
Lemma piece_outside pre st k node :
  TreeInv pre st -> pre !! k = Some node ->
  isPiece node = true -> isVirtual node = false ->
  (k ∉ routeNodes st) /\ (k ∉ routeTree st)
  /\ forall q qn, heap st !! q = Some qn -> k ∉ children qn.
Proof.
  intros HI Hk Hpiece Hvirt.
  assert (k ∉ routeNodes st) as Hout.
  { intros Hin. destruct (tree_nodes _ _ HI k Hin) as (n & Hn & _ & Hfl).
    destruct (tree_scanned _ _ HI k node Hk) as (n' & Hn' & Hfile).
    assert (n' = n) as -> by congruence.
    rewrite (TreeFacts.piece_flags node n Hfile), Hpiece, Hvirt in Hfl. done. }
  split; [done|]. split.
  - intros Hin. by apply Hout, (tree_top _ _ HI).
  - intros q qn Hq Hin. by apply Hout, (tree_children _ _ HI q qn).
Qed.

End PieceFacts.



(** ** The shape of the route tree *)

Module ShapeFacts.
Import TreeFacts.

Lemma filter_ext_elem {A} (P Q : A -> Prop) `{!forall x, Decision (P x)}
    `{!forall x, Decision (Q x)} (l : list A) :
  (forall x, x ∈ l -> P x <-> Q x) -> filter P l = filter Q l.
Proof.
  induction l as [|x l IH]; intros Hext; [done|].
  rewrite !filter_cons.
  assert (filter P l = filter Q l) as ->
    by (apply IH; intros y Hy; apply Hext; by right).
  destruct (decide (P x)) as [HP|HP], (decide (Q x)) as [HQ|HQ]; try done.
  - destruct HQ. apply Hext; [left|done].
  - destruct HP. apply Hext; [left|done].
Qed.

Lemma filter_none {A} (P : A -> Prop) `{!forall x, Decision (P x)} (l : list A) :
  (forall x, x ∈ l -> ~ P x) -> filter P l = [].
Proof.
  induction l as [|x l IH]; intros Hno; [done|].
  rewrite filter_cons. destruct (decide (P x)) as [HP|HP].
  - destruct (Hno x); [left|done].
  - apply IH. intros y Hy. apply Hno. by right.
Qed.

Lemma filter_snoc {A} (P : A -> Prop) `{!forall x, Decision (P x)} (l : list A) x :
  filter P (l ++ [x]) = filter P l ++ (if decide (P x) then [x] else []).
Proof. rewrite filter_app. reflexivity. Qed.

(** The shape looks at the store through the parent links of the
    processed nodes and through the children of every object. *)
Lemma shape_heap st h' :
  TreeShape st ->
  (forall x, x ∈ routeNodes st -> parentOf h' x = parentOf (heap st) x) ->
  (forall q qn',
      h' !! q = Some qn' ->
      children qn'
      = filter (fun r => parentOf (heap st) r = Some q) (routeNodes st)) ->
  TreeShape (setHeap h' st).
Proof.
  intros (Hnd & Htop & Hch) Hpar Hkids. unfold TreeShape. simpl.
  split; [done|]. split.
  - rewrite Htop. apply filter_ext_elem. intros x Hx. by rewrite Hpar.
  - intros q qn' Hq. rewrite (Hkids q qn' Hq).
    apply filter_ext_elem. intros x Hx. by rewrite Hpar.
Qed.

Lemma parentOf_alter_pushChild h c p x :
  parentOf (alter (pushChild c) p h) x = parentOf h x.
Proof.
  unfold parentOf. destruct (decide (p = x)) as [->|Hne].
  - rewrite list_lookup_alter_eq. by destruct (h !! x).
  - by rewrite list_lookup_alter_ne.
Qed.

(** Lines 234-241 keep the shape, for a node that is not yet among the
    processed ones. *)
Lemma shape_insert st r n :
  TreeShape st -> r ∉ routeNodes st -> heap st !! r = Some n ->
  (forall p, parent n = Some p -> p <> r) ->
  TreeShape (insertNode st r n).
Proof.
  intros (Hnd & Htop & Hch) Hr Hn Hp. unfold TreeShape, insertNode.
  assert (parentOf (heap st) r = parent n) as Hpr
    by (unfold parentOf; by rewrite Hn).
  destruct (parent n) as [p|] eqn:Eparent; simpl.
  - split; [|split].
    + apply NoDup_app. split; [done|]. split; [|apply NoDup_singleton].
      intros x Hx ->%list_elem_of_singleton. done.
    + rewrite filter_snoc, parentOf_alter_pushChild, Hpr.
      rewrite decide_False by done. rewrite app_nil_r, Htop.
      apply filter_ext_elem. intros x _. by rewrite parentOf_alter_pushChild.
    + intros q qn Hq. rewrite filter_snoc, parentOf_alter_pushChild, Hpr.
      assert (filter (fun x => parentOf (alter (pushChild r) p (heap st)) x = Some q)
                (routeNodes st)
              = filter (fun x => parentOf (heap st) x = Some q) (routeNodes st)) as ->.
      { apply filter_ext_elem. intros x _. by rewrite parentOf_alter_pushChild. }
      destruct (decide (p = q)) as [->|Hne].
      * rewrite list_lookup_alter_eq in Hq.
        destruct (heap st !! q) as [qn0|] eqn:Hq0; [|done].
        simpl in Hq. injection Hq as <-. simpl.
        rewrite (Hch q qn0 Hq0). by rewrite decide_True.
      * rewrite list_lookup_alter_ne in Hq by done.
        rewrite (Hch q qn Hq). rewrite decide_False by congruence.
        by rewrite app_nil_r.
  - split; [|split].
    + apply NoDup_app. split; [done|]. split; [|apply NoDup_singleton].
      intros x Hx ->%list_elem_of_singleton. done.
    + rewrite filter_snoc, Hpr. rewrite decide_True by done. by rewrite Htop.
    + intros q qn Hq. rewrite filter_snoc, Hpr. rewrite decide_False by done.
      rewrite app_nil_r. by apply Hch.
Qed.

(** An object that is not among the processed nodes is nobody's
    parent. *)
Lemma no_children_outside pre st q :
  TreeInv pre st -> q ∉ routeNodes st ->
  filter (fun r => parentOf (heap st) r = Some q) (routeNodes st) = [].
Proof.
  intros HI Hq. apply filter_none. intros x Hx Hpar. unfold parentOf in Hpar.
  destruct (heap st !! x) as [n|] eqn:Hn; [|done]. simpl in Hpar.
  by destruct (tree_parent _ _ HI x n q Hn Hpar).
Qed.

Lemma extends_trans h1 h2 h3 : extends h1 h2 -> extends h2 h3 -> extends h1 h3.
Proof.
  intros H12 H23 q qn Hq. destruct (H12 q qn Hq) as (qn2 & Hq2 & E2).
  destruct (H23 q qn2 Hq2) as (qn3 & Hq3 & E3). exists qn3. split; [done|congruence].
Qed.

Lemma hasAnchor_extends st st' p :
  hasAnchor st p -> extends (heap st) (heap st') ->
  (forall x, x ∈ routeNodes st -> x ∈ routeNodes st') ->
  hasAnchor st' p.
Proof.
  intros (d & dn & Hd & Hdn & Hp) Hext Hsub.
  destruct (Hext d dn Hdn) as (dn' & Hdn' & E).
  exists d, dn'. split; [by apply Hsub|]. split; [done|congruence].
Qed.

Lemma extends_insertNode st r n :
  extends (heap st) (heap (insertNode st r n)).
Proof.
  unfold insertNode. destruct (parent n); simpl; [|apply extends_refl].
  by apply extends_alter.
Qed.

Section WithTrim.
Context (trimPathLeft : jsstring -> jsstring).

(** A node that is no piece: it is prepared and enters the tree. *)
Lemma handleNode_plain_shape pre st r n fuel :
  TreeInv pre st -> TreeShape st -> heap st !! r = Some n ->
  r ∉ routeNodes st -> negb (isVirtual n) && isPiece n = false ->
  exists st',
    handleNode trimPathLeft (S fuel) st r = Some st'
    /\ TreeInv pre st' /\ TreeShape st'
    /\ routeNodes st' = routeNodes st ++ [r]
    /\ length (heap st') = length (heap st)
    /\ extends (heap st) (heap st').
Proof.
  intros HI HS Hn Hr Hfl.
  destruct (prepareNode_spec trimPathLeft pre st r n HI Hn)
    as (n1 & Hprep & Hfile & Hchild & Hpath & Hpar & Horph).
  assert (r < length (heap st))%nat as Hlen by by eapply lookup_lt_Some.
  pose proof (TreeInv_prepared pre st r n n1 HI Hn Hfile Hchild Hpath Hpar Horph)
    as HI1.
  set (st1 := setHeap (<[r := n1]> (heap st)) st) in *.
  assert (heap st1 !! r = Some n1) as Hn1
    by (simpl; by apply list_lookup_insert_eq).
  assert (TreeShape st1) as HS1.
  { apply shape_heap; [done|..].
    - intros x Hx. unfold parentOf.
      rewrite list_lookup_insert_ne; [done|]. intros ->. done.
    - intros q qn' Hq. destruct (decide (r = q)) as [->|Hne].
      + rewrite list_lookup_insert_eq in Hq by done. injection Hq as <-.
        rewrite Hchild. by apply (proj2 (proj2 HS)).
      + rewrite list_lookup_insert_ne in Hq by done.
        by apply (proj2 (proj2 HS)). }
  exists (insertNode st1 r n1). rewrite handleNode_S, Hprep.
  cbn [mbind option_bind]. fold st1. rewrite Hn1. cbn [mbind option_bind].
  rewrite (piece_flags n n1 Hfile), Hfl.
  split; [done|]. split.
  { apply TreeInv_insert; [done..|]. by rewrite (piece_flags n n1 Hfile). }
  split.
  { apply shape_insert; [done..|]. intros p Hp ->.
    apply Hr. by apply (Hpar r). }
  split.
  { unfold insertNode. destruct (parent n1); simpl; done. }
  split.
  { unfold insertNode. destruct (parent n1); simpl;
      rewrite ?length_alter, length_insert; done. }
  apply (extends_trans _ (heap st1)); [|apply extends_insertNode].
  simpl. eapply extends_insert; [exact Hn|]. by apply fileOf_routePath.
Qed.

(** A piece: the shape is kept, whether a virtual node is made or
    not. *)
Lemma handleNode_piece_shape pre st r n :
  TreeInv pre st -> TreeShape st -> heap st !! r = Some n ->
  r ∉ routeNodes st -> negb (isVirtual n) && isPiece n = true ->
  exists st',
    handleNode trimPathLeft 2 st r = Some st'
    /\ TreeInv pre st' /\ TreeShape st'
    /\ (routeNodes st' = routeNodes st
        \/ routeNodes st' = routeNodes st ++ [length (heap st)])
    /\ (length (heap st) <= length (heap st'))%nat
    /\ extends (heap st) (heap st')
    /\ hasAnchor st' (routePath n).
Proof.
  intros HI HS Hn Hr Hfl.
  destruct (prepareNode_spec trimPathLeft pre st r n HI Hn)
    as (n1 & Hprep & Hfile & Hchild & Hpath & Hpar & Horph).
  assert (r < length (heap st))%nat as Hlen by by eapply lookup_lt_Some.
  pose proof (TreeInv_prepared pre st r n n1 HI Hn Hfile Hchild Hpath Hpar Horph)
    as HI1.
  set (st1 := setHeap (<[r := n1]> (heap st)) st) in *.
  assert (heap st1 !! r = Some n1) as Hn1
    by (simpl; by apply list_lookup_insert_eq).
  assert (TreeShape st1) as HS1.
  { apply shape_heap; [done|..].
    - intros x Hx. unfold parentOf.
      rewrite list_lookup_insert_ne; [done|]. intros ->. done.
    - intros q qn' Hq. destruct (decide (r = q)) as [->|Hne].
      + rewrite list_lookup_insert_eq in Hq by done. injection Hq as <-.
        rewrite Hchild. by apply (proj2 (proj2 HS)).
      + rewrite list_lookup_insert_ne in Hq by done.
        by apply (proj2 (proj2 HS)). }
  assert (length (heap st1) = length (heap st)) as Hlen1
    by (simpl; apply length_insert).
  rewrite handleNode_S, Hprep. cbn [mbind option_bind]. fold st1.
  rewrite Hn1. cbn [mbind option_bind].
  rewrite (piece_flags n n1 Hfile), Hfl.
  set (m := <[routePath n1 := _]> (routePiecesByPath st1)).
  assert (extends (heap st) (heap st1)) as Hext1.
  { simpl. eapply extends_insert; [exact Hn|]. by apply fileOf_routePath. }
  assert (routePath n1 = routePath n) as Hrp by by apply fileOf_routePath.
  pose proof (anchor_find (setPieces m st1) (heap st1) (routePath n1)
                (extends_refl _) (extends_refl _)) as Hanchor.
  cbn [heap routeNodes setPieces] in Hanchor |- *.
  destruct (List.find _ _) as [a|].
  - exists (setPieces m st1). split; [done|].
    split; [by apply TreeInv_setPieces|]. split; [exact HS1|].
    split; [by left|]. split; [simpl; rewrite length_insert; lia|].
    split; [exact Hext1|]. by rewrite <- Hrp.
  - set (st2 := setHeap (heap st1 ++ [virtualCopy n1]) (setPieces m st1)).
    assert (TreeInv pre st2) as HI2.
    { apply (TreeInv_alloc pre (setPieces m st1) r n1 (virtualCopy n1)); try done.
      by apply TreeInv_setPieces. }
    assert (heap st2 !! length (heap st) = Some (virtualCopy n1)) as Hv.
    { simpl. rewrite <- (length_insert (heap st) r n1).
      by apply list_lookup_middle. }
    assert (length (heap st) ∉ routeNodes st) as Hfresh.
    { intros Hin. apply (routeNodes_bound pre st) in Hin; [lia|done]. }
    assert (children n1 = []) as Hnokids.
    { rewrite Hchild, (proj2 (proj2 HS) r n Hn).
      by apply (no_children_outside pre). }
    assert (TreeShape st2) as HS2.
    { apply (shape_heap (setPieces m st1)); [exact HS1|..].
      - intros x Hx. unfold parentOf. simpl.
        rewrite lookup_app_l; [done|]. rewrite length_insert.
        by apply (routeNodes_bound pre st).
      - intros q qn' Hq. simpl in Hq.
        apply lookup_app_Some in Hq as [Hq|[Hge Hq]].
        + by apply (proj2 (proj2 HS1)).
        + rewrite length_insert in Hge, Hq.
          destruct (q - length (heap st))%nat as [|k] eqn:E; [|done].
          injection Hq as <-. simpl. rewrite Hnokids. symmetry.
          apply (no_children_outside pre st1); [done|].
          simpl. intros Hin. apply (routeNodes_bound pre st) in Hin; [lia|done]. }
    destruct (handleNode_plain_shape pre st2 (length (heap st)) (virtualCopy n1) 0
                HI2 HS2 Hv) as (st' & Hrun & HI' & HS' & Hnodes & Hlen' & Hext');
      [done..|].
    exists st'. fold st2. rewrite Hlen1, Hrun.
    split; [done|]. split; [done|]. split; [done|].
    split; [by right|].
    split; [rewrite Hlen'; simpl; rewrite length_app, length_insert; lia|].
    split.
    { apply (extends_trans _ (heap st1)); [done|].
      apply (extends_trans _ (heap st2)); [apply extends_app|done]. }
    destruct (Hext' (length (heap st)) (virtualCopy n1) Hv) as (vn & Hvn & Evn).
    exists (length (heap st)), vn. split; [|split; [done|]].
    + rewrite Hnodes. apply elem_of_app. right. left.
    + rewrite Evn. simpl. exact Hrp.
Qed.

Lemma handleNode_shape pre st r n :
  TreeInv pre st -> TreeShape st -> heap st !! r = Some n ->
  r ∉ routeNodes st ->
  exists st',
    handleNode trimPathLeft 2 st r = Some st'
    /\ TreeInv pre st' /\ TreeShape st'
    /\ (forall x, x ∈ routeNodes st' ->
                  x ∈ routeNodes st \/ x = r \/ x = length (heap st))
    /\ (length (heap st) <= length (heap st'))%nat
    /\ extends (heap st) (heap st')
    /\ (forall x, x ∈ routeNodes st -> x ∈ routeNodes st')
    /\ (negb (isVirtual n) && isPiece n = false -> r ∈ routeNodes st')
    /\ hasAnchor st' (routePath n).
Proof.
  intros HI HS Hn Hr.
  destruct (negb (isVirtual n) && isPiece n) eqn:Hfl.
  - destruct (handleNode_piece_shape pre st r n HI HS Hn Hr Hfl)
      as (st' & Hrun & HI' & HS' & Hnodes & Hlen' & Hext & Hanchor).
    exists st'. split; [done|]. split; [done|]. split; [done|]. split.
    { intros x Hx. destruct Hnodes as [E|E]; rewrite E in Hx; [by left|].
      apply elem_of_app in Hx as [Hx|Hx]; [by left|].
      apply list_elem_of_singleton in Hx. by right; right. }
    split; [done|]. split; [done|]. split.
    { intros x Hx. destruct Hnodes as [E|E]; rewrite E; [done|].
      apply elem_of_app. by left. }
    split; [done|]. done.
  - destruct (handleNode_plain_shape pre st r n 1 HI HS Hn Hr Hfl)
      as (st' & Hrun & HI' & HS' & Hnodes & Hlen' & Hext).
    exists st'. split; [done|]. split; [done|]. split; [done|]. split.
    { intros x Hx. rewrite Hnodes in Hx.
      apply elem_of_app in Hx as [Hx|Hx]; [by left|].
      apply list_elem_of_singleton in Hx. by right; left. }
    split; [lia|]. split; [done|]. split.
    { intros x Hx. rewrite Hnodes. apply elem_of_app. by left. }
    split.
    { intros _. rewrite Hnodes. apply elem_of_app. right. left. }
    destruct (Hext r n Hn) as (n' & Hn' & E).
    exists r, n'. split; [|done]. rewrite Hnodes. apply elem_of_app. right. left.
Qed.

(** The scanned nodes handled in turn, up to the [k]-th. *)
Lemma handleNodes_shape pre k :
  Forall fresh pre -> (k <= length pre)%nat ->
  exists st,
    handleNodes trimPathLeft (initialBuild pre) (seq 0 k) = Some st
    /\ TreeInv pre st /\ TreeShape st
    /\ (forall x, x ∈ routeNodes st -> (x < k)%nat \/ (length pre <= x)%nat)
    /\ (length pre <= length (heap st))%nat
    /\ (forall j n,
          (j < k)%nat -> pre !! j = Some n ->
          (negb (isVirtual n) && isPiece n = false -> j ∈ routeNodes st)
          /\ hasAnchor st (routePath n)).
Proof.
  intros Hfresh. induction k as [|k IH]; intros Hk.
  - exists (initialBuild pre). split; [done|].
    split; [by apply TreeInv_initial|]. split.
    { split; [apply NoDup_nil_2|]. split; [done|].
      intros q qn Hq. simpl in *. rewrite Forall_forall in Hfresh.
      by destruct (Hfresh qn (list_elem_of_lookup_2 _ _ _ Hq)) as (_ & _ & ->). }
    split; [intros x Hx; by apply elem_of_nil in Hx|].
    split; [done|]. intros j n Hj. lia.
  - destruct IH as (st & Hrun & HI & HS & Hbound & Hlen & Hdone); [lia|].
    destruct (lookup_lt_is_Some_2 pre k) as [nk Hnk]; [lia|].
    destruct (tree_scanned _ _ HI k nk Hnk) as (n0 & Hn0 & Hfile0).
    destruct (handleNode_shape pre st k n0 HI HS Hn0)
      as (st' & Hrun' & HI' & HS' & Hin & Hlen' & Hext & Hsub & Hplain & Hanchor).
    { intros Hx. apply Hbound in Hx. lia. }
    exists st'. rewrite seq_S. cbn [Nat.add].
    rewrite handleNodes_app, Hrun. cbn [mbind option_bind].
    rewrite handleNodes_cons, Hrun'. split; [done|].
    split; [done|]. split; [done|]. split.
    { intros x Hx. destruct (Hin x Hx) as [H|[->| ->]]; [|lia..].
      apply Hbound in H. lia. }
    split; [lia|].
    intros j n Hj Hpre. destruct (decide (j = k)) as [->|Hne].
    + assert (n = nk) as -> by congruence. split.
      * intros Hfl. apply Hplain. by rewrite (piece_flags nk n0 Hfile0).
      * by rewrite <- (fileOf_routePath nk n0 Hfile0).
    + destruct (Hdone j n) as [Hp Ha]; [lia|done|]. split.
      * intros Hfl. by apply Hsub, Hp.
      * by apply (hasAnchor_extends st).
Qed.

End WithTrim.

End ShapeFacts.

(** ** Route paths of scanned files *)

Module ScanFacts.
Import StringFacts.

Lemma split_app_sep sep a b :
  JS.split sep (a ++ sep :: b) = JS.split sep a ++ JS.split sep b.
Proof.
  induction a as [|c a IH]; simpl.
  - by rewrite Ascii.eqb_refl.
  - rewrite IH. destruct (Ascii.eqb c sep); [done|].
    pose proof (split_nonempty sep a) as Hne.
    by destruct (JS.split sep a).
Qed.

Lemma split_no_sep sep s : sep ∉ s -> JS.split sep s = [s].
Proof.
  induction s as [|c s IH]; intros Hs; simpl; [done|].
  destruct (Ascii.eqb_spec c sep) as [->|Hne]; [set_solver|].
  rewrite IH by set_solver. done.
Qed.

Lemma split_segments sep s seg : seg ∈ JS.split sep s -> sep ∉ seg.
Proof.
  revert seg. induction s as [|c s IH]; intros seg; simpl.
  - intros ->%list_elem_of_singleton. apply not_elem_of_nil.
  - destruct (Ascii.eqb_spec c sep) as [->|Hne].
    + intros [->|H]%elem_of_cons; [apply not_elem_of_nil|by apply IH].
    + pose proof (split_nonempty sep s) as Hs.
      destruct (JS.split sep s) as [|x rest]; [done|].
      intros [->|H]%elem_of_cons.
      * intros [?|?]%elem_of_cons; [done|]. by apply (IH x); [left|].
      * apply IH. by right.
Qed.

(** [s.split('.').join('/')] turns the dots of [s] into slashes. *)
Lemma join_split_dots s :
  JS.join (str "/") (JS.split "."%char s) = dotsToSlashes s.
Proof.
  induction s as [|c s IH]; simpl; [done|].
  pose proof (split_nonempty "."%char s) as Hne.
  destruct (Ascii.eqb c "."%char).
  - rewrite join_cons by done. by rewrite IH.
  - destruct (JS.split "."%char s) as [|seg rest]; [done|].
    destruct rest as [|y rest]; simpl in *.
    + by rewrite IH.
    + by rewrite <- IH.
Qed.

Lemma lastIndexOf_app c a b :
  c ∉ b -> JS.lastIndexOf c (a ++ c :: b) = Some (length a).
Proof.
  intros Hb.
  assert (JS.lastIndexOf c b = None) as Hnone.
  { clear a. induction b as [|d b IH]; simpl; [done|].
    rewrite IH by set_solver. destruct (Ascii.eqb_spec d c); [set_solver|done]. }
  induction a as [|d a IH]; simpl.
  - by rewrite Hnone, Ascii.eqb_refl.
  - by rewrite IH.
Qed.

Lemma slashed_snoc segments seg :
  slashed (segments ++ [seg]) = slashed segments ++ str "/" ++ seg.
Proof. unfold slashed. rewrite flat_map_app. simpl. by rewrite app_nil_r. Qed.

Lemma slashed_join segments :
  segments <> [] -> slashed segments = str "/" ++ JS.join (str "/") segments.
Proof.
  induction segments as [|x l IH]; [done|]. intros _.
  destruct l as [|y l]; [unfold slashed; simpl; by rewrite app_nil_r|].
  change (slashed (x :: y :: l)) with ((str "/" ++ x) ++ slashed (y :: l)).
  rewrite IH by done. rewrite (join_cons _ x (y :: l)) by done.
  by rewrite <- !app_assoc.
Qed.

(** A suffix that is a slash and a word without a slash is the last
    segment. *)
Lemma slashed_suffix segments seg w :
  "/"%char ∉ seg -> "/"%char ∉ w ->
  (str "/" ++ w) `suffix_of` (slashed segments ++ str "/" ++ seg) <-> seg = w.
Proof.
  intros Hseg Hw. split; [|intros ->; by apply suffix_app_r].
  intros Hsuf. rewrite app_assoc in Hsuf.
  change (str "/" ++ w) with ([] ++ ("/"%char :: w)) in Hsuf.
  revert Hsuf. generalize (slashed segments). intros pre Hsuf. clear segments.
  destruct Hsuf as [k Hk].
  assert (forall (a b : jsstring) x y,
            "/"%char ∉ x -> "/"%char ∉ y ->
            a ++ "/"%char :: x = b ++ "/"%char :: y -> x = y) as Hkey.
  { clear. intros a. induction a as [|c a IH]; intros [|d b] x y Hx Hy E;
      simpl in E.
    - by injection E.
    - injection E as _ E. destruct Hx. rewrite E. apply elem_of_app. right. by left.
    - injection E as _ E. destruct Hy. rewrite <- E. apply elem_of_app. right. by left.
    - injection E as _ E. by apply (IH b). }
  symmetry.
  apply (Hkey (k ++ []) pre w seg Hw Hseg).
  rewrite app_nil_r. simpl in Hk.
  change (str "/" ++ seg) with ("/"%char :: seg) in Hk.
  rewrite <- app_assoc in Hk. simpl in Hk. done.
Qed.

Lemma stripSuffix_last segments seg w :
  "/"%char ∉ seg -> "/"%char ∉ w ->
  JS.stripSuffix (str "/" ++ w) (slashed (segments ++ [seg]))
  = if bool_decide (seg = w) then Some (slashed segments) else None.
Proof.
  intros Hseg Hw. unfold JS.stripSuffix, JS.endsWith. rewrite slashed_snoc.
  case_bool_decide as Hsuf.
  - apply slashed_suffix in Hsuf as ->; [|done..].
    rewrite bool_decide_eq_true_2 by done. f_equal.
    rewrite length_app, Nat.add_sub. apply take_app_length.
  - rewrite bool_decide_eq_false_2; [done|].
    intros ->. apply Hsuf. by apply suffix_app_r.
Qed.

Lemma stripSuffix_nil suffix : suffix <> [] -> JS.stripSuffix suffix [] = None.
Proof.
  intros Hne. unfold JS.stripSuffix, JS.endsWith.
  rewrite bool_decide_eq_false_2; [done|].
  intros H. apply suffix_nil_inv in H. done.
Qed.

(** The regular expression of lines 79-82 drops the last segment when
    it is one of the words. *)
Lemma stripPieceSuffix_last (words : list jsstring) segments seg :
  "/"%char ∉ seg -> Forall (fun w => "/"%char ∉ w) words ->
  stripPieceSuffix (map (fun w => str "/" ++ w) words) (slashed (segments ++ [seg]))
  = if bool_decide (seg ∈ words) then slashed segments
    else slashed (segments ++ [seg]).
Proof.
  intros Hseg. induction 1 as [|w words Hw _ IH]; cbn [stripPieceSuffix map]; [done|].
  rewrite (stripSuffix_last segments seg w Hseg Hw).
  destruct (decide (seg = w)) as [E|E].
  - rewrite bool_decide_eq_true_2 by done.
    rewrite bool_decide_eq_true_2 by (rewrite E; left). done.
  - rewrite bool_decide_eq_false_2 by done. rewrite IH.
    apply (f_equal (fun b : bool => if b then _ else _)).
    apply bool_decide_ext. rewrite elem_of_cons. intuition congruence.
Qed.

Lemma pieceSuffixes_words :
  pieceSuffixes
  = map (fun w => str "/" ++ w)
      [str "component"; str "errorComponent"; str "pendingComponent";
       str "notFoundComponent"; str "loader"; str "route"].
Proof. reflexivity. Qed.

Lemma elem_of_pieceSegments seg :
  seg ∈ [str "component"; str "errorComponent"; str "pendingComponent";
         str "notFoundComponent"; str "loader"; str "route"]
  <-> seg ∈ pieceSegments.
Proof. unfold pieceSegments. rewrite !elem_of_cons. tauto. Qed.

Lemma stripPieceSuffix_slashed segments :
  Forall (fun seg => "/"%char ∉ seg) segments ->
  stripPieceSuffix pieceSuffixes (slashed segments)
  = slashed (dropPieceSegment segments).
Proof.
  intros Hsegs. unfold dropPieceSegment.
  destruct segments as [|seg segments _] using rev_ind.
  - reflexivity.
  - apply Forall_app in Hsegs as [_ Hseg].
    apply (proj1 (Forall_singleton _ _)) in Hseg.
    rewrite last_snoc, pieceSuffixes_words. unfold JS.pop. rewrite removelast_last.
    rewrite stripPieceSuffix_last; [|exact Hseg|].
    + rewrite (bool_decide_ext _ _ (elem_of_pieceSegments seg)).
      by destruct (bool_decide (seg ∈ pieceSegments)).
    + repeat constructor; vm_compute; intros H;
        repeat (apply elem_of_cons in H as [H|H]; [discriminate|]);
        by apply elem_of_nil in H.
Qed.

Lemma dropPieceSegment_segments (P : jsstring -> Prop) segments :
  Forall P segments -> Forall P (dropPieceSegment segments).
Proof.
  intros H. unfold dropPieceSegment.
  destruct segments as [|seg segments _] using rev_ind; [done|].
  rewrite last_snoc. case_bool_decide; [|done].
  unfold JS.pop. rewrite removelast_last. by apply Forall_app in H as [? _].
Qed.

Lemma replaceTrailingIndex_slashed segments :
  Forall (fun seg => "/"%char ∉ seg) segments ->
  replaceTrailingIndex (slashed segments) = slashed (emptyIndexSegment segments).
Proof.
  intros Hsegs. unfold replaceTrailingIndex, emptyIndexSegment.
  destruct segments as [|seg segments _] using rev_ind.
  - by rewrite stripSuffix_nil.
  - apply Forall_app in Hsegs as [_ Hseg].
    apply (proj1 (Forall_singleton _ _)) in Hseg.
    rewrite last_snoc.
    change (str "/index") with (str "/" ++ str "index").
    rewrite (stripSuffix_last segments seg (str "index") Hseg).
    + case_bool_decide; [|done].
      unfold JS.pop. rewrite removelast_last, slashed_snoc. by rewrite app_nil_r.
    + vm_compute. intros H.
      repeat (apply elem_of_cons in H as [H|H]; [discriminate|]).
      by apply elem_of_nil in H.
Qed.

Lemma slashed_not_index segments : slashed segments <> str "index".
Proof. destruct segments; [done|]. unfold slashed. simpl. vm_compute. discriminate. Qed.

Lemma orElse_slashed segments :
  JS.orElse (slashed segments) (str "/") = str "/" ++ JS.join (str "/") segments.
Proof.
  destruct segments as [|x l]; [done|].
  rewrite slashed_join by done. done.
Qed.


(** *** The same for a path that [cleanPath] returned

    Such a path need not start with a slash: it is what precedes its
    first slash, followed by its other segments, each after a slash. *)

Lemma suffix_segment (pre seg w : jsstring) :
  "/"%char ∉ seg -> "/"%char ∉ w ->
  (str "/" ++ w) `suffix_of` (pre ++ str "/" ++ seg) <-> seg = w.
Proof.
  intros Hseg Hw. split; [|intros ->; by apply suffix_app_r].
  intros [k Hk].
  assert (forall (a b : jsstring) x y,
            "/"%char ∉ x -> "/"%char ∉ y ->
            a ++ "/"%char :: x = b ++ "/"%char :: y -> x = y) as Hkey.
  { clear. intros a. induction a as [|c a IH]; intros [|d b] x y Hx Hy E;
      simpl in E.
    - by injection E.
    - injection E as _ E. destruct Hx. rewrite E. apply elem_of_app. right. by left.
    - injection E as _ E. destruct Hy. rewrite <- E. apply elem_of_app. right. by left.
    - injection E as _ E. by apply (IH b). }
  symmetry. apply (Hkey k pre w seg Hw Hseg). symmetry. exact Hk.
Qed.

Lemma stripSuffix_segment (pre seg w : jsstring) :
  "/"%char ∉ seg -> "/"%char ∉ w ->
  JS.stripSuffix (str "/" ++ w) (pre ++ str "/" ++ seg)
  = if bool_decide (seg = w) then Some pre else None.
Proof.
  intros Hseg Hw. unfold JS.stripSuffix, JS.endsWith.
  case_bool_decide as Hsuf.
  - apply suffix_segment in Hsuf as ->; [|done..].
    rewrite bool_decide_eq_true_2 by done. f_equal.
    rewrite length_app, Nat.add_sub. apply take_app_length.
  - rewrite bool_decide_eq_false_2; [done|].
    intros ->. apply Hsuf. by apply suffix_app_r.
Qed.

Lemma stripSuffix_no_slash (w x : jsstring) :
  "/"%char ∉ x -> JS.stripSuffix (str "/" ++ w) x = None.
Proof.
  intros Hx. unfold JS.stripSuffix, JS.endsWith.
  rewrite bool_decide_eq_false_2; [done|].
  intros [k ->]. apply Hx. apply elem_of_app. right. by left.
Qed.

Lemma slash_in_slashed segments : segments <> [] -> "/"%char ∈ slashed segments.
Proof. destruct segments; [done|]. intros _. unfold slashed. simpl. by left. Qed.

Lemma stripPieceSuffix_segment (words : list jsstring) (pre seg : jsstring) :
  "/"%char ∉ seg -> Forall (fun w => "/"%char ∉ w) words ->
  stripPieceSuffix (map (fun w => str "/" ++ w) words) (pre ++ str "/" ++ seg)
  = if bool_decide (seg ∈ words) then pre else pre ++ str "/" ++ seg.
Proof.
  intros Hseg. induction 1 as [|w words Hw _ IH]; cbn [stripPieceSuffix map].
  - by rewrite bool_decide_eq_false_2 by apply not_elem_of_nil.
  - rewrite (stripSuffix_segment pre seg w Hseg Hw).
    destruct (decide (seg = w)) as [E|E].
    + rewrite bool_decide_eq_true_2 by done.
      rewrite bool_decide_eq_true_2 by (rewrite E; left). done.
    + rewrite bool_decide_eq_false_2 by done. rewrite IH.
      rewrite (bool_decide_ext (seg ∈ w :: words) (seg ∈ words)); [done|].
      rewrite elem_of_cons. intuition congruence.
Qed.

Lemma stripPieceSuffix_no_slash (words : list jsstring) (x : jsstring) :
  "/"%char ∉ x -> stripPieceSuffix (map (fun w => str "/" ++ w) words) x = x.
Proof.
  intros Hx. induction words as [|w words IH]; cbn [stripPieceSuffix map]; [done|].
  by rewrite stripSuffix_no_slash.
Qed.

(** The regular expression of lines 79-82 on such a path. *)
Lemma stripPieceSuffix_prefixed (x : jsstring) segments :
  "/"%char ∉ x -> Forall (fun seg => "/"%char ∉ seg) segments ->
  stripPieceSuffix pieceSuffixes (x ++ slashed segments)
  = x ++ slashed (dropPieceSegment segments).
Proof.
  intros Hx Hsegs. unfold dropPieceSegment. rewrite pieceSuffixes_words.
  destruct segments as [|seg segments _] using rev_ind.
  - cbn [last]. unfold slashed. cbn [flat_map]. rewrite app_nil_r.
    by apply stripPieceSuffix_no_slash.
  - apply Forall_app in Hsegs as [_ Hseg].
    apply (proj1 (Forall_singleton _ _)) in Hseg.
    rewrite last_snoc. unfold JS.pop. rewrite removelast_last.
    rewrite slashed_snoc, app_assoc.
    rewrite stripPieceSuffix_segment; [|exact Hseg|].
    + rewrite (bool_decide_ext _ _ (elem_of_pieceSegments seg)).
      destruct (bool_decide (seg ∈ pieceSegments)); [done|].
      by rewrite slashed_snoc, <- app_assoc.
    + repeat constructor; vm_compute; intros H;
        repeat (apply elem_of_cons in H as [H|H]; [discriminate|]);
        by apply elem_of_nil in H.
Qed.

Lemma replaceTrailingIndex_prefixed (x : jsstring) segments :
  "/"%char ∉ x -> Forall (fun seg => "/"%char ∉ seg) segments ->
  replaceTrailingIndex (x ++ slashed segments)
  = x ++ slashed (emptyIndexSegment segments).
Proof.
  intros Hx Hsegs. unfold replaceTrailingIndex, emptyIndexSegment.
  assert ("/"%char ∉ str "index") as Hindex.
  { vm_compute. intros H.
    repeat (apply elem_of_cons in H as [H|H]; [discriminate|]).
    by apply elem_of_nil in H. }
  change (str "/index") with (str "/" ++ str "index").
  destruct segments as [|seg segments _] using rev_ind.
  - cbn [last]. unfold slashed. cbn [flat_map]. rewrite app_nil_r.
    by rewrite stripSuffix_no_slash.
  - apply Forall_app in Hsegs as [_ Hseg].
    apply (proj1 (Forall_singleton _ _)) in Hseg.
    rewrite last_snoc, slashed_snoc, app_assoc.
    rewrite (stripSuffix_segment _ seg (str "index") Hseg Hindex).
    case_bool_decide.
    + unfold JS.pop. rewrite removelast_last, slashed_snoc.
      by rewrite app_nil_r, app_assoc.
    + by rewrite slashed_snoc, <- app_assoc.
Qed.

Lemma prefixed_index (x : jsstring) segments :
  x ++ slashed segments = str "index" <-> x = str "index" /\ segments = [].
Proof.
  split.
  - intros H. destruct segments as [|seg segments].
    + unfold slashed in H. cbn [flat_map] in H. by rewrite app_nil_r in H.
    + exfalso.
      assert ("/"%char ∈ str "index") as Hin.
      { rewrite <- H. apply elem_of_app. right. by apply slash_in_slashed. }
      vm_compute in Hin.
      repeat (apply elem_of_cons in Hin as [Hin|Hin]; [discriminate|]).
      by apply elem_of_nil in Hin.
  - intros [-> ->]. unfold slashed. cbn [flat_map]. by rewrite app_nil_r.
Qed.

(** A path is what precedes its first slash and its other segments. *)
Lemma split_prefixed (p first : jsstring) segments :
  JS.split "/"%char p = first :: segments ->
  p = first ++ slashed segments
  /\ ("/"%char ∉ first) /\ Forall (fun seg => "/"%char ∉ seg) segments.
Proof.
  intros Hsplit.
  assert (Forall (fun seg => "/"%char ∉ seg) (first :: segments)) as Hall.
  { rewrite <- Hsplit. apply Forall_forall. intros seg. apply split_segments. }
  apply Forall_cons in Hall as [Hfirst Hsegs]. split; [|done].
  rewrite <- (join_split "/"%char p) at 1. rewrite Hsplit.
  clear. revert first. induction segments as [|seg segments IH]; intros first.
  - unfold slashed. cbn. by rewrite app_nil_r.
  - rewrite join_cons by done. rewrite (IH seg). done.
Qed.

(** Lines 79-88 on the path that [cleanPath] returned. *)
Lemma routePathOfCleaned (p first : jsstring) segments :
  JS.split "/"%char p = first :: segments ->
  JS.orElse
    (replaceTrailingIndex
       (if bool_decide (stripPieceSuffix pieceSuffixes p = str "index")
        then str "/" else stripPieceSuffix pieceSuffixes p))
    (str "/")
  = routePathOfSegments first segments.
Proof.
  intros Hsplit.
  destruct (split_prefixed p first segments Hsplit) as (-> & Hfirst & Hsegs).
  unfold routePathOfSegments.
  rewrite stripPieceSuffix_prefixed by done.
  rewrite (bool_decide_ext _ _ (prefixed_index first (dropPieceSegment segments))).
  case_bool_decide; [done|].
  rewrite replaceTrailingIndex_prefixed;
    [done|done|by apply dropPieceSegment_segments].
Qed.

(** A file name that passed the filter and has one of the four
    extensions: a non-empty stem, a dot, and an extension without dot,
    slash or backslash. *)
Lemma qualifying_name cfg name :
  keepDirent cfg (File name) = true -> hasRouteExtension name = true ->
  exists stem ext,
    name = stem ++ "."%char :: ext /\ stem <> []
    /\ ("."%char ∉ ext) /\ ("/"%char ∉ ext) /\ replaceBackslash ext = ext.
Proof.
  unfold keepDirent, hasRouteExtension, JS.endsWith. cbn [direntName].
  destruct (JS.startsWith name (str ".")) eqn:Hdot; [done|]. intros _ Hext.
  assert (exists stem ext,
            name = stem ++ "."%char :: ext
            /\ ext ∈ [str "tsx"; str "ts"; str "jsx"; str "js"])
    as (stem & ext & -> & Hin).
  { repeat (apply orb_prop in Hext as [Hext|Hext]);
      apply bool_decide_eq_true_1 in Hext as [stem ->];
      eexists stem, _; (split; [reflexivity|]);
      rewrite !elem_of_cons; tauto. }
  exists stem, ext. split; [done|]. split.
  - intros ->. unfold JS.startsWith in Hdot.
    apply bool_decide_eq_false_1 in Hdot. apply Hdot.
    by exists ext.
  - repeat (apply elem_of_cons in Hin as [->|Hin]);
      [..|by apply elem_of_nil in Hin];
      (split; [|split; [|reflexivity]]); vm_compute; intros H;
      repeat (apply elem_of_cons in H as [H|H]; [discriminate|]);
      by apply elem_of_nil in H.
Qed.

Lemma replaceBackslash_app a b :
  replaceBackslash (a ++ b) = replaceBackslash a ++ replaceBackslash b.
Proof. apply map_app. Qed.

(** The path of a qualifying file, relative to the routes directory. *)
Lemma qualifying_path cfg dir name :
  keepDirent cfg (File name) = true -> hasRouteExtension name = true ->
  exists base ext,
    replaceBackslash (JS.pathJoin dir name) = base ++ "."%char :: ext
    /\ base <> [] /\ ("."%char ∉ ext) /\ ("/"%char ∉ ext).
Proof.
  intros Hkeep Hext.
  destruct (qualifying_name cfg name Hkeep Hext)
    as (stem & ext & -> & Hstem & Hdot & Hslash & Hrb).
  unfold JS.pathJoin. case_bool_decide.
  - exists (replaceBackslash stem), ext.
    rewrite replaceBackslash_app.
    change (replaceBackslash ("."%char :: ext)) with ("."%char :: replaceBackslash ext).
    rewrite Hrb. repeat split; try done. by destruct stem.
  - exists (replaceBackslash (dir ++ str "/" ++ stem)), ext.
    rewrite !app_assoc, replaceBackslash_app.
    change (replaceBackslash ("."%char :: ext)) with ("."%char :: replaceBackslash ext).
    rewrite Hrb. repeat split; try done.
    destruct dir; done.
Qed.

Lemma removeExt_app base ext :
  base <> [] -> "."%char ∉ ext -> removeExt (base ++ "."%char :: ext) = base.
Proof.
  intros Hbase Hext. unfold removeExt.
  rewrite lastIndexOf_app by done. cbn [JS.substring0].
  rewrite take_app_length. by destruct base.
Qed.

Lemma dotsToSlashes_app a b :
  dotsToSlashes (a ++ b) = dotsToSlashes a ++ dotsToSlashes b.
Proof. apply map_app. Qed.

Lemma dotsToSlashes_plain s : "."%char ∉ s -> dotsToSlashes s = s.
Proof.
  induction s as [|c s IH]; [done|]. intros Hs. cbn [dotsToSlashes map].
  destruct (Ascii.eqb_spec c "."%char) as [->|_]; [set_solver|].
  f_equal. apply IH. set_solver.
Qed.

(** The extension is the last of the segments the specification cuts. *)
Lemma pop_segments base ext :
  "."%char ∉ ext -> "/"%char ∉ ext ->
  JS.pop (JS.split "/"%char (dotsToSlashes (base ++ "."%char :: ext)))
  = JS.split "/"%char (dotsToSlashes base).
Proof.
  intros Hdot Hslash.
  rewrite dotsToSlashes_app.
  change (dotsToSlashes ("."%char :: ext)) with ("/"%char :: dotsToSlashes ext).
  rewrite (dotsToSlashes_plain ext) by done.
  rewrite split_app_sep, (split_no_sep _ ext) by done.
  unfold JS.pop. apply removelast_last.
Qed.

(** Lines 63-88 against the wording of the specification, for a path
    with a stem and an extension that [cleanPath] leaves as it is. *)
Lemma routePathOfFile_spec cleanPath relativePath base ext :
  replaceBackslash relativePath = base ++ "."%char :: ext ->
  base <> [] -> "."%char ∉ ext -> "/"%char ∉ ext ->
  cleanPath (dottedPath (replaceBackslash relativePath))
  = dottedPath (replaceBackslash relativePath) ->
  routePathOfFile cleanPath relativePath
  = routePathSpec (replaceBackslash relativePath).
Proof.
  intros Hpath Hbase Hdot Hslash Hclean.
  unfold routePathOfFile, rawRoutePath, routePathSpec. rewrite Hclean.
  unfold dottedPath. rewrite Hpath, removeExt_app, pop_segments by done.
  rewrite join_split_dots.
  set (segments := JS.split "/"%char (dotsToSlashes base)).
  assert (Forall (fun seg => "/"%char ∉ seg) segments) as Hsegs.
  { apply Forall_forall. intros seg. apply split_segments. }
  assert (str "/" ++ dotsToSlashes base = slashed segments) as ->.
  { rewrite slashed_join by apply split_nonempty.
    unfold segments. change (str "/") with ["/"%char].
    by rewrite join_split. }
  assert (JS.orElse (slashed segments) [] = slashed segments) as ->.
  { by destruct (slashed segments). }
  rewrite stripPieceSuffix_slashed by done.
  rewrite bool_decide_eq_false_2 by apply slashed_not_index.
  rewrite replaceTrailingIndex_slashed by by apply dropPieceSegment_segments.
  apply orElse_slashed.
Qed.

(** What [recurse] pushes: one node for each qualifying file met. *)
Lemma elem_of_scanFiles cleanPath cfg dir dirList node :
  node ∈ scanFiles cleanPath cfg dir dirList ->
  exists dir' name,
    keepDirent cfg (File name) = true /\ hasRouteExtension name = true
    /\ node = routeNodeOfFile cleanPath cfg (JS.pathJoin dir' name).
Proof.
  unfold scanFiles.
  induction dirList as [|[name|name entries] dirList IH]; cbn [flat_map].
  - intros H. by apply elem_of_nil in H.
  - rewrite elem_of_app. intros [H|H]; [|by apply IH].
    destruct (keepDirent cfg (File name)) eqn:Hkeep;
      [|by apply elem_of_nil in H].
    destruct (hasRouteExtension name) eqn:Hext;
      [|by apply elem_of_nil in H].
    apply list_elem_of_singleton in H as ->. by exists dir, name.
  - rewrite elem_of_app. intros [H|H]; [by apply elem_of_nil in H|by apply IH].
Qed.

Lemma elem_of_scanSubdirectory cleanPath cfg :
  forall dirent dir node,
    node ∈ scanSubdirectory cleanPath cfg dir dirent ->
    exists dir' name,
      keepDirent cfg (File name) = true /\ hasRouteExtension name = true
      /\ node = routeNodeOfFile cleanPath cfg (JS.pathJoin dir' name).
Proof.
  fix IH 1. intros [name|name entries] dir node; cbn [scanSubdirectory].
  - intros H. by apply elem_of_nil in H.
  - rewrite elem_of_app. intros [H|H]; [by apply elem_of_scanFiles in H|].
    revert H. generalize (JS.pathJoin dir name). intros sub.
    induction entries as [|e entries IHe]; cbn [flat_map].
    + intros H. by apply elem_of_nil in H.
    + rewrite elem_of_app. intros [H|H]; [|by apply IHe].
      destruct (keepDirent cfg e); [by apply IH in H|by apply elem_of_nil in H].
Qed.

Lemma elem_of_getRouteNodes cleanPath cfg dirList node :
  node ∈ getRouteNodes cleanPath cfg dirList ->
  exists dir name,
    keepDirent cfg (File name) = true /\ hasRouteExtension name = true
    /\ node = routeNodeOfFile cleanPath cfg (JS.pathJoin dir name).
Proof.
  unfold getRouteNodes, recurse. rewrite elem_of_app.
  intros [H|H]; [by apply elem_of_scanFiles in H|].
  revert H. induction dirList as [|e dirList IH]; cbn [flat_map].
  - intros H. by apply elem_of_nil in H.
  - rewrite elem_of_app. intros [H|H]; [|by apply IH].
    destruct (keepDirent cfg e);
      [by apply elem_of_scanSubdirectory in H|by apply elem_of_nil in H].
Qed.

(** The node of a file depends on [cleanPath] through one string. *)
Lemma routeNodeOfFile_clean cleanPath cfg relativePath :
  cleanPath (dottedPath (replaceBackslash relativePath))
  = dottedPath (replaceBackslash relativePath) ->
  routeNodeOfFile cleanPath cfg relativePath
  = routeNodeOfFile (fun p => p) cfg relativePath.
Proof.
  intros Hclean.
  unfold routeNodeOfFile, routePathOfFile, rawRoutePath. by rewrite Hclean.
Qed.

(** Lines 63-88 against the amended wording, whatever [cleanPath]
    does. *)
Lemma routePathOfFile_amended cleanPath relativePath base ext :
  replaceBackslash relativePath = base ++ "."%char :: ext ->
  base <> [] -> "."%char ∉ ext -> "/"%char ∉ ext ->
  routePathOfFile cleanPath relativePath
  = routePathAmended cleanPath (replaceBackslash relativePath).
Proof.
  intros Hpath Hbase Hdot Hslash.
  unfold routePathOfFile, rawRoutePath, routePathAmended, dottedPath.
  rewrite Hpath, removeExt_app, pop_segments by done.
  rewrite join_split_dots.
  assert (JS.join (str "/") (JS.split "/"%char (dotsToSlashes base))
          = dotsToSlashes base) as -> by apply (join_split "/"%char).
  set (p := cleanPath (str "/" ++ dotsToSlashes base)).
  assert (JS.orElse p [] = p) as -> by by destruct p.
  pose proof (split_nonempty "/"%char p) as Hne.
  destruct (JS.split "/"%char p) as [|first segments] eqn:Hsplit; [done|].
  by apply routePathOfCleaned.
Qed.

Lemma routeNodeOfFile_fresh cleanPath cfg relativePath :
  fresh (routeNodeOfFile cleanPath cfg relativePath).
Proof. done. Qed.

(** The scan leaves nodes without parent, local path or children. *)
Lemma preRouteNodes_fresh cleanPath cfg dirList :
  Forall fresh (preRouteNodes cleanPath cfg dirList).
Proof.
  apply Forall_forall. intros node Hnode. unfold preRouteNodes in Hnode.
  apply list_elem_of_filter in Hnode as [_ Hnode].
  apply ParentFacts.elem_of_multiSortBy in Hnode.
  apply elem_of_getRouteNodes in Hnode as (dir & name & _ & _ & ->).
  apply routeNodeOfFile_fresh.
Qed.

(** No route with the path ['/'] is given a child. *)
Lemma slash_route_has_no_child trimPathLeft pre :
  Forall fresh pre ->
  exists st,
    buildRouteTree trimPathLeft pre = Some st
    /\ (forall r n p pn,
          heap st !! r = Some n -> parent n = Some p -> heap st !! p = Some pn ->
          routePath pn <> str "/")
    /\ (forall q qn,
          heap st !! q = Some qn -> routePath qn = str "/" -> children qn = []).
Proof.
  intros Hfresh.
  destruct (ShapeFacts.handleNodes_shape trimPathLeft pre (length pre) Hfresh)
    as (st & Hrun & HI & (_ & _ & Hchildren) & _); [done|].
  exists st. split; [exact Hrun|].
  assert (forall r n p pn,
            heap st !! r = Some n -> parent n = Some p -> heap st !! p = Some pn ->
            routePath pn <> str "/") as Hparent.
  { intros r n p pn Hn Hp Hpn.
    destruct (tree_parent _ _ HI r n p Hn Hp) as [_ (pn' & Hpn' & Hslash & _)].
    congruence. }
  split; [exact Hparent|].
  intros q qn Hq Hslash. rewrite (Hchildren q qn Hq).
  apply ShapeFacts.filter_none. intros r _ Hr. unfold parentOf in Hr.
  destruct (heap st !! r) as [n|] eqn:Hn; [|done]. cbn in Hr.
  by apply (Hparent r n q qn).
Qed.

(** The scenario of the specification: three routes, none under
    another. *)
Lemma scenario_tree cleanPath trimPathLeft :
  Forall (fun p => cleanPath p = p)
    [str "/route"; str "/index"; str "/$id/route"] ->
  exists st,
    buildRouteTree trimPathLeft
      (preRouteNodes cleanPath Samples.config Samples.scenario) = Some st
    /\ routeTree st = [0; 1; 2]%nat
    /\ map (fun node => (filePath node, routePath node, parent node, children node))
         (heap st)
       = [ (str "route.tsx", str "/", None, []);
           (str "index.tsx", str "/", None, []);
           (str "$id/route.tsx", str "/$id", None, []) ].
Proof.
  intros Hclean.
  apply Forall_cons in Hclean as [Hroute Hclean].
  apply Forall_cons in Hclean as [Hindex Hclean].
  apply Forall_cons in Hclean as [Hid _].
  assert (getRouteNodes cleanPath Samples.config Samples.scenario
          = getRouteNodes (fun p => p) Samples.config Samples.scenario) as Hscan.
  { change (getRouteNodes cleanPath Samples.config Samples.scenario)
      with [routeNodeOfFile cleanPath Samples.config (str "route.tsx");
            routeNodeOfFile cleanPath Samples.config (str "index.tsx");
            routeNodeOfFile cleanPath Samples.config (str "$id/route.tsx")].
    rewrite (routeNodeOfFile_clean cleanPath _ (str "route.tsx")),
      (routeNodeOfFile_clean cleanPath _ (str "index.tsx")),
      (routeNodeOfFile_clean cleanPath _ (str "$id/route.tsx"))
      by assumption.
    reflexivity. }
  unfold preRouteNodes. rewrite Hscan.
  eexists. split; [vm_compute; reflexivity|]. split; reflexivity.
Qed.

(** A file beside a route file whose path is not ['/'] goes under that
    route. *)
Lemma nested_tree cleanPath trimPathLeft :
  Forall (fun p => cleanPath p = p) [str "/$id/route"; str "/$id/edit"] ->
  exists st,
    buildRouteTree trimPathLeft
      (preRouteNodes cleanPath Samples.config Samples.nested) = Some st
    /\ routeTree st = [0]%nat
    /\ map (fun node => (filePath node, routePath node, path node, parent node,
                         children node))
         (heap st)
       = [ (str "$id/route.tsx", str "/$id", Some (str "/$id"), None, [1%nat]);
           (str "$id/edit.tsx", str "/$id/edit", Some (str "/edit"), Some 0%nat, []) ].
Proof.
  intros Hclean.
  apply Forall_cons in Hclean as [Hroute Hclean].
  apply Forall_cons in Hclean as [Hedit _].
  assert (getRouteNodes cleanPath Samples.config Samples.nested
          = getRouteNodes (fun p => p) Samples.config Samples.nested) as Hscan.
  { change (getRouteNodes cleanPath Samples.config Samples.nested)
      with [routeNodeOfFile cleanPath Samples.config (str "$id/route.tsx");
            routeNodeOfFile cleanPath Samples.config (str "$id/edit.tsx")].
    rewrite (routeNodeOfFile_clean cleanPath _ (str "$id/route.tsx")),
      (routeNodeOfFile_clean cleanPath _ (str "$id/edit.tsx"))
      by assumption.
    reflexivity. }
  unfold preRouteNodes. rewrite Hscan.
  eexists. split; [vm_compute; reflexivity|]. split; reflexivity.
Qed.

End ScanFacts.




(** ** Concurrent invocations of [generator] *)

Module RunFacts.
Import Run.

Lemma lastStarted_app tr tr' :
  lastStarted (tr ++ tr') =
    match lastStarted tr' with
    | Some i => Some i
    | None => lastStarted tr
    end.
Proof.
  induction tr as [|e tr IH]; simpl.
  - by destruct (lastStarted tr').
  - rewrite IH. by destruct (lastStarted tr').
Qed.

Lemma fileAfter_app file tr tr' :
  fileAfter file (tr ++ tr') = fileAfter (fileAfter file tr) tr'.
Proof.
  revert file. induction tr as [|e tr IH]; intros file; simpl; [done|].
  destruct e; apply IH.
Qed.

(** Events that change nothing in the file. *)
Lemma fileAfter_still file evs :
  Forall (fun e => isLanded e = false) evs -> fileAfter file evs = file.
Proof. induction 1 as [|e evs He _ IH]; simpl; [done|]. by destruct e. Qed.

(** The file holds what it held at first, or what landed last. *)
Lemma fileAfter_cases file tr :
  fileAfter file tr = file
  \/ exists pre k c post,
       tr = pre ++ Landed k c :: post /\ fileAfter file tr = Some c.
Proof.
  induction tr as [|e tr IH] using rev_ind; [by left|].
  rewrite fileAfter_app.
  assert (fileAfter (fileAfter file tr) [e] = fileAfter file tr ->
          fileAfter (fileAfter file tr) [e] = file
          \/ exists pre k c post,
               tr ++ [e] = pre ++ Landed k c :: post
               /\ fileAfter (fileAfter file tr) [e] = Some c) as Hkeep.
  { intros ->. destruct IH as [IH|(pre & k' & c' & post & -> & IH)]; [by left|].
    right. exists pre, k', c', (post ++ [e]). split; [by rewrite <- app_assoc|done]. }
  destruct e as [k|k m|k r|k|k c|k c]; try (by apply Hkeep).
  right. by exists tr, k, c, [].
Qed.

(** Where an event of a trace that was extended lies. *)
Lemma app_eq_cons_split {A} (tr evs pre post : list A) (e : A) :
  tr ++ evs = pre ++ e :: post ->
  (exists post', tr = pre ++ e :: post' /\ post = post' ++ evs)
  \/ (exists pre', pre = tr ++ pre' /\ evs = pre' ++ e :: post).
Proof.
  revert pre. induction tr as [|a tr IH]; intros pre H; simpl in H.
  - right. by exists pre.
  - destruct pre as [|b pre]; simpl in H.
    + injection H as -> <-. left. by exists tr.
    + injection H as -> H.
      destruct (IH pre H) as [(post' & -> & ->)|(pre' & -> & ->)].
      * left. by exists post'.
      * right. by exists pre'.
Qed.

Lemma hasRead_app file tr evs k r :
  hasRead file tr k r -> hasRead file (tr ++ evs) k r.
Proof.
  intros (pre & post & -> & Hr). exists pre, (post ++ evs).
  split; [by rewrite <- app_assoc|done].
Qed.

Lemma calledBefore_app tr evs k c :
  calledBefore tr k c -> calledBefore (tr ++ evs) k c.
Proof.
  intros (pre & post & ->). exists pre, (post ++ evs). by rewrite <- app_assoc.
Qed.

Lemma writesJustified_app file tr evs :
  writesJustified file tr ->
  (forall pre' k c post',
     evs = pre' ++ Wrote k c :: post' ->
     lastStarted (tr ++ pre') = Some k
     /\ exists r, hasRead file (tr ++ pre') k r /\ r <> Some c) ->
  writesJustified file (tr ++ evs).
Proof.
  intros Hold Hnew pre k c post H.
  apply app_eq_cons_split in H as [(post' & -> & _)|(pre' & -> & ->)].
  - by apply (Hold pre k c post').
  - by apply (Hnew pre' k c post).
Qed.

Lemma landingsCalled_app tr evs :
  landingsCalled tr ->
  (forall pre' k c post',
     evs = pre' ++ Landed k c :: post' -> calledBefore (tr ++ pre') k c) ->
  landingsCalled (tr ++ evs).
Proof.
  intros Hold Hnew pre k c post H.
  apply app_eq_cons_split in H as [(post' & -> & _)|(pre' & -> & ->)].
  - by apply (Hold pre k c post').
  - by apply (Hnew pre' k c post).
Qed.

Lemma Inv_initial file : Inv file (initial file).
Proof.
  split; simpl; try done.
  - intros k Hk. by apply elem_of_nil in Hk.
  - intros pre k c post H. by destruct pre.
  - intros pre k c post H. by destruct pre.
Qed.

(** A step of invocation [i] that starts no invocation: the events
    [evs] are added, the file follows them, and what the invariant says
    of the new state of the invocation and of the new events holds. *)
Lemma Inv_resume file sys i t t' w' evs :
  Inv file sys -> tasks sys !! i = Some t ->
  latestTask w' = latestTask (world sys) ->
  trace w' = trace (world sys) ++ evs ->
  routeTreeFile w' = fileAfter (routeTreeFile (world sys)) evs ->
  (forall k, Started k ∉ evs) ->
  (taskOf t' = None \/ taskOf t' = taskOf t) ->
  (forall k c r, t' = ReadFileDone k c r ->
                 hasRead file (trace (world sys) ++ evs) k r) ->
  (forall k c, t' = AwaitMkdir k c ->
               exists r, hasRead file (trace (world sys) ++ evs) k r /\ r <> Some c) ->
  (forall k c, t' = AwaitWriteFile k c ->
               calledBefore (trace (world sys) ++ evs) k c) ->
  (forall pre' k c post',
     evs = pre' ++ Wrote k c :: post' ->
     lastStarted (trace (world sys) ++ pre') = Some k
     /\ exists r, hasRead file (trace (world sys) ++ pre') k r /\ r <> Some c) ->
  (forall pre' k c post',
     evs = pre' ++ Landed k c :: post' ->
     calledBefore (trace (world sys) ++ pre') k c) ->
  Inv file {| world := w'; tasks := <[i := t']> (tasks sys) |}.
Proof.
  intros [Hb Hu Hs Hsb Hf Hr Hm Hc Hw Hl] Hi Hlat Htr Hfile Hns Hid
    Hread Hmk Hcall Hwr Hland.
  assert (lastStarted evs = None) as Hnone.
  { clear -Hns. induction evs as [|e evs IH]; simpl; [done|].
    rewrite IH by (intros k Hk; apply (Hns k); by right).
    destruct e as [k| | | | |]; try done. destruct (Hns k). by left. }
  assert (forall j tj k, <[i := t']> (tasks sys) !! j = Some tj -> taskOf tj = Some k ->
            exists tj', tasks sys !! j = Some tj' /\ taskOf tj' = Some k) as Hold.
  { intros j tj k Hj Hk. destruct (decide (i = j)) as [->|Hne].
    - rewrite list_lookup_insert_eq in Hj by (by eapply lookup_lt_Some).
      injection Hj as <-. exists t. split; [done|]. destruct Hid; congruence.
    - rewrite list_lookup_insert_ne in Hj by done. eauto. }
  assert (forall j tj, <[i := t']> (tasks sys) !! j = Some tj ->
            (j = i /\ tj = t') \/ (j <> i /\ tasks sys !! j = Some tj)) as Hlook.
  { intros j tj Hj. destruct (decide (i = j)) as [->|Hne].
    - rewrite list_lookup_insert_eq in Hj by (by eapply lookup_lt_Some).
      left. split; congruence.
    - rewrite list_lookup_insert_ne in Hj by done. right. by split. }
  split; simpl; rewrite ?Hlat, ?Hfile, ?Htr.
  - intros j tj k Hj Hk. destruct (Hold j tj k Hj Hk) as (tj' & ? & ?). eauto.
  - intros j1 j2 t1 t2 k H1 H2 K1 K2.
    destruct (Hold j1 t1 k H1 K1) as (? & ? & ?).
    destruct (Hold j2 t2 k H2 K2) as (? & ? & ?). eauto.
  - rewrite lastStarted_app, Hnone. exact Hs.
  - intros k Hk. apply elem_of_app in Hk as [Hk|Hk]; [by apply Hsb|].
    by apply Hns in Hk.
  - by rewrite fileAfter_app, <- Hf.
  - intros j k c r Hj. destruct (Hlook j _ Hj) as [[_ <-]|[_ Hj']].
    + by eapply Hread.
    + apply hasRead_app. by eapply Hr.
  - intros j k c Hj. destruct (Hlook j _ Hj) as [[_ <-]|[_ Hj']].
    + by eapply Hmk.
    + destruct (Hm j k c Hj') as (r & ? & ?). exists r. split; [|done].
      by apply hasRead_app.
  - intros j k c Hj. destruct (Hlook j _ Hj) as [[_ <-]|[_ Hj']].
    + by eapply Hcall.
    + apply calledBefore_app. by eapply Hc.
  - by apply writesJustified_app.
  - by apply landingsCalled_app.
Qed.

Lemma Inv_invoke file sys : Inv file sys -> Inv file (step sys Invoke).
Proof.
  intros [Hb Hu Hs Hsb Hf Hr Hm Hc Hw Hl]. unfold step, start.
  set (l := latestTask (world sys)).
  set (announce := if negb (first (world sys)) then [Logged (l + 1) Generating]
                   else if skipMessage (world sys) then []
                        else [Logged (l + 1) Regenerating]).
  assert (Forall quiet announce) as Hq.
  { unfold announce. destruct (first (world sys)), (skipMessage (world sys));
      simpl; repeat constructor. }
  assert (forall j tj k, (tasks sys ++ [AwaitGenerate (l + 1)]) !! j = Some tj ->
            taskOf tj = Some k ->
            (tasks sys !! j = Some tj /\ (k <= l)%nat /\ (1 <= k)%nat)
            \/ (j = length (tasks sys) /\ tj = AwaitGenerate (l + 1)
                /\ k = (l + 1)%nat)) as Hold.
  { intros j tj k Hj Hk. apply lookup_app_Some in Hj as [Hj|[Hlen Hj]].
    - left. split; [done|]. pose proof (Hb j tj k Hj Hk). fold l in H. lia.
    - right. destruct (j - length (tasks sys))%nat as [|n] eqn:E; [|done].
      injection Hj as <-. simpl in Hk. injection Hk as <-.
      split; [lia|done]. }
  assert (forall j tj, (tasks sys ++ [AwaitGenerate (l + 1)]) !! j = Some tj ->
            tasks sys !! j = Some tj \/ tj = AwaitGenerate (l + 1)) as Hlook.
  { intros j tj Hj. apply lookup_app_Some in Hj as [Hj|[_ Hj]]; [by left|].
    right. destruct (j - length (tasks sys))%nat; [|done]. by injection Hj. }
  assert (lastStarted announce = None) as Hnone.
  { unfold announce. by destruct (first (world sys)), (skipMessage (world sys)). }
  assert (forall (e : event) pre' post',
            announce ++ [Started (l + 1)] = pre' ++ e :: post' -> quiet e \/ isWrite e = false /\ isLanded e = false)
    as Hev.
  { intros e pre' post' H.
    assert (e ∈ announce ++ [Started (l + 1)]) as Hin
      by (rewrite H; apply elem_of_app; right; by left).
    apply elem_of_app in Hin as [Hin|Hin].
    - left. rewrite Forall_forall in Hq. by apply Hq.
    - apply list_elem_of_singleton in Hin as ->. by right. }
  split; simpl.
  - intros j tj k Hj Hk. destruct (Hold j tj k Hj Hk) as [(_ & ? & ?)|(_ & _ & ->)]; lia.
  - intros j1 j2 t1 t2 k H1 H2 K1 K2.
    destruct (Hold j1 t1 k H1 K1) as [(? & ? & ?)|(? & _ & ?)];
      destruct (Hold j2 t2 k H2 K2) as [(? & ? & ?)|(? & _ & ?)]; eauto; lia.
  - rewrite !lastStarted_app. simpl.
    rewrite bool_decide_eq_false_2 by lia. done.
  - intros k Hk. rewrite !elem_of_app in Hk. destruct Hk as [Hk|[Hk|Hk]].
    + apply Hsb in Hk. fold l in Hk. lia.
    + rewrite Forall_forall in Hq. by apply Hq in Hk.
    + apply list_elem_of_singleton in Hk as [= ->]. lia.
  - rewrite !fileAfter_app. simpl. rewrite <- Hf.
    symmetry. apply fileAfter_still. eapply Forall_impl; [exact Hq|]. by intros [].
  - intros j k c r Hj. destruct (Hlook j _ Hj) as [Hj'|?]; [|done].
    apply hasRead_app. by eapply Hr.
  - intros j k c Hj. destruct (Hlook j _ Hj) as [Hj'|?]; [|done].
    destruct (Hm j k c Hj') as (r & ? & ?). exists r. split; [|done].
    by apply hasRead_app.
  - intros j k c Hj. destruct (Hlook j _ Hj) as [Hj'|?]; [|done].
    apply calledBefore_app. by eapply Hc.
  - apply writesJustified_app; [done|]. intros pre' k c post' H.
    by destruct (Hev _ _ _ H) as [?|[? _]].
  - apply landingsCalled_app; [done|]. intros pre' k c post' H.
    by destruct (Hev _ _ _ H) as [?|[_ ?]].
Qed.

Lemma Inv_step file sys a : Inv file sys -> Inv file (step sys a).
Proof.
  intros HI. destruct a as [|i s]; [by apply Inv_invoke|].
  unfold step. destruct (tasks sys !! i) as [t|] eqn:Hi; [|done].
  (* a step that leaves the trace as it is *)
  assert (forall w' t',
            latestTask w' = latestTask (world sys) ->
            trace w' = trace (world sys) ->
            routeTreeFile w' = routeTreeFile (world sys) ->
            (taskOf t' = None \/ t' = t
             \/ exists k c, t = AwaitGenerate k /\ t' = AwaitReadFile k c) ->
            Inv file {| world := w'; tasks := <[i := t']> (tasks sys) |}) as Hsame.
  { intros w' t' Hl Htr Hf Ht'.
    apply (Inv_resume file sys i t t' w' []); auto.
    - by rewrite app_nil_r.
    - intros k. apply not_elem_of_nil.
    - destruct Ht' as [?|[->|(k & c & -> & ->)]]; auto.
    - intros k c r ->. rewrite app_nil_r.
      destruct Ht' as [?|[<-|(? & ? & _ & ?)]]; [done| |done].
      by apply (inv_read _ _ HI i k c r).
    - intros k c ->. rewrite app_nil_r.
      destruct Ht' as [?|[<-|(? & ? & _ & ?)]]; [done| |done].
      by apply (inv_mkdir _ _ HI i k c).
    - intros k c ->. rewrite app_nil_r.
      destruct Ht' as [?|[<-|(? & ? & _ & ?)]]; [done| |done].
      by apply (inv_called _ _ HI i k c).
    - intros pre' k c post' H. by destruct pre'.
    - intros pre' k c post' H. by destruct pre'. }
  (* a step that adds one event that is no call of a write and no landing *)
  assert (forall e t',
            quiet e ->
            (taskOf t' = None \/ taskOf t' = taskOf t) ->
            (forall k c r, t' = ReadFileDone k c r ->
                           hasRead file (trace (world sys) ++ [e]) k r) ->
            (forall k c, t' = AwaitMkdir k c ->
               exists r, hasRead file (trace (world sys) ++ [e]) k r /\ r <> Some c) ->
            (forall k c, t' <> AwaitWriteFile k c) ->
            Inv file {| world := emit e (world sys);
                        tasks := <[i := t']> (tasks sys) |}) as Hquiet.
  { intros e t' He Hid Hread Hmk Hnw.
    apply (Inv_resume file sys i t t' _ [e]); auto.
    - simpl. by destruct e.
    - intros k Hk. apply list_elem_of_singleton in Hk. by subst e.
    - intros k c ->. by destruct (Hnw k c).
    - intros pre' k c post' H. destruct pre' as [|? [|? ?]]; [|done..].
      injection H as -> _. done.
    - intros pre' k c post' H. destruct pre' as [|? [|? ?]]; [|done..].
      injection H as -> _. done. }
  destruct t as [k|k c|k c r|k c|k c|k| |], s as [g| | | |]; cbn [resume];
    try (by apply Hsame; auto).
  - (* the content is generated *)
    apply Hsame; auto. right. right. by exists k, g.
  - (* the file is read *)
    apply Hquiet; [done|by right|..]; try done.
    intros k' c' r' [= -> -> <-]. exists (trace (world sys)), [].
    split; [done|]. by apply (inv_file _ _ HI).
  - (* resumed at line 462 *)
    unfold checkLatest. case_bool_decide as Hk; cbn [negb].
    + by apply Hsame; auto.
    + case_bool_decide as Hr.
      * apply Hquiet; [done|by right|done| |done].
        intros k' c' [= -> ->]. exists r. split; [|done].
        apply hasRead_app. by apply (inv_read _ _ HI i k' c').
      * apply Hquiet; [done|by left|done..].
  - (* resumed at line 468 *)
    unfold checkLatest. case_bool_decide as Hk; cbn [negb].
    + by apply Hsame; auto.
    + apply (Inv_resume file sys i (AwaitMkdir k c) _ _ [Wrote k c]); auto.
      * intros k' Hk'. by apply list_elem_of_singleton in Hk'.
      * done.
      * done.
      * intros k' c' [= -> ->]. by exists (trace (world sys)), [].
      * intros pre' k' c' post' H. destruct pre' as [|? [|? ?]]; [|done..].
        injection H as <- <- _. rewrite app_nil_r. split.
        -- rewrite (inv_started _ _ HI).
           pose proof (inv_bound _ _ HI i _ k Hi eq_refl).
           rewrite bool_decide_eq_false_2 by lia. f_equal.
           destruct (decide (latestTask (world sys) = k)); [done|].
           by destruct Hk.
        -- by apply (inv_mkdir _ _ HI i k c).
      * intros pre' k' c' post' H. by destruct pre' as [|? [|? ?]].
  - (* the content reaches the file *)
    apply (Inv_resume file sys i (AwaitWriteFile k c) _ _ [Landed k c]); auto.
    + intros k' Hk'. by apply list_elem_of_singleton in Hk'.
    + done.
    + done.
    + done.
    + intros pre' k' c' post' H. by destruct pre' as [|? [|? ?]].
    + intros pre' k' c' post' H. destruct pre' as [|? [|? ?]]; [|done..].
      injection H as <- <- _. rewrite app_nil_r.
      by apply (inv_called _ _ HI i k c).
  - (* the write is over *)
    apply Hquiet; [done|by left|done..].
Qed.

Lemma Inv_run file sys schedule : Inv file sys -> Inv file (run sys schedule).
Proof.
  revert sys. induction schedule as [|a schedule IH]; intros sys HI; [done|].
  simpl. apply IH. by apply Inv_step.
Qed.

End RunFacts.

(** C1. In every run of concurrent invocations: an older invocation that
    is resumed at one of the two checks before the write, after a newer
    invocation has started (and so has increased [latestTask]), returns;
    it does not throw, it writes nothing and the file is as it was.  And
    every write that is ever made is made by the invocation started last
    before it. *)
Theorem stale_invocation_discarded (file : option jsstring)
    (schedule : list Run.action) :
  let sys := Run.run (Run.initial file) schedule in
  (forall i older k newer,
     Run.tasks sys !! i = Some older -> Run.atGuard older k ->
     Run.Started newer ∈ Run.trace (Run.world sys) -> (k < newer)%nat ->
     let sys' := Run.step sys (Run.Resume i Run.Fulfilled) in
     Run.tasks sys' !! i = Some Run.Returned
     /\ Run.routeTreeFile (Run.world sys') = Run.routeTreeFile (Run.world sys)
     /\ Run.trace (Run.world sys') = Run.trace (Run.world sys))
  /\ (forall pre k content post,
        Run.trace (Run.world sys) = pre ++ Run.Wrote k content :: post ->
        Run.lastStarted pre = Some k).
Proof.
  intros sys.
  assert (Run.Inv file sys) as HI by apply RunFacts.Inv_run, RunFacts.Inv_initial.
  split.
  - intros i older k newer Hi Hguard Hnew Hlt sys'.
    assert (Run.latestTask (Run.world sys) <> k) as Hstale.
    { pose proof (Run.inv_started_bound _ _ HI newer Hnew). lia. }
    assert (i < length (Run.tasks sys))%nat as Hlen by by eapply lookup_lt_Some.
    unfold sys', Run.step. rewrite Hi.
    destruct Hguard as [(c & r & ->)|(c & ->)]; simpl; unfold Run.checkLatest;
      rewrite bool_decide_eq_true_2 by done; simpl;
      by rewrite list_lookup_insert_eq.
  - intros pre k content post Htr.
    by destruct (Run.inv_writes _ _ HI pre k content post Htr).
Qed.

(** C1, on two invocations: the first is overtaken while it waits for the
    file to be read. *)
Lemma stale_invocation_discarded_witness :
  let schedule :=
    [Run.Invoke; Run.Resume 0 (Run.Generated (str "old")); Run.Resume 0 Run.FileRead;
     Run.Invoke] in
  let sys := Run.run (Run.initial None) schedule in
  let sys' := Run.step sys (Run.Resume 0 Run.Fulfilled) in
  Run.tasks sys' !! 0%nat = Some Run.Returned
  /\ Run.routeTreeFile (Run.world sys') = Run.routeTreeFile (Run.world sys)
  /\ Run.trace (Run.world sys') = Run.trace (Run.world sys).
Proof.
  intros schedule sys sys'.
  refine (proj1 (stale_invocation_discarded None schedule) 0%nat
            (Run.ReadFileDone 1 (str "old") None) 1%nat 2%nat _ _ _ _).
  - reflexivity.
  - left. by exists (str "old"), None.
  - vm_compute. set_solver.
  - lia.
Defined.

Module AloneFacts.
Import Run.

(** What one invocation that runs alone leaves behind. *)
Lemma alone_spec content w :
  exists w',
    alone content w = (w', Returned)
    /\ routeTreeFile w' = Some content
    /\ writes w' =
         if bool_decide (routeTreeFile w = Some content) then writes w
         else writes w ++ [Wrote (latestTask w + 1) content].
Proof.
  unfold alone, start, resume, checkLatest, emit, writeFile.
  cbn [latestTask first skipMessage routeTreeFile trace].
  rewrite bool_decide_eq_false_2 by (intros H; by apply H).
  cbn [negb]. destruct (decide (routeTreeFile w = Some content)) as [Hfile|Hfile].
  - rewrite (bool_decide_eq_false_2 (routeTreeFile w <> Some content))
      by (intros H; by apply H).
    eexists. split; [reflexivity|]. split; [done|].
    rewrite bool_decide_eq_true_2 by done.
    unfold writes. cbn [trace]. rewrite !filter_app.
    destruct (first w), (skipMessage w); cbn; by rewrite ?app_nil_r.
  - rewrite (bool_decide_eq_true_2 (routeTreeFile w <> Some content)) by done.
    cbn [latestTask first skipMessage routeTreeFile trace].
    rewrite bool_decide_eq_false_2 by (intros H; by apply H).
    cbn [negb latestTask first skipMessage routeTreeFile trace].
    eexists. split; [reflexivity|]. split; [done|].
    rewrite bool_decide_eq_false_2 by done.
    unfold writes. cbn [trace]. rewrite !filter_app.
    destruct (first w), (skipMessage w); cbn; by rewrite ?app_nil_r.
Qed.

End AloneFacts.

(** C2, as first stated, fails for runs that overlap.  The first run
    finds no file and calls [fs.writeFile]; before that content is in the
    file a second run is made, generates the same content and reads: there
    is no file yet.  The first write then reaches the file and the first
    run completes.  The second run, which is the last started, compares its
    content with what it has read, goes on and calls [fs.writeFile] with a
    content that is byte for byte the one the file holds; it completes
    too. *)
Lemma overlapping_run_writes_same_content :
  let schedule :=
    [Run.Invoke; Run.Resume 0 (Run.Generated (str "tree")); Run.Resume 0 Run.FileRead;
     Run.Resume 0 Run.Fulfilled; Run.Resume 0 Run.Fulfilled;
     Run.Invoke; Run.Resume 1 (Run.Generated (str "tree")); Run.Resume 1 Run.FileRead;
     Run.Resume 0 Run.FileWritten; Run.Resume 0 Run.Fulfilled;
     Run.Resume 1 Run.Fulfilled; Run.Resume 1 Run.Fulfilled;
     Run.Resume 1 Run.FileWritten; Run.Resume 1 Run.Fulfilled] in
  let sys := Run.run (Run.initial None) schedule in
  let before :=
    [Run.Logged 1 Run.Generating; Run.Started 1; Run.Read 1 None; Run.Mkdir 1;
     Run.Wrote 1 (str "tree"); Run.Logged 2 Run.Regenerating; Run.Started 2;
     Run.Read 2 None; Run.Landed 1 (str "tree"); Run.Logged 1 Run.Processed;
     Run.Mkdir 2] in
  Run.tasks sys = [Run.Returned; Run.Returned]
  /\ Run.trace (Run.world sys)
     = before ++ Run.Wrote 2 (str "tree")
         :: [Run.Landed 2 (str "tree"); Run.Logged 2 Run.Processed]
  /\ Run.fileAfter None before = Some (str "tree").
Proof. repeat split. Qed.

(** C2, amended.  In any run, every call of [fs.writeFile] for the
    generated file is made by an invocation that has read the file before
    (line 453) and hands over a content that differs from the content it
    read; that is the content the file has at the call when no write has
    reached the file since the read.  An invocation that has read its own
    content returns when it is resumed, without a call of [fs.writeFile]
    and with the file as it was.  An invocation that runs to its end alone
    returns, leaves its content in the file and writes exactly when the
    file did not hold that content already; run again on the same content,
    it writes nothing and leaves the file as it is. *)
Theorem write_only_on_change (file : option jsstring)
    (schedule : list Run.action) :
  (forall pre k content post,
     Run.trace (Run.world (Run.run (Run.initial file) schedule))
     = pre ++ Run.Wrote k content :: post ->
     exists pre1 pre2 r,
       pre = pre1 ++ Run.Read k r :: pre2
       /\ r = Run.fileAfter file pre1
       /\ r <> Some content
       /\ (Forall (fun e => Run.isLanded e = false) pre2 ->
           Run.fileAfter file pre <> Some content))
  /\ (forall i k content,
        let sys := Run.run (Run.initial file) schedule in
        Run.tasks sys !! i = Some (Run.ReadFileDone k content (Some content)) ->
        let sys' := Run.step sys (Run.Resume i Run.Fulfilled) in
        Run.tasks sys' !! i = Some Run.Returned
        /\ Run.writes (Run.world sys') = Run.writes (Run.world sys)
        /\ Run.routeTreeFile (Run.world sys') = Run.routeTreeFile (Run.world sys))
  /\ (forall content w,
        exists w',
          Run.alone content w = (w', Run.Returned)
          /\ Run.routeTreeFile w' = Some content
          /\ Run.writes w' =
               if bool_decide (Run.routeTreeFile w = Some content) then Run.writes w
               else Run.writes w ++ [Run.Wrote (Run.latestTask w + 1) content])
  /\ (forall content w,
        let w1 := (Run.alone content w).1 in
        let w2 := (Run.alone content w1).1 in
        (Run.alone content w1).2 = Run.Returned
        /\ Run.routeTreeFile w2 = Run.routeTreeFile w1
        /\ Run.writes w2 = Run.writes w1).
Proof.
  split; [|split; [|split]].
  - intros pre k content post Htr.
    assert (Run.Inv file (Run.run (Run.initial file) schedule)) as HI
      by apply RunFacts.Inv_run, RunFacts.Inv_initial.
    destruct (Run.inv_writes _ _ HI pre k content post Htr)
      as (_ & r & (pre1 & pre2 & Hpre & Hr) & Hne).
    exists pre1, pre2, r. split; [done|]. split; [done|]. split; [done|].
    intros Hstill. rewrite Hpre, RunFacts.fileAfter_app.
    cbn [Run.fileAfter]. rewrite RunFacts.fileAfter_still by done. by rewrite <- Hr.
  - intros i k content sys Hi sys'. subst sys'. unfold Run.step. rewrite Hi.
    assert (i < length (Run.tasks sys))%nat as Hlt by by eapply lookup_lt_Some.
    cbn [Run.resume]. unfold Run.checkLatest.
    case_bool_decide; cbn [negb Run.world Run.tasks].
    + by rewrite list_lookup_insert_eq.
    + rewrite bool_decide_eq_false_2 by (intros H'; by apply H').
      cbn [Run.world Run.tasks]. rewrite list_lookup_insert_eq by done.
      split; [done|]. split; [|done].
      unfold Run.writes, Run.emit. cbn [Run.trace]. rewrite filter_app.
      by rewrite app_nil_r.
  - apply AloneFacts.alone_spec.
  - intros content w w1 w2.
    destruct (AloneFacts.alone_spec content w) as (w1' & E1 & F1 & _).
    assert (w1 = w1') as -> by (unfold w1; by rewrite E1).
    destruct (AloneFacts.alone_spec content w1') as (w2' & E2 & F2 & W2).
    assert (w2 = w2') as -> by (unfold w2; by rewrite E2).
    rewrite E2. simpl. split; [done|]. split; [congruence|].
    by rewrite W2, bool_decide_eq_true_2.
Qed.

(** C2, on one invocation that finds no file and writes it. *)
Lemma write_only_on_change_witness :
  exists pre1 pre2 r,
    [Run.Logged 1 Run.Generating; Run.Started 1; Run.Read 1 None; Run.Mkdir 1]
    = pre1 ++ Run.Read 1 r :: pre2
    /\ r = Run.fileAfter None pre1
    /\ r <> Some (str "tree")
    /\ (Forall (fun e => Run.isLanded e = false) pre2 ->
        Run.fileAfter None
          [Run.Logged 1 Run.Generating; Run.Started 1; Run.Read 1 None; Run.Mkdir 1]
        <> Some (str "tree")).
Proof.
  refine (proj1 (write_only_on_change None
                   [Run.Invoke; Run.Resume 0 (Run.Generated (str "tree"));
                    Run.Resume 0 Run.FileRead; Run.Resume 0 Run.Fulfilled;
                    Run.Resume 0 Run.Fulfilled])
            [Run.Logged 1 Run.Generating; Run.Started 1; Run.Read 1 None; Run.Mkdir 1]
            1%nat (str "tree") [] _).
  reflexivity.
Defined.

(** ** The rendered matches *)

Module RenderFacts.
Import Render.

Lemma Outlet_ext (r1 r2 : jsstring -> option Result) s s' matchId :
  getRenderedMatches s = getRenderedMatches s' ->
  (forall m, r1 m = r2 m) ->
  Outlet r1 s matchId = Outlet r2 s' matchId.
Proof.
  intros Hs Hr. unfold Outlet, Outlet_select. rewrite Hs.
  destruct (id <$> _) as [[|c m]|]; auto.
Qed.

Lemma renderComp_ext (r1 r2 : jsstring -> option Result) s s' matchId Comp :
  getRenderedMatches s = getRenderedMatches s' ->
  (forall m, r1 m = r2 m) ->
  renderComp r1 s matchId Comp = renderComp r2 s' matchId Comp.
Proof.
  intros Hs Hr. unfold renderComp.
  destruct (outlet Comp); [|done].
  by rewrite (Outlet_ext r1 r2 s s' matchId Hs Hr).
Qed.

Lemma MatchInner_ext (r1 r2 : jsstring -> option Result) router s s' matchId pe :
  getRenderedMatches s = getRenderedMatches s' ->
  (forall m, r1 m = r2 m) ->
  MatchInner r1 router s matchId pe = MatchInner r2 router s' matchId pe.
Proof.
  intros Hs Hr. unfold MatchInner, MatchInner_select. rewrite Hs.
  destruct (routeId <$> _) as [rid|]; [|done].
  destruct (_ <$> _) as [[[[st e] sp] lp]|]; [|done].
  destruct st; try done.
  destruct (routesById router !! rid) as [route|]; [|done].
  destruct (component (options route)) as [c|].
  - by apply renderComp_ext.
  - destruct (defaultComponent (routerOptions router)) as [c|].
    + by apply renderComp_ext.
    + by apply Outlet_ext.
Qed.

Lemma Match_ext rootId nfId fuel router s s' matchId :
  getRenderedMatches s = getRenderedMatches s' ->
  Match rootId nfId fuel router s matchId = Match rootId nfId fuel router s' matchId.
Proof.
  intros Hs. revert matchId. induction fuel as [|fuel IH]; intros matchId; [done|].
  simpl. unfold Match_select. rewrite Hs.
  destruct (routeId <$> _) as [[|c r]|]; try done.
  destruct (_ && _); [done|].
  destruct (routesById router !! (c :: r)) as [route|]; [|done].
  by rewrite (MatchInner_ext (Match rootId nfId fuel router s)
                (Match rootId nfId fuel router s') router s s' matchId _ Hs IH).
Qed.

End RenderFacts.

(** C9. [getRenderedMatches] returns the pending matches exactly when
    there are pending matches and one of them has [showPending] set, and
    the committed matches otherwise; and what [Matches], [Match],
    [MatchInner], [Outlet], [useMatch], [useMatches] and
    [useParentMatches] select or render depends on the state through this
    selection only. *)
Theorem getRenderedMatches_selects (rootRouteId throwGlobalNotFoundRouteId : jsstring) :
  (forall s pending,
     Render.pendingMatches s = Some pending ->
     (exists m, m ∈ pending /\ Render.showPending m = true) ->
     Render.getRenderedMatches s = pending)
  /\ (forall s,
        (forall pending, Render.pendingMatches s = Some pending ->
                         forall m, m ∈ pending -> Render.showPending m = false) ->
        Render.getRenderedMatches s = Render.matches s)
  /\ (forall s s',
        Render.getRenderedMatches s = Render.getRenderedMatches s' ->
        Render.Matches_select s = Render.Matches_select s'
        /\ Render.useMatches s = Render.useMatches s'
        /\ (forall matchId,
              Render.Match_select throwGlobalNotFoundRouteId matchId s
              = Render.Match_select throwGlobalNotFoundRouteId matchId s'
              /\ Render.MatchInner_select matchId s = Render.MatchInner_select matchId s'
              /\ Render.Outlet_select matchId s = Render.Outlet_select matchId s'
              /\ Render.useParentMatches matchId s = Render.useParentMatches matchId s'
              /\ forall from strict,
                   Render.useMatch from strict matchId s
                   = Render.useMatch from strict matchId s')
        /\ (forall fuel router,
              Render.Matches rootRouteId throwGlobalNotFoundRouteId fuel router s
              = Render.Matches rootRouteId throwGlobalNotFoundRouteId fuel router s'
              /\ forall matchId,
                   Render.Match rootRouteId throwGlobalNotFoundRouteId fuel router s matchId
                   = Render.Match rootRouteId throwGlobalNotFoundRouteId fuel router s'
                       matchId)).
Proof.
  split; [|split].
  - intros s pending Hp (m & Hm & Hshow). unfold Render.getRenderedMatches.
    rewrite Hp. destruct (existsb Render.showPending pending) eqn:E; [done|].
    rewrite <- not_true_iff_false, existsb_exists in E. destruct E.
    exists m. split; [by apply list_elem_of_In|done].
  - intros s H. unfold Render.getRenderedMatches.
    destruct (Render.pendingMatches s) as [pending|]; [|done].
    destruct (existsb Render.showPending pending) eqn:E; [|done].
    apply existsb_exists in E as (m & Hm & Hshow).
    rewrite (H pending eq_refl m) in Hshow; [done|by apply list_elem_of_In].
  - intros s s' Hs. split; [|split; [|split]].
    + unfold Render.Matches_select. by rewrite Hs.
    + done.
    + intros matchId.
      unfold Render.Match_select, Render.MatchInner_select, Render.Outlet_select,
        Render.useParentMatches, Render.useMatches, Render.useMatch.
      by rewrite Hs.
    + intros fuel router. split.
      * unfold Render.Matches, Render.Matches_select. rewrite Hs.
        destruct (Render.id <$> _) as [[|c m]|]; try done.
        by rewrite (RenderFacts.Match_ext _ _ fuel router s s' _ Hs).
      * intros matchId. by apply RenderFacts.Match_ext.
Qed.

Lemma getRenderedMatches_selects_witness :
  Render.getRenderedMatches Samples.navigating
  = [Samples.rootMatch; Samples.pendingPostsMatch]
  /\ Render.getRenderedMatches Samples.failing = Render.matches Samples.failing
  /\ Render.useMatches Samples.navigating = Render.useMatches Samples.navigated.
Proof.
  destruct (getRenderedMatches_selects Samples.rootRouteId
              Samples.throwGlobalNotFoundRouteId) as (Hpending & Hcommitted & Hsame).
  split; [|split].
  - apply Hpending; [reflexivity|].
    exists Samples.pendingPostsMatch. split; [|reflexivity]. right. left.
  - apply Hcommitted. intros pending Hnone. discriminate Hnone.
  - apply (Hsame Samples.navigating Samples.navigated). reflexivity.
Defined.

(** ** Errors and not-found signals in [Match] *)

Module MatchFacts.
Import Render.

Section WithIds.
Context (rootRouteId throwGlobalNotFoundRouteId : jsstring).

Local Abbreviation Match := (Match rootRouteId throwGlobalNotFoundRouteId).
Local Abbreviation Matches := (Matches rootRouteId throwGlobalNotFoundRouteId).
Local Abbreviation hasGlobalNotFound := (hasGlobalNotFound throwGlobalNotFoundRouteId).

(** The guard of lines 107-111. *)
Lemma Match_guard fuel router s matchId m :
  hasGlobalNotFound (getRenderedMatches s) = true ->
  findMatch (getRenderedMatches s) matchId = Some m ->
  routeId m <> [] -> routeId m <> rootRouteId ->
  Match (S fuel) router s matchId
  = Some (Throws (TError (NotFound {| global := true; data := None |}))).
Proof.
  intros Hnf Hm Hne Hroot. simpl. unfold Match_select. rewrite Hm, Hnf. simpl.
  destruct (routeId m) as [|c r] eqn:E; [done|].
  by rewrite bool_decide_eq_false_2.
Qed.

(** Past the guard, [Match] is [MatchInner] inside the boundaries. *)
Lemma Match_unguarded fuel router s matchId m route :
  findMatch (getRenderedMatches s) matchId = Some m ->
  routeId m <> [] ->
  hasGlobalNotFound (getRenderedMatches s)
  && negb (bool_decide (routeId m = rootRouteId)) = false ->
  routesById router !! routeId m = Some route ->
  Match (S fuel) router s matchId
  = inner ← MatchInner (Match fuel router s) router s matchId
              (pendingElementOf (resolvePendingComponent router route));
    Some (MatchBoundaries router route matchId inner).
Proof.
  intros Hm Hne Hguard Hroute. simpl. unfold Match_select. rewrite Hm. simpl.
  destruct (routeId m) as [|c r] eqn:E; [done|].
  by rewrite Hguard, Hroute.
Qed.

Lemma MatchInner_error renderMatch router s matchId m pe :
  findMatch (getRenderedMatches s) matchId = Some m ->
  status m = StatusError ->
  MatchInner renderMatch router s matchId pe = Some (Throws (TError (error m))).
Proof.
  intros Hm Hst. unfold MatchInner, MatchInner_select. rewrite Hm.
  cbn [fmap option_fmap option_map]. by rewrite Hst.
Qed.

Lemma Outlet_select_head root child rest s :
  getRenderedMatches s = root :: child :: rest ->
  Outlet_select (id root) s = Some (id child).
Proof.
  intros Hs. unfold Outlet_select. rewrite Hs. simpl.
  by rewrite bool_decide_eq_true_2.
Qed.

Lemma Outlet_child renderMatch s matchId childMatchId :
  Outlet_select matchId s = Some childMatchId -> childMatchId <> [] ->
  Outlet renderMatch s matchId = renderMatch childMatchId.
Proof.
  intros Hsel Hne. unfold Outlet. rewrite Hsel. by destruct childMatchId.
Qed.

Lemma findMatch_second root child rest :
  id child <> id root ->
  findMatch (root :: child :: rest) (id child) = Some child.
Proof.
  intros Hne. unfold findMatch. simpl.
  rewrite bool_decide_eq_false_2 by congruence.
  by rewrite bool_decide_eq_true_2.
Qed.

(** What the root match renders when the match below it throws the
    global not-found signal. *)
Lemma MatchInner_root_outlet fuel router s root child rest rootRoute :
  hasGlobalNotFound (getRenderedMatches s) = true ->
  getRenderedMatches s = root :: child :: rest ->
  id child <> [] -> id child <> id root ->
  routeId child <> [] -> routeId child <> rootRouteId ->
  routeId root <> [] ->
  routesById router !! routeId root = Some rootRoute ->
  status root = StatusSuccess ->
  rendersOutlet router rootRoute = true ->
  forall pe,
    MatchInner (Match (S fuel) router s) router s (id root) pe
    = Some (Throws (TError (NotFound {| global := true; data := None |}))).
Proof.
  intros Hnf Hs Hcid Hne Hcr Hcroot Hrid Hroute Hst Hout pe.
  assert (Outlet (Match (S fuel) router s) s (id root)
          = Some (Throws (TError (NotFound {| global := true; data := None |}))))
    as HOutlet.
  { rewrite (Outlet_child _ s (id root) (id child));
      [|by apply (Outlet_select_head root child rest)|done].
    apply (Match_guard fuel router s (id child) child); auto.
    rewrite Hs. by apply findMatch_second. }
  assert (findMatch (getRenderedMatches s) (id root) = Some root) as Hm.
  { rewrite Hs. unfold findMatch. simpl. by rewrite bool_decide_eq_true_2. }
  unfold MatchInner, MatchInner_select. rewrite Hm.
  cbn [fmap option_fmap option_map]. rewrite Hst, Hroute.
  unfold rendersOutlet in Hout.
  destruct (component (options rootRoute)) as [c|].
  - unfold renderComp. rewrite Hout, HOutlet. done.
  - destruct (defaultComponent (routerOptions router)) as [c|].
    + unfold renderComp. rewrite Hout, HOutlet. done.
    + exact HOutlet.
Qed.

Lemma MatchBoundaries_root_notFound router rootRoute matchId c e :
  isRoot rootRoute = true ->
  resolveNotFoundComponent router rootRoute = Some c ->
  MatchBoundaries router rootRoute matchId (Throws (TError (NotFound e)))
  = Rendered (EProvider (Some matchId) (ENotFound c (data e))).
Proof.
  intros Hroot Hc. unfold MatchBoundaries. rewrite Hc, Hroot.
  destruct (resolveErrorComponent router rootRoute);
    destruct (wantsSuspense router rootRoute); simpl;
    by rewrite andb_false_r.
Qed.

(** An error that is no not-found signal, at a match that has an
    error component. *)
Lemma MatchBoundaries_error router route matchId c e :
  isNotFound e = false ->
  resolveErrorComponent router route = Some c ->
  MatchBoundaries router route matchId (Throws (TError e))
  = Rendered (EProvider (Some matchId) (EError c e)).
Proof.
  intros He Hc. unfold MatchBoundaries. rewrite Hc.
  destruct (resolveNotFoundComponent router route);
    destruct (wantsSuspense router route); destruct e; simpl in *; done.
Qed.

(** A not-found signal is never shown through the error component. *)
Lemma MatchBoundaries_notFound router route matchId e :
  MatchBoundaries router route matchId (Throws (TError (NotFound e)))
  = match resolveNotFoundComponent router route with
    | Some c =>
        if global e && negb (isRoot route)
        then Throws (TError (NotFound e))
        else Rendered (EProvider (Some matchId) (ENotFound c (data e)))
    | None => Throws (TError (NotFound e))
    end.
Proof.
  unfold MatchBoundaries.
  destruct (resolveNotFoundComponent router route); simpl;
    [destruct (global e && negb (isRoot route))|];
    destruct (resolveErrorComponent router route);
    destruct (wantsSuspense router route); done.
Qed.

(** What is thrown below the outlet of a match that rendered with
    success leaves [MatchInner]. *)
Lemma MatchInner_outlet_throws renderMatch router s matchId m route t pe :
  findMatch (getRenderedMatches s) matchId = Some m ->
  status m = StatusSuccess ->
  routesById router !! routeId m = Some route ->
  rendersOutlet router route = true ->
  Outlet renderMatch s matchId = Some (Throws t) ->
  MatchInner renderMatch router s matchId pe = Some (Throws t).
Proof.
  intros Hm Hst Hroute Hout HOutlet.
  unfold MatchInner, MatchInner_select. rewrite Hm.
  cbn [fmap option_fmap option_map]. rewrite Hst, Hroute.
  unfold rendersOutlet in Hout.
  destruct (component (options route)) as [c|].
  - unfold renderComp. rewrite Hout, HOutlet. done.
  - destruct (defaultComponent (routerOptions router)) as [c|].
    + unfold renderComp. rewrite Hout, HOutlet. done.
    + exact HOutlet.
Qed.

(** The error component is missing only where it was switched off. *)
Lemma resolveErrorComponent_None router route :
  resolveErrorComponent router route = None <->
  errorComponent (options route) = ErrFalse
  \/ (errorComponent (options route) = ErrUnset
      /\ defaultErrorComponent (routerOptions router) = ErrFalse).
Proof.
  unfold resolveErrorComponent.
  destruct (errorComponent (options route)),
           (defaultErrorComponent (routerOptions router));
    split; try done; try (by left); try (by right);
    intros [?|[? ?]]; done.
Qed.

(** Without an error component there is no boundary in the way. *)
Lemma MatchBoundaries_no_boundary router route matchId e :
  isNotFound e = false ->
  resolveErrorComponent router route = None ->
  MatchBoundaries router route matchId (Throws (TError e)) = Throws (TError e).
Proof.
  intros He Hc. unfold MatchBoundaries. rewrite Hc.
  destruct (resolveNotFoundComponent router route);
    destruct (wantsSuspense router route); destruct e; simpl in *; done.
Qed.

End WithIds.
End MatchFacts.






(** ** [useBlocker] *)

Module BlockerFacts.
Import Blocker.

Lemma settlePromise_pending p v ps :
  ps !! p = Some None -> settlePromise p v ps !! p = Some (Some v).
Proof.
  intros H. unfold settlePromise. rewrite H.
  apply list_lookup_insert_eq. by eapply lookup_lt_Some.
Qed.

Lemma settlePromise_settled p v u ps :
  ps !! p = Some (Some u) -> settlePromise p v ps = ps.
Proof. intros H. unfold settlePromise. by rewrite H. Qed.

Lemma settlePromise_length p v ps : length (settlePromise p v ps) = length ps.
Proof.
  unfold settlePromise. destruct (ps !! p) as [[|]|]; try done.
  apply length_insert.
Qed.

Lemma mount_ready : ready mount.
Proof. by repeat split. Qed.

(** What the composed blocker does once a decision has been taken. *)
Lemma decided (h : Hook) (cb : callback) (decision : bool) :
  ready h -> cb = Resolve (promise h) decision ->
  let blocked := (blockerFnComposed None h).1 in
  let settled := call cb blocked in
  promises settled !! promise h = Some (Some decision)
  /\ call (proceed (resolver settled)) settled = settled
  /\ call (reset (resolver settled)) settled = settled
  /\ exists h',
       blockerFnResumed (promise h) settled = Some (h', decision)
       /\ ready h' /\ promise h' <> promise h
       /\ status (resolver h') = Idle
       /\ promises h' !! promise h = Some (Some decision).
Proof.
  intros (Hp & Hr & Hpend) -> blocked settled.
  assert (promises settled !! promise h = Some (Some decision)) as Hset.
  { simpl. by apply settlePromise_pending. }
  assert (promise h < length (promises h))%nat as Hlt by by eapply lookup_lt_Some.
  split; [exact Hset|]. split; [|split].
  - simpl. rewrite Hp. unfold call. simpl.
    by rewrite (settlePromise_settled _ _ decision) by by apply settlePromise_pending.
  - simpl. rewrite Hr. unfold call. simpl.
    by rewrite (settlePromise_settled _ _ decision) by by apply settlePromise_pending.
  - unfold blockerFnResumed. rewrite Hset. eexists. split; [done|].
    unfold setPromise_createPromise, createPromise, ready. simpl.
    rewrite !settlePromise_length. repeat split.
    + rewrite lookup_app_r by (rewrite settlePromise_length; lia).
      by rewrite settlePromise_length, Nat.sub_diag.
    + lia.
    + rewrite lookup_app_l by (rewrite settlePromise_length; lia).
      by apply settlePromise_pending.
Qed.

End BlockerFacts.

(** C3. Take a hook without [blockerFn] that waits for a decision.  When
    the blocker fires, the status of the resolver becomes ['blocked'] and
    the composed blocker awaits the promise of the hook, which is
    pending.  [proceed()] settles that promise with [true] and [reset()]
    with [false]; once settled, neither changes it again.  The blocker
    then answers with the settled value, so that the navigation held back
    is committed after [proceed()] and the location stays as it was after
    [reset()]; and the hook holds a new, pending promise, with an idle
    resolver bound to it. *)
Theorem blocker_resolver_contract (h : Blocker.Hook) (next location : jsstring) :
  Blocker.ready h ->
  let blocked := (Blocker.blockerFnComposed None h).1 in
  Blocker.status (Blocker.resolver blocked) = Blocker.Blocked
  /\ (Blocker.blockerFnComposed None h).2 = inr (Blocker.promise h)
  /\ Blocker.promises blocked !! Blocker.promise h = Some None
  /\ Blocker.blockerFnResumed (Blocker.promise h) blocked = None
  /\ (forall decision : bool,
        let settled :=
          Blocker.call (if decision then Blocker.proceed (Blocker.resolver blocked)
                        else Blocker.reset (Blocker.resolver blocked)) blocked in
        Blocker.promises settled !! Blocker.promise h = Some (Some decision)
        /\ Blocker.call (Blocker.proceed (Blocker.resolver settled)) settled = settled
        /\ Blocker.call (Blocker.reset (Blocker.resolver settled)) settled = settled
        /\ exists h',
             Blocker.blockerFnResumed (Blocker.promise h) settled = Some (h', decision)
             /\ Blocker.commitLocation decision next location
                = (if decision then next else location)
             /\ Blocker.ready h'
             /\ Blocker.promise h' <> Blocker.promise h
             /\ Blocker.status (Blocker.resolver h') = Blocker.Idle
             /\ Blocker.promises h' !! Blocker.promise h = Some (Some decision)).
Proof.
  intros Hready blocked. pose proof Hready as (Hp & Hr & Hpend).
  split; [done|]. split; [done|]. split; [done|]. split.
  { unfold Blocker.blockerFnResumed. simpl. by rewrite Hpend. }
  intros decision settled.
  destruct (BlockerFacts.decided h
              (if decision then Blocker.proceed (Blocker.resolver blocked)
               else Blocker.reset (Blocker.resolver blocked)) decision Hready)
    as (H1 & H2 & H3 & h' & H4 & H5 & H6 & H7 & H8).
  { simpl. by destruct decision. }
  split; [exact H1|]. split; [exact H2|]. split; [exact H3|].
  exists h'. split; [exact H4|]. split; [by destruct decision|]. done.
Qed.

(** C3, on the hook as it is after the first render. *)
Lemma blocker_resolver_contract_witness :
  Blocker.ready Blocker.mount
  /\ Blocker.status
       (Blocker.resolver (Blocker.blockerFnComposed None Blocker.mount).1)
     = Blocker.Blocked.
Proof.
  split; [exact BlockerFacts.mount_ready|].
  exact (proj1 (blocker_resolver_contract Blocker.mount (str "/next") (str "/here")
                  BlockerFacts.mount_ready)).
Defined.

(** * Part III: further properties of the code

    ** Looking matches up *)

Module SelectFacts.
Import Render.

Lemma findMatch_app ms ms' matchId :
  findMatch (ms ++ ms') matchId
  = match findMatch ms matchId with
    | Some m => Some m
    | None => findMatch ms' matchId
    end.
Proof.
  unfold findMatch. induction ms as [|d ms IH]; simpl; [done|].
  by case_bool_decide.
Qed.

Lemma findMatch_Some ms matchId m :
  findMatch ms matchId = Some m -> m ∈ ms /\ id m = matchId.
Proof.
  unfold findMatch. induction ms as [|d ms IH]; simpl; [done|].
  case_bool_decide as Hd.
  - intros [= <-]. split; [left|done].
  - intros H. destruct (IH H). split; [by right|done].
Qed.

Lemma findMatch_None ms matchId :
  findMatch ms matchId = None <-> forall m, m ∈ ms -> id m <> matchId.
Proof.
  unfold findMatch. induction ms as [|d ms IH]; simpl.
  - split; [|done]. intros _ m H. by apply elem_of_nil in H.
  - case_bool_decide as Hd.
    + split; [done|]. intros H. destruct (H d); [left|done].
    + rewrite IH. split.
      * intros H m [->|Hm]%elem_of_cons; [done|by apply H].
      * intros H m Hm. apply H. by right.
Qed.

(** The index of the first match with the id, when the list is cut
    there. *)
Lemma findIndex_split before m after matchId :
  id m = matchId -> (forall b, b ∈ before -> id b <> matchId) ->
  findIndex (before ++ m :: after) matchId = Some (length before).
Proof.
  intros Hm. induction before as [|b before IH]; intros Hbefore; simpl.
  - by rewrite bool_decide_eq_true_2.
  - rewrite bool_decide_eq_false_2 by (apply Hbefore; left).
    rewrite IH; [done|]. intros b' Hb'. apply Hbefore. by right.
Qed.

Lemma findIndex_None ms matchId :
  (forall m, m ∈ ms -> id m <> matchId) -> findIndex ms matchId = None.
Proof.
  induction ms as [|d ms IH]; intros H; simpl; [done|].
  rewrite bool_decide_eq_false_2 by (apply H; left).
  rewrite IH; [done|]. intros m Hm. apply H. by right.
Qed.

Lemma drop_last {A} (l : list A) :
  drop (length l - 1) l = match last l with Some x => [x] | None => [] end.
Proof.
  destruct l as [|x l _] using rev_ind; [done|].
  rewrite last_snoc, length_app. simpl.
  replace (length l + 1 - 1)%nat with (length l) by lia.
  by rewrite drop_app_length.
Qed.

End SelectFacts.

(** [getRouteMatch] looks a match up by id in the cached matches first,
    then in the pending ones, then in the committed ones: a match that is
    found has the id and comes from one of the three lists, a match of an
    earlier list hides those of the later lists, and nothing is found
    exactly when no match of the three lists has the id. *)
Theorem getRouteMatch_precedence (s : Render.RouterState) (matchId : jsstring) :
  let cached := Render.cachedMatches s in
  let pending := default [] (Render.pendingMatches s) in
  Render.getRouteMatch s matchId
  = match Render.findMatch cached matchId with
    | Some m => Some m
    | None =>
        match Render.findMatch pending matchId with
        | Some m => Some m
        | None => Render.findMatch (Render.matches s) matchId
        end
    end
  /\ (forall m,
        Render.getRouteMatch s matchId = Some m ->
        Render.id m = matchId
        /\ (m ∈ cached \/ m ∈ pending \/ m ∈ Render.matches s))
  /\ (Render.getRouteMatch s matchId = None
      <-> forall m,
            m ∈ cached \/ m ∈ pending \/ m ∈ Render.matches s ->
            Render.id m <> matchId).
Proof.
  intros cached pending.
  assert (Render.getRouteMatch s matchId
          = Render.findMatch (cached ++ pending ++ Render.matches s) matchId) as E
    by reflexivity.
  split; [|split].
  - rewrite E. by rewrite !SelectFacts.findMatch_app.
  - rewrite E. intros m [Hm Hid]%SelectFacts.findMatch_Some. split; [done|].
    by rewrite !elem_of_app in Hm.
  - rewrite E, SelectFacts.findMatch_None.
    split; intros H m Hm; apply H; by rewrite !elem_of_app in *.
Qed.

(** [useParentMatches] cuts the rendered matches at the first match that
    has the context id and returns what starts there: the context match
    itself, then the matches rendered below it; the matches above are
    left out.  When no rendered match has the context id, the index is
    [-1] and [slice] returns the last match alone. *)
Theorem useParentMatches_from_context (s : Render.RouterState)
    (contextMatchId : jsstring) :
  (forall before m after,
      Render.getRenderedMatches s = before ++ m :: after ->
      Render.id m = contextMatchId ->
      (forall b, b ∈ before -> Render.id b <> contextMatchId) ->
      Render.useParentMatches contextMatchId s = m :: after)
  /\ ((forall m, m ∈ Render.getRenderedMatches s -> Render.id m <> contextMatchId) ->
      Render.useParentMatches contextMatchId s
      = match last (Render.getRenderedMatches s) with
        | Some m => [m]
        | None => []
        end).
Proof.
  unfold Render.useParentMatches, Render.useMatches. split.
  - intros before m after -> Hm Hbefore.
    rewrite SelectFacts.findIndex_split by done.
    by rewrite drop_app_length.
  - intros Hnone. rewrite SelectFacts.findIndex_None by done.
    apply SelectFacts.drop_last.
Qed.

Lemma useParentMatches_from_context_witness :
  Render.useParentMatches (str "/posts") Samples.navigated
  = [Samples.pendingPostsMatch]
  /\ Render.useParentMatches (str "/nowhere") Samples.failing = [Samples.postsMatch].
Proof.
  split.
  - apply (proj1 (useParentMatches_from_context Samples.navigated (str "/posts"))
             [Samples.rootMatch] Samples.pendingPostsMatch []); [done..|].
    intros b ->%list_elem_of_singleton. discriminate.
  - apply (proj2 (useParentMatches_from_context Samples.failing (str "/nowhere"))).
    intros m Hm. vm_compute in Hm.
    repeat (apply elem_of_cons in Hm as [->|Hm]; [discriminate|]).
    by apply elem_of_nil in Hm.
Defined.

(** [Outlet] selects the match that follows the first match with the
    context id, and nothing when that match is the last one.  When no
    rendered match has the context id, the index is [-1] and the match
    selected is the first of the rendered matches. *)
Theorem Outlet_select_next (s : Render.RouterState) (matchId : jsstring) :
  (forall before m after,
      Render.getRenderedMatches s = before ++ m :: after ->
      Render.id m = matchId ->
      (forall b, b ∈ before -> Render.id b <> matchId) ->
      Render.Outlet_select matchId s = Render.id <$> head after)
  /\ ((forall m, m ∈ Render.getRenderedMatches s -> Render.id m <> matchId) ->
      Render.Outlet_select matchId s
      = Render.id <$> head (Render.getRenderedMatches s)).
Proof.
  unfold Render.Outlet_select. split.
  - intros before m after -> Hm Hbefore.
    rewrite SelectFacts.findIndex_split by done.
    rewrite lookup_app_r by lia.
    replace (length before + 1 - length before)%nat with 1%nat by lia.
    by destruct after.
  - intros Hnone. rewrite SelectFacts.findIndex_None by done.
    by destruct (Render.getRenderedMatches s).
Qed.

Lemma Outlet_select_next_witness :
  Render.Outlet_select (str "__root__") Samples.failing = Some (str "/posts")
  /\ Render.Outlet_select (str "/nowhere") Samples.failing = Some (str "__root__").
Proof.
  split.
  - apply (proj1 (Outlet_select_next Samples.failing (str "__root__"))
             [] Samples.rootMatch [Samples.postsMatch]); [done..|].
    intros b Hb. by apply elem_of_nil in Hb.
  - apply (proj2 (Outlet_select_next Samples.failing (str "/nowhere"))).
    intros m Hm. vm_compute in Hm.
    repeat (apply elem_of_cons in Hm as [->|Hm]; [discriminate|]).
    by apply elem_of_nil in Hm.
Defined.

(** ** [useMatch], [Matches] and pending matches *)

(** [useMatch] returns the rendered match that has the id of the context,
    whatever [from] says: [from] is only checked.  It is checked against
    the route of the context match unless [strict] is [false], and, in any
    case, a [from] that is the route of no rendered match makes the hook
    fail.  A [from] that is the route of the context match, or no [from],
    always gives the context match. *)
Theorem useMatch_returns_context_match (s : Render.RouterState)
    (from : option jsstring) (strict : option bool) (nearestMatchId : jsstring) :
  (forall m,
      Render.useMatch from strict nearestMatchId s = Some m ->
      Render.findMatch (Render.getRenderedMatches s) nearestMatchId = Some m
      /\ (strict <> Some false ->
          forall c f, from = Some (c :: f) -> Render.routeId m = c :: f))
  /\ (forall c f,
        from = Some (c :: f) ->
        (forall m, m ∈ Render.getRenderedMatches s -> Render.routeId m <> c :: f) ->
        Render.useMatch from strict nearestMatchId s = None)
  /\ (forall m,
        Render.findMatch (Render.getRenderedMatches s) nearestMatchId = Some m ->
        from = None \/ from = Some [] \/ from = Some (Render.routeId m) ->
        Render.useMatch from strict nearestMatchId s = Some m).
Proof.
  unfold Render.useMatch. split; [|split].
  - intros m.
    destruct (match from with
              | Some (c :: f) =>
                  List.find (fun d => bool_decide (Render.routeId d = c :: f))
                    (Render.getRenderedMatches s)
              | _ => Render.findMatch (Render.getRenderedMatches s) nearestMatchId
              end) as [found|] eqn:Hfound; [|done].
    cbn [mbind option_bind].
    destruct (default true strict
              && negb (bool_decide
                         (Render.routeId
                            <$> Render.findMatch (Render.getRenderedMatches s)
                                  nearestMatchId
                          = Some (Render.routeId found)))) eqn:Hcheck; [done|].
    intros Hm. split; [done|].
    intros Hstrict c f ->.
    apply find_some in Hfound as [_ Hroute].
    apply bool_decide_eq_true_1 in Hroute.
    assert (default true strict = true) as Hs by by destruct strict as [[]|].
    rewrite Hs in Hcheck. simpl in Hcheck.
    apply negb_false_iff, bool_decide_eq_true_1 in Hcheck.
    rewrite Hm in Hcheck. simpl in Hcheck. congruence.
  - intros c f -> Hnone.
    destruct (List.find (fun d => bool_decide (Render.routeId d = c :: f))
                (Render.getRenderedMatches s)) as [found|] eqn:Hfound; [|done].
    apply find_some in Hfound as [Hin Hroute].
    apply bool_decide_eq_true_1 in Hroute.
    destruct (Hnone found); [by apply list_elem_of_In|done].
  - intros m Hm Hfrom.
    assert (match from with
            | Some (c :: f) =>
                List.find (fun d => bool_decide (Render.routeId d = c :: f))
                  (Render.getRenderedMatches s)
            | _ => Render.findMatch (Render.getRenderedMatches s) nearestMatchId
            end
            = Some m
            \/ exists found,
                 match from with
                 | Some (c :: f) =>
                     List.find (fun d => bool_decide (Render.routeId d = c :: f))
                       (Render.getRenderedMatches s)
                 | _ => Render.findMatch (Render.getRenderedMatches s) nearestMatchId
                 end = Some found
                 /\ Render.routeId found = Render.routeId m) as Hfound.
    { destruct Hfrom as [->|[->| ->]]; [by left..|].
      destruct (Render.routeId m) as [|c f] eqn:Hr; [by left|]. right.
      destruct (List.find (fun d => bool_decide (Render.routeId d = c :: f))
                  (Render.getRenderedMatches s)) as [found|] eqn:Hf.
      - exists found. split; [done|].
        apply find_some in Hf as [_ Hroute].
        by apply bool_decide_eq_true_1 in Hroute.
      - apply SelectFacts.findMatch_Some in Hm as [Hin _].
        apply list_elem_of_In in Hin.
        pose proof (find_none _ _ Hf m Hin) as Hno. simpl in Hno.
        by rewrite bool_decide_eq_true_2 in Hno. }
    destruct Hfound as [->|(found & -> & Hroute)]; cbn [mbind option_bind];
      rewrite Hm; cbn [fmap option_fmap option_map];
      rewrite ?Hroute, bool_decide_eq_true_2 by done;
      by rewrite andb_false_r.
Qed.

Lemma useMatch_returns_context_match_witness :
  Render.useMatch (Some (str "/posts")) None (str "/posts") Samples.failing
  = Some Samples.postsMatch
  /\ Render.useMatch (Some (str "/other")) (Some false) (str "/posts") Samples.failing
     = None.
Proof.
  destruct (useMatch_returns_context_match Samples.failing (Some (str "/posts")) None
              (str "/posts")) as (_ & _ & Hgood).
  destruct (useMatch_returns_context_match Samples.failing (Some (str "/other"))
              (Some false) (str "/posts")) as (_ & Hbad & _).
  split.
  - apply Hgood; [reflexivity|]. right. right. reflexivity.
  - apply (Hbad "/"%char (str "other")); [reflexivity|].
    intros m Hm. vm_compute in Hm.
    repeat (apply elem_of_cons in Hm as [->|Hm]; [discriminate|]).
    by apply elem_of_nil in Hm.
Defined.

(** [Matches] puts the boundary with the built-in [ErrorComponent] around
    the first rendered match, and its [onCatch] throws nothing on: no
    error leaves [Matches], an error that leaves the first match is shown
    through the built-in component, and with no rendered match (or a
    first match without id) [null] is rendered. *)
Theorem Matches_lets_no_error_out
    (rootRouteId throwGlobalNotFoundRouteId : jsstring) (fuel : nat)
    (router : Render.Router) (s : Render.RouterState) (r : Render.Result) :
  Render.Matches rootRouteId throwGlobalNotFoundRouteId fuel router s = Some r ->
  (forall e, r <> Render.Throws (Render.TError e))
  /\ (forall c matchId e,
        Render.Matches_select s = Some (c :: matchId) ->
        Render.Match rootRouteId throwGlobalNotFoundRouteId fuel router s (c :: matchId)
        = Some (Render.Throws (Render.TError e)) ->
        r = Render.Rendered
              (Render.EProvider (Some (c :: matchId))
                 (Render.EError Render.BuiltinErrorComponent e)))
  /\ (Render.Matches_select s = None \/ Render.Matches_select s = Some [] ->
      r = Render.Rendered (Render.EProvider (Render.Matches_select s) Render.ENull)).
Proof.
  unfold Render.Matches. intros Hr. split; [|split].
  - intros e ->.
    destruct (Render.Matches_select s) as [[|c m]|]; cbn [mbind option_bind] in Hr;
      try discriminate.
    destruct (Render.Match _ _ fuel router s (c :: m)) as [[el|[e'|p]]|];
      cbn [mbind option_bind Render.CatchBoundary] in Hr; discriminate.
  - intros c matchId e Hsel Hmatch. rewrite Hsel in Hr.
    rewrite Hmatch in Hr. cbn [mbind option_bind Render.CatchBoundary] in Hr.
    congruence.
  - intros [Hsel|Hsel]; rewrite Hsel in Hr |- *;
      cbn [mbind option_bind Render.CatchBoundary] in Hr; congruence.
Qed.

Lemma Matches_lets_no_error_out_witness :
  Render.Matches Samples.rootRouteId Samples.throwGlobalNotFoundRouteId 3
    (Samples.router Render.ErrFalse) Samples.failing
  <> Some (Render.Throws (Render.TError (Render.OtherError (str "boom")))).
Proof.
  intros H.
  exact (proj1 (Matches_lets_no_error_out _ _ _ _ _ _ H) _ eq_refl).
Defined.

(** A rendered match with status ['pending'], past the guard of [Match]:
    when [showPending] is set, or when the match is wrapped in a suspense
    boundary, [Match] renders the pending element of the route ([null]
    without a pending component); otherwise the load promise of the match
    is thrown to the matches above. *)
Theorem pending_match_shows_pending_element
    (rootRouteId throwGlobalNotFoundRouteId : jsstring)
    (router : Render.Router) (s : Render.RouterState)
    (matchId : jsstring) (m : Render.RouteMatch) (route : Render.Route) (fuel : nat) :
  Render.findMatch (Render.getRenderedMatches s) matchId = Some m ->
  Render.routeId m <> [] ->
  Render.routesById router !! Render.routeId m = Some route ->
  Render.hasGlobalNotFound throwGlobalNotFoundRouteId (Render.getRenderedMatches s)
  && negb (bool_decide (Render.routeId m = rootRouteId)) = false ->
  Render.status m = Render.StatusPending ->
  Render.Match rootRouteId throwGlobalNotFoundRouteId (S fuel) router s matchId
  = Some (if Render.showPending m || Render.wantsSuspense router route
          then Render.Rendered
                 (Render.EProvider (Some matchId)
                    (Render.pendingElementOf
                       (Render.resolvePendingComponent router route)))
          else Render.Throws (Render.TPromise (Render.loadPromise m))).
Proof.
  intros Hm Hne Hroute Hguard Hst.
  rewrite (MatchFacts.Match_unguarded _ _ fuel router s matchId m route) by done.
  unfold Render.MatchInner, Render.MatchInner_select. rewrite Hm.
  cbn [fmap option_fmap option_map]. rewrite Hst.
  unfold Render.MatchBoundaries.
  destruct (Render.showPending m); cbn [mbind option_bind orb];
    destruct (Render.wantsSuspense router route);
    destruct (Render.resolveErrorComponent router route);
    destruct (Render.resolveNotFoundComponent router route); reflexivity.
Qed.

Lemma pending_match_shows_pending_element_witness :
  Render.Match Samples.rootRouteId Samples.throwGlobalNotFoundRouteId 1
    (Samples.router Render.ErrUnset) Samples.navigating (str "/posts")
  = Some (Render.Rendered (Render.EProvider (Some (str "/posts")) Render.ENull)).
Proof.
  apply (pending_match_shows_pending_element Samples.rootRouteId
           Samples.throwGlobalNotFoundRouteId (Samples.router Render.ErrUnset)
           Samples.navigating (str "/posts") Samples.pendingPostsMatch
           (Samples.postsRoute Render.ErrUnset) 0%nat);
    try reflexivity; discriminate.
Defined.

(** ** The depth of rendering *)

Module DepthFacts.
Import Render.

Lemma findIndex_lookup ms matchId i :
  findIndex ms matchId = Some i ->
  exists m, ms !! i = Some m /\ id m = matchId /\ findMatch ms matchId = Some m.
Proof.
  unfold findMatch. revert i. induction ms as [|d ms IH]; intros i; simpl; [done|].
  case_bool_decide as Hd.
  - intros [= <-]. by exists d.
  - destruct (findIndex ms matchId) as [j|] eqn:E; [|done].
    simpl. intros [= <-]. destruct (IH j eq_refl) as (m & Hm & Hid & Hfind).
    by exists m.
Qed.

Lemma findMatch_findIndex ms matchId m :
  findMatch ms matchId = Some m -> exists i, findIndex ms matchId = Some i.
Proof.
  unfold findMatch. induction ms as [|d ms IH]; simpl; [done|].
  case_bool_decide as Hd; [by exists 0%nat|].
  intros H. destruct (IH H) as [i ->]. by exists (S i).
Qed.

(** With distinct ids, a match is the first one that has its id. *)
Lemma findIndex_NoDup ms j c :
  NoDup (id <$> ms) -> ms !! j = Some c -> findIndex ms (id c) = Some j.
Proof.
  revert j. induction ms as [|d ms IH]; intros j Hnd Hj; [done|].
  rewrite fmap_cons in Hnd. apply NoDup_cons in Hnd as [Hd Hnd].
  destruct j as [|j]; simpl in *.
  - injection Hj as ->. by rewrite bool_decide_eq_true_2.
  - rewrite bool_decide_eq_false_2.
    + by rewrite (IH j Hnd Hj).
    + intros E. apply Hd. rewrite E. apply list_elem_of_fmap. exists c.
      split; [done|]. by eapply list_elem_of_lookup_2.
Qed.

Section WithIds.
Context (rootRouteId throwGlobalNotFoundRouteId : jsstring).

Lemma renderComp_total renderMatch s matchId c :
  is_Some (Outlet renderMatch s matchId) ->
  is_Some (renderComp renderMatch s matchId c).
Proof.
  intros [r Hr]. unfold renderComp. destruct (outlet c); [|by eexists].
  rewrite Hr. simpl. destruct r; by eexists.
Qed.

Lemma MatchInner_total renderMatch router s matchId pe :
  is_Some (Outlet renderMatch s matchId) ->
  is_Some (MatchInner renderMatch router s matchId pe).
Proof.
  intros Hout. unfold MatchInner.
  destruct (MatchInner_select matchId s) as [[routeId|] [[[[st e] sp] lp]|]];
    try (by eexists).
  destruct st; try (by eexists); [destruct sp; by eexists|].
  destruct (routesById router !! routeId) as [route|]; [|by eexists].
  destruct (component (options route)); [by apply renderComp_total|].
  destruct (defaultComponent (routerOptions router)); [by apply renderComp_total|].
  done.
Qed.

(** The nesting of the matches that are rendered is bounded by the
    number of rendered matches after the one at hand. *)
Lemma Match_total router s :
  NoDup (id <$> getRenderedMatches s) ->
  forall fuel matchId i,
    findIndex (getRenderedMatches s) matchId = Some i ->
    (length (getRenderedMatches s) - i <= fuel)%nat ->
    is_Some (Match rootRouteId throwGlobalNotFoundRouteId fuel router s matchId).
Proof.
  intros Hnd. induction fuel as [|fuel IH]; intros matchId i Hi Hfuel.
  - destruct (findIndex_lookup _ _ _ Hi) as (m & Hm & _).
    apply lookup_lt_Some in Hm. lia.
  - cbn [Match]. destruct (Match_select throwGlobalNotFoundRouteId matchId s)
      as [[[|c r]|] nf]; [by eexists| |by eexists].
    destruct (nf && _); [by eexists|].
    destruct (routesById router !! (c :: r)) as [route|]; [|by eexists].
    assert (is_Some (MatchInner
                       (Match rootRouteId throwGlobalNotFoundRouteId fuel router s)
                       router s matchId
                       (pendingElementOf (resolvePendingComponent router route))))
      as [inner ->]; [|by eexists].
    apply MatchInner_total. unfold Outlet, Outlet_select. rewrite Hi.
    destruct (getRenderedMatches s !! (i + 1)%nat) as [child|] eqn:Hchild;
      [|by eexists].
    simpl. destruct (id child) as [|c' childId] eqn:Hid; [by eexists|].
    rewrite <- Hid. apply (IH (id child) (i + 1)%nat); [|lia].
    by apply findIndex_NoDup.
Qed.

End WithIds.

End DepthFacts.

(** Rendering comes to an end when the rendered matches have distinct
    ids: [Match] renders the match below through [Outlet], each time one
    place further down the list, so that a nesting of one more than the
    number of rendered matches is never exceeded, whatever the routes
    render.  (With an id that occurs twice, [Outlet] would step back to
    the first match that has it.) *)
Theorem rendering_terminates
    (rootRouteId throwGlobalNotFoundRouteId : jsstring)
    (router : Render.Router) (s : Render.RouterState) (fuel : nat) :
  NoDup (Render.id <$> Render.getRenderedMatches s) ->
  (length (Render.getRenderedMatches s) < fuel)%nat ->
  is_Some (Render.Matches rootRouteId throwGlobalNotFoundRouteId fuel router s)
  /\ forall matchId,
       is_Some (Render.Match rootRouteId throwGlobalNotFoundRouteId fuel router s
                  matchId).
Proof.
  intros Hnd Hfuel.
  assert (forall matchId,
            is_Some (Render.Match rootRouteId throwGlobalNotFoundRouteId fuel router s
                       matchId)) as Htotal.
  { intros matchId.
    destruct (Render.findMatch (Render.getRenderedMatches s) matchId) as [m|] eqn:Hm.
    - destruct (DepthFacts.findMatch_findIndex _ _ _ Hm) as [i Hi].
      apply (DepthFacts.Match_total _ _ router s Hnd fuel matchId i Hi). lia.
    - destruct fuel as [|fuel]; [lia|]. simpl. unfold Render.Match_select.
      rewrite Hm. by eexists. }
  split; [|done]. unfold Render.Matches.
  destruct (Render.Matches_select s) as [[|c m]|]; try (by eexists).
  destruct (Htotal (c :: m)) as [r ->]. by eexists.
Qed.

Lemma rendering_terminates_witness :
  is_Some (Render.Matches Samples.rootRouteId Samples.throwGlobalNotFoundRouteId 3
             (Samples.router Render.ErrUnset) Samples.failing).
Proof.
  apply (rendering_terminates Samples.rootRouteId Samples.throwGlobalNotFoundRouteId
           (Samples.router Render.ErrUnset) Samples.failing 3).
  - vm_compute. repeat constructor; intros H;
      repeat (apply elem_of_cons in H as [H|H]; [discriminate|]);
      by apply elem_of_nil in H.
  - vm_compute. lia.
Defined.

(** ** [multiSortBy] on input that is in order *)

Module SortFacts.

Lemma StronglySorted_from_lookup {A} (R : A -> A -> Prop) (l : list A) :
  (forall i j a b, (i < j)%nat -> l !! i = Some a -> l !! j = Some b -> R a b) ->
  StronglySorted R l.
Proof.
  induction l as [|x l IH]; intros H; constructor.
  - apply IH. intros i j a b Hij Ha Hb. apply (H (S i) (S j)); [lia|done..].
  - apply Forall_forall. intros y Hy.
    apply list_elem_of_lookup_1 in Hy as [j Hj].
    apply (H 0%nat (S j)); [lia|done..].
Qed.

(** Sorting a list that is in order already returns it. *)
Lemma arraySort_of_sorted {T} (cmp : T * nat -> T * nat -> Z) (l : list (T * nat)) :
  StronglySorted (fun a b => cmp a b <= 0) l -> arraySort cmp l = l.
Proof.
  induction 1 as [|x l Hs IH Hall]; [done|].
  unfold arraySort in *. simpl. rewrite IH.
  destruct l as [|y l]; [done|]. simpl.
  apply Forall_cons in Hall as [Hxy _].
  by rewrite (proj2 (Z.leb_le _ _) Hxy).
Qed.

(** The indices matter to the comparator only through their order. *)
Lemma compareEntries_reindex {T} (accessors : list (accessor T))
    (a b : T) (i j i' j' : nat) :
  compareEntries accessors (a, i) (b, j) <= 0 -> (i' <= j')%nat ->
  compareEntries accessors (a, i') (b, j') <= 0.
Proof.
  intros H Hle. induction accessors as [|f fs IH]; simpl in *; [lia|].
  destruct (isUndefined (f a)).
  - destruct (isUndefined (f b)); [by apply IH|done].
  - destruct (strictEq (f a) (f b)); [by apply IH|done].
Qed.

Lemma withIndex_lookup {T} (arr : list T) i e :
  withIndex arr !! i = Some e <-> arr !! i = Some e.1 /\ e.2 = i.
Proof.
  unfold withIndex. rewrite list_lookup_imap. destruct e as [d' k].
  destruct (arr !! i) as [d|]; simpl; split.
  - by intros [= -> ->].
  - by intros [[= ->] ->].
  - done.
  - by intros [? _].
Qed.

Lemma multiSortBy_of_sorted {T} (arr : list T) (accessors : list (accessor T)) :
  (forall i j a b, (i < j)%nat -> arr !! i = Some a -> arr !! j = Some b ->
                   compareEntries accessors (a, i) (b, j) <= 0) ->
  multiSortBy arr accessors = arr.
Proof.
  intros H. unfold multiSortBy, sortedEntries.
  rewrite arraySort_of_sorted; [apply withIndex_fst|].
  apply StronglySorted_from_lookup. intros i j [a ai] [b bj] Hij Ha Hb.
  apply withIndex_lookup in Ha as [Ha Hi], Hb as [Hb Hj]. simpl in *. subst.
  by apply (H i j).
Qed.

End SortFacts.

(** When no accessor tells two items of the array apart (in particular
    when the list of accessors is empty, or when every accessor is
    undefined on every item), [multiSortBy] returns the array in the order
    it had: the original index decides every comparison. *)
Theorem multiSortBy_keeps_order_of_ties {T : Type} (arr : list T)
    (accessors : list (accessor T)) :
  (forall f a b, f ∈ accessors -> a ∈ arr -> b ∈ arr -> f a = f b) ->
  multiSortBy arr accessors = arr.
Proof.
  intros Htie. apply SortFacts.multiSortBy_of_sorted.
  intros i j a b Hij Ha Hb.
  rewrite compareEntries_tie; [simpl; lia|].
  intros f Hf. simpl. apply Htie; [done|by eapply list_elem_of_lookup_2..].
Qed.

Lemma multiSortBy_keeps_order_of_ties_witness :
  multiSortBy [3; 1; 2] [fun _ : Z => None; fun _ : Z => Some (VStr (str "k"))]
  = [3; 1; 2].
Proof.
  apply multiSortBy_keeps_order_of_ties.
  intros f a b Hf _ _.
  repeat (apply elem_of_cons in Hf as [->|Hf]; [reflexivity|]).
  by apply elem_of_nil in Hf.
Defined.



(** ** [hasParentRoute] *)

Module AncestorFacts.
Import StringFacts ParentFacts.

(** A route that is an ancestor of the path: what the loop of lines
    563-572 tests, the third test being implied by the second. *)
Lemma isParentOf_spec p (route : nat * RouteNode) :
  isParentOf p route = true
  <-> routePath route.2 <> str "/" /\ (routePath route.2 ++ str "/") `prefix_of` p.
Proof.
  unfold isParentOf, JS.startsWith.
  rewrite !andb_true_iff, !negb_true_iff, !bool_decide_eq_false, bool_decide_eq_true.
  split; [tauto|]. intros [Hroot Hpre]. split; [done|].
  intros Heq. apply prefix_length in Hpre. rewrite Heq, length_app in Hpre.
  change (length (str "/")) with 1%nat in Hpre. lia.
Qed.

(** An ancestor of the path without its last segment is an ancestor of
    the path. *)
Lemma isParentOf_shortened p route :
  isParentOf (JS.join (str "/") (JS.pop (JS.split "/"%char p))) route = true ->
  isParentOf p route = true.
Proof.
  rewrite !isParentOf_spec. intros [Hroot Hpre]. split; [done|].
  destruct (parent_path "/"%char p) as [Hnil|[seg Hseg]].
  - change [("/")%char] with (str "/") in Hnil. rewrite Hnil in Hpre.
    apply prefix_nil_inv in Hpre. by destruct (routePath route.2).
  - change [("/")%char] with (str "/") in Hseg.
    rewrite Hseg. by apply prefix_app_r.
Qed.

(** Once the loop has found no ancestor, the calls on shortened paths
    find none either. *)
Lemma hasParentRoute_go_none fuel routes p r :
  List.find (isParentOf p) (parentCandidates routes) = None ->
  hasParentRoute_go fuel routes p = Some r -> r = None.
Proof.
  revert p. induction fuel as [|fuel IH]; intros p Hnone; simpl; [done|].
  destruct (_ || _); [congruence|]. rewrite Hnone. intros Hr.
  eapply IH; [|exact Hr].
  destruct (List.find (isParentOf (JS.join _ _)) _) as [route|] eqn:E; [|done].
  apply find_some in E as [Hin Hp]. apply isParentOf_shortened in Hp.
  pose proof (find_none _ _ Hnone route Hin). congruence.
Qed.

Lemma find_first_sorted {A} (R : A -> A -> Prop) (P : A -> bool) l x y :
  StronglySorted R l -> List.find P l = Some x -> y ∈ l -> P y = true ->
  x = y \/ R x y.
Proof.
  induction 1 as [|z l Hs IH Hall]; simpl; [done|].
  destruct (P z) eqn:Hz.
  - intros [= ->] [->|Hy]%elem_of_cons _; [by left|right].
    rewrite Forall_forall in Hall. by apply Hall.
  - intros Hx [->|Hy]%elem_of_cons Hy'; [congruence|]. by apply IH.
Qed.

Lemma StronglySorted_filter {A} (R : A -> A -> Prop) (P : A -> Prop)
    `{!forall x, Decision (P x)} l :
  StronglySorted R l -> StronglySorted R (filter P l).
Proof.
  induction 1 as [|z l Hs IH Hall]; [constructor|].
  rewrite filter_cons. destruct (decide (P z)); [|done].
  constructor; [done|]. rewrite Forall_forall in Hall. apply Forall_forall.
  intros y [_ Hy]%list_elem_of_filter. by apply Hall.
Qed.

Lemma comparable_parentSortAccessors routes :
  Forall (comparable routes) parentSortAccessors.
Proof.
  repeat constructor; intros x y a b _ _ [= <-] [= <-]; exact I.
Qed.

(** The routes are tried from the longest route path to the shortest. *)
Lemma parentCandidates_sorted routes :
  StronglySorted
    (fun a b : nat * RouteNode =>
       (length (routePath b.2) <= length (routePath a.2))%nat)
    (parentCandidates routes).
Proof.
  unfold parentCandidates. apply StronglySorted_filter.
  apply SortFacts.StronglySorted_from_lookup. intros i j a b Hij Ha Hb.
  unfold multiSortBy in Ha, Hb. rewrite list_lookup_fmap in Ha, Hb.
  destruct (sortedEntries routes parentSortAccessors !! i) as [[a' ai]|] eqn:Ei;
    [|done].
  destruct (sortedEntries routes parentSortAccessors !! j) as [[b' bj]|] eqn:Ej;
    [|done].
  simpl in Ha, Hb. injection Ha as ->. injection Hb as ->.
  assert (compareEntries parentSortAccessors (a, ai) (b, bj) <= 0) as Hle.
  { eapply (StronglySorted_lookup_lt
              (fun x y => compareEntries parentSortAccessors x y <= 0)
              (sortedEntries routes parentSortAccessors) i j); eauto.
    apply (arraySort_sorted parentSortAccessors (fun e => e.1 ∈ routes)).
    - intros x y z Hx Hy Hz.
      apply compareEntries_trans;
        by apply (comparable_agree routes);
          [apply comparable_parentSortAccessors|..].
    - apply Forall_forall. intros [d k] Hd. apply elem_of_withIndex in Hd.
      simpl. eapply list_elem_of_lookup_2; eauto. }
  revert Hle. unfold parentSortAccessors. cbn [compareEntries isUndefined strictEq
    greaterThan jsval_eqb jsval_gtb toPrimitive fst snd].
  destruct (Z.eqb_spec (Z.of_nat (length (routePath a.2)) * -1)
              (Z.of_nat (length (routePath b.2)) * -1)) as [E|E]; [lia|].
  destruct (Z.ltb_spec (Z.of_nat (length (routePath b.2)) * -1)
              (Z.of_nat (length (routePath a.2)) * -1)); lia.
Qed.

Lemma elem_of_parentCandidates_2 routes d :
  d ∈ routes -> routePath d.2 <> str "/" ++ rootPathId -> d ∈ parentCandidates routes.
Proof.
  intros Hd Hroot. unfold parentCandidates.
  apply list_elem_of_filter. split; [done|]. by apply elem_of_multiSortBy.
Qed.

Lemma parentCandidates_not_root routes d :
  d ∈ parentCandidates routes -> routePath d.2 <> str "/" ++ rootPathId.
Proof. unfold parentCandidates. rewrite list_elem_of_filter. tauto. Qed.

End AncestorFacts.

(** [hasParentRoute] returns what its loop finds on the path it is given:
    the first of the routes, taken from the longest route path to the
    shortest and without the root file's route, whose path is not ['/']
    and, followed by a slash, starts the path.  The calls it makes on the
    path without its last segments never find a route that this first
    pass missed.  For the empty path and for ['/'] there is no parent. *)
Theorem hasParentRoute_first_candidate (routes : list (nat * RouteNode))
    (routePathToCheck : jsstring) :
  hasParentRoute routes routePathToCheck
  = Some (if bool_decide (routePathToCheck = [])
             || bool_decide (routePathToCheck = str "/")
          then None
          else fst <$> List.find (isParentOf routePathToCheck)
                         (parentCandidates routes)).
Proof.
  destruct (ParentFacts.hasParentRoute_total routes routePathToCheck) as [r Hr].
  rewrite Hr. f_equal.
  destruct (bool_decide (routePathToCheck = [])
            || bool_decide (routePathToCheck = str "/")) eqn:Hedge.
  - unfold hasParentRoute in Hr. simpl in Hr. rewrite Hedge in Hr. congruence.
  - destruct (List.find (isParentOf routePathToCheck) (parentCandidates routes))
      as [route|] eqn:E.
    + unfold hasParentRoute in Hr. simpl in Hr. rewrite Hedge, E in Hr.
      by injection Hr as <-.
    + by apply (AncestorFacts.hasParentRoute_go_none _ routes routePathToCheck r E)
        in Hr.
Qed.

(** The parent [hasParentRoute] returns is the nearest ancestor among the
    routes: a route other than ['/'] and the root file's route whose path,
    followed by a slash, starts the path that is checked, and no such
    route has a longer path.  For a path other than ['/'], no parent is
    returned only when the routes hold no such route. *)
Theorem hasParentRoute_nearest_ancestor (routes : list (nat * RouteNode))
    (routePathToCheck : jsstring) :
  let ancestor (node : RouteNode) :=
    routePath node <> str "/" /\ routePath node <> str "/" ++ rootPathId
    /\ (routePath node ++ str "/") `prefix_of` routePathToCheck in
  (forall r,
      hasParentRoute routes routePathToCheck = Some (Some r) ->
      exists node,
        (r, node) ∈ routes /\ ancestor node
        /\ forall r' node',
             (r', node') ∈ routes -> ancestor node' ->
             (length (routePath node') <= length (routePath node))%nat)
  /\ (hasParentRoute routes routePathToCheck = Some None ->
      routePathToCheck <> str "/" ->
      forall r' node', (r', node') ∈ routes -> ~ ancestor node').
Proof.
  intros ancestor. rewrite hasParentRoute_first_candidate. split.
  - intros r. destruct (_ || _); [done|].
    destruct (List.find _ _) as [[r0 node]|] eqn:E; [|done].
    intros [= <-]. exists node.
    pose proof E as Hfound. apply find_some in Hfound as [Hin Hp].
    apply list_elem_of_In in Hin.
    apply AncestorFacts.isParentOf_spec in Hp as [Hroot Hpre].
    split; [by apply ParentFacts.elem_of_parentCandidates|].
    split.
    { split; [done|]. split; [|done].
      by apply (AncestorFacts.parentCandidates_not_root routes (r0, node)). }
    intros r' node' Hin' (Hroot' & Hfile' & Hpre').
    destruct (AncestorFacts.find_first_sorted _ _ _ (r0, node) (r', node')
                (AncestorFacts.parentCandidates_sorted routes) E) as [[= <- <-]|Hle].
    + by apply AncestorFacts.elem_of_parentCandidates_2.
    + by apply AncestorFacts.isParentOf_spec.
    + done.
    + done.
  - destruct (_ || _) eqn:Hedge.
    + intros _ Hslash r' node' _ (Hroot & _ & Hpre).
      apply orb_true_iff in Hedge as [Hp|Hp]; apply bool_decide_eq_true_1 in Hp;
        [|done].
      rewrite Hp in Hpre. apply prefix_nil_inv in Hpre.
      by destruct (routePath node').
    + destruct (List.find _ _) as [route|] eqn:E; [done|].
      intros _ _ r' node' Hin (Hroot & Hfile & Hpre).
      assert (isParentOf routePathToCheck (r', node') = true) as Hp
        by by apply AncestorFacts.isParentOf_spec.
      assert ((r', node') ∈ parentCandidates routes) as Hc
        by by apply AncestorFacts.elem_of_parentCandidates_2.
      apply list_elem_of_In in Hc.
      pose proof (find_none _ _ E _ Hc). congruence.
Qed.

(** ** The string helpers of the generator *)

Module HelperFacts.

Lemma lastIndexOf_None c s : JS.lastIndexOf c s = None <-> c ∉ s.
Proof.
  induction s as [|d s IH]; simpl.
  - split; [intros _; apply not_elem_of_nil|done].
  - destruct (JS.lastIndexOf c s) as [i|].
    + split; [done|]. intros H. exfalso.
      assert (c ∉ s) as Hs by (intros ?; apply H; by right).
      apply IH in Hs. done.
    + destruct (Ascii.eqb_spec d c) as [->|Hne].
      * split; [done|]. intros H. destruct H. left.
      * split; [|done]. intros _ [->|H]%elem_of_cons; [done|].
        by apply (proj1 IH).
Qed.

Lemma startsWith_cons s c d :
  JS.startsWith (d :: s) [c] = bool_decide (d = c).
Proof.
  unfold JS.startsWith. apply bool_decide_ext. split.
  - intros [k Hk]. simpl in Hk. by injection Hk as ->.
  - intros ->. by exists s.
Qed.

Lemma startsWith_nil p : p <> [] -> JS.startsWith [] p = false.
Proof.
  intros Hp. unfold JS.startsWith. apply bool_decide_eq_false_2.
  intros H. by apply prefix_nil_inv in H.
Qed.

Lemma startsWith_two s c d x :
  JS.startsWith (x :: s) [c; d] = true -> x = c /\ JS.startsWith s [d] = true.
Proof.
  unfold JS.startsWith. rewrite !bool_decide_eq_true.
  intros [k Hk]. simpl in Hk. injection Hk as -> Hk. split; [done|].
  exists k. by rewrite Hk.
Qed.

Lemma startsWith_elem s p c : JS.startsWith s p = true -> c ∈ p -> c ∈ s.
Proof.
  unfold JS.startsWith. rewrite bool_decide_eq_true. intros [k ->] Hc.
  apply elem_of_app. by left.
Qed.

Lemma endsWith_elem s p c : JS.endsWith s p = true -> c ∈ p -> c ∈ s.
Proof.
  unfold JS.endsWith. rewrite bool_decide_eq_true. intros [k ->] Hc.
  apply elem_of_app. by right.
Qed.

(** The first replacement of [removeUnderscores]. *)
Lemma dropEdgeUnderscore_plain s : "_"%char ∉ s -> dropEdgeUnderscore s = s.
Proof.
  intros Hs. unfold dropEdgeUnderscore.
  destruct (JS.startsWith s (str "_")) eqn:E1.
  { destruct Hs. apply (startsWith_elem _ _ _ E1). left. }
  destruct (JS.endsWith s (str "_")) eqn:E2; [|done].
  destruct Hs. apply (endsWith_elem _ _ _ E2). left.
Qed.

Lemma dropEdgeUnderscore_length s :
  (length s - 1 <= length (dropEdgeUnderscore s) <= length s)%nat.
Proof.
  unfold dropEdgeUnderscore.
  destruct (JS.startsWith s (str "_")); [rewrite length_drop; lia|].
  destruct (JS.endsWith s (str "_")); [rewrite length_take; lia|lia].
Qed.

Lemma dropEdgeUnderscore_sub s c : c ∈ dropEdgeUnderscore s -> c ∈ s.
Proof.
  unfold dropEdgeUnderscore.
  destruct (JS.startsWith s (str "_")).
  { intros H. rewrite <- (take_drop 1 s). apply elem_of_app. by right. }
  destruct (JS.endsWith s (str "_")); [|done].
  intros H. rewrite <- (take_drop (length s - 1) s). apply elem_of_app. by left.
Qed.

(** The second replacement of [removeUnderscores]. *)
Lemma dropSlashUnderscore_plain s :
  "_"%char ∉ s \/ "/"%char ∉ s -> dropSlashUnderscore s = s.
Proof.
  induction s as [|c s IH]; intros Hs; [done|]. simpl.
  destruct (JS.startsWith (c :: s) (str "/_")) eqn:E1.
  { destruct Hs as [Hs|Hs]; destruct Hs;
      apply (startsWith_elem _ _ _ E1); [right; left|left]. }
  destruct (JS.startsWith (c :: s) (str "_/")) eqn:E2.
  { destruct Hs as [Hs|Hs]; destruct Hs;
      apply (startsWith_elem _ _ _ E2); [left|right; left]. }
  simpl. f_equal. apply IH.
  destruct Hs as [Hs|Hs]; [left|right]; intros H; apply Hs; by right.
Qed.

Lemma dropSlashUnderscore_length s :
  (length s - 1 <= length (dropSlashUnderscore s) <= length s)%nat.
Proof.
  induction s as [|c s IH]; [simpl; lia|]. simpl.
  destruct (JS.startsWith (c :: s) (str "/_") || JS.startsWith (c :: s) (str "_/"))
    eqn:E.
  - assert (s <> []) as Hs.
    { intros ->. apply orb_true_iff in E as [E|E];
        apply startsWith_two in E as [_ E];
        by rewrite startsWith_nil in E. }
    destruct s; [done|]. simpl. rewrite length_drop. lia.
  - simpl. lia.
Qed.

(** The two replacements of [removeTrailingUnderscores]. *)
Lemma dropUnderscoreSlash_plain s :
  JS.includes s (str "_/") = false -> dropUnderscoreSlash s = s.
Proof.
  induction s as [|c s IH]; [done|]. simpl.
  intros [E1 E2]%orb_false_iff. rewrite E1. f_equal. by apply IH.
Qed.

Lemma dropUnderscoreSlash_length s :
  (length s - 1 <= length (dropUnderscoreSlash s) <= length s)%nat.
Proof.
  induction s as [|c s IH]; [simpl; lia|]. simpl.
  destruct (JS.startsWith (c :: s) (str "_/")) eqn:E.
  - assert (s <> []) as Hs.
    { intros ->. apply startsWith_two in E as [_ E].
      by rewrite startsWith_nil in E. }
    destruct s; [done|]. simpl. rewrite length_drop. lia.
  - simpl. lia.
Qed.

Lemma dropTrailingUnderscore_length s :
  (length s - 1 <= length (dropTrailingUnderscore s) <= length s)%nat.
Proof.
  unfold dropTrailingUnderscore.
  destruct (JS.endsWith s (str "_")); [rewrite length_take; lia|lia].
Qed.

Lemma startsWith_take s p n :
  JS.startsWith (take n s) p = true -> JS.startsWith s p = true.
Proof.
  unfold JS.startsWith. rewrite !bool_decide_eq_true. intros H.
  etrans; [exact H|]. apply prefix_take.
Qed.

Lemma includes_take s p n :
  JS.includes (take n s) p = true -> JS.includes s p = true.
Proof.
  revert n. induction s as [|c s IH]; intros n.
  - by rewrite take_nil.
  - destruct n as [|n].
    + simpl. intros H. rewrite orb_false_r in H.
      apply orb_true_iff. left. revert H. unfold JS.startsWith.
      rewrite !bool_decide_eq_true. intros H. apply prefix_nil_inv in H as ->.
      apply prefix_nil.
    + simpl. intros [H|H]%orb_true_iff; apply orb_true_iff.
      * left. by apply (startsWith_take (c :: s) p (S n)).
      * right. by apply (IH n).
Qed.

Lemma slash_removers_agree s :
  JS.includes s (str "/_") = false -> dropSlashUnderscore s = dropUnderscoreSlash s.
Proof.
  induction s as [|c s IH]; [done|]. simpl.
  intros [E1 E2]%orb_false_iff. rewrite E1. simpl.
  destruct (JS.startsWith (c :: s) (str "_/")); [done|].
  f_equal. by apply IH.
Qed.

(** [replaceAll('$', '$$')] changes nothing. *)
Lemma replaceAllWith_dollar fuel before s :
  JS.replaceAllWith_go fuel (str "$") (str "$$") before s = s.
Proof.
  revert before s. induction fuel as [|fuel IH]; intros before s; [done|].
  destruct s as [|c s]; [done|]. cbn [JS.replaceAllWith_go].
  change (str "$") with ["$"%char]. rewrite startsWith_cons.
  case_bool_decide as Hc.
  - subst c. change (length ["$"%char]) with 1%nat. cbn [drop].
    rewrite IH. reflexivity.
  - by rewrite IH.
Qed.

End HelperFacts.

(** [removeExt] cuts a file name at its last dot: the result starts the
    name and is never empty for a name that is not; a name without a dot
    is returned as it is, and so is a name whose only dot is its first
    character (the cut would leave nothing); otherwise what comes before
    the last dot is returned. *)
Theorem removeExt_cuts_at_last_dot (d : jsstring) :
  removeExt d `prefix_of` d
  /\ (d <> [] -> removeExt d <> [])
  /\ ("."%char ∉ d -> removeExt d = d)
  /\ (forall ext, d = "."%char :: ext -> "."%char ∉ ext -> removeExt d = d)
  /\ (forall base ext,
        d = base ++ "."%char :: ext -> base <> [] -> "."%char ∉ ext ->
        removeExt d = base).
Proof.
  split; [|split; [|split; [|split]]].
  - unfold removeExt, JS.substring0, JS.orElse.
    destruct (JS.lastIndexOf "."%char d) as [n|]; [|reflexivity].
    destruct (take n d) eqn:E; [reflexivity|]. rewrite <- E. apply prefix_take.
  - unfold removeExt. by destruct (JS.substring0 _ _), d.
  - intros Hd. unfold removeExt.
    by rewrite (proj2 (HelperFacts.lastIndexOf_None _ _) Hd).
  - intros ext -> Hext. unfold removeExt.
    pose proof (ScanFacts.lastIndexOf_app "."%char [] ext Hext) as E.
    change ([] ++ "."%char :: ext) with ("."%char :: ext) in E. by rewrite E.
  - intros base ext -> Hbase Hext. by apply ScanFacts.removeExt_app.
Qed.

(** [replaceBackslash] leaves no backslash, keeps the length of its
    argument, returns an argument without backslash as it is, and applied
    twice does what it does once. *)
Theorem replaceBackslash_leaves_none (s : jsstring) :
  ("\"%char ∉ replaceBackslash s)
  /\ length (replaceBackslash s) = length s
  /\ ("\"%char ∉ s -> replaceBackslash s = s)
  /\ replaceBackslash (replaceBackslash s) = replaceBackslash s.
Proof.
  assert (forall t, "\"%char ∉ t -> replaceBackslash t = t) as Hplain.
  { induction t as [|c t IH]; [done|]. intros Ht. cbn [replaceBackslash map].
    destruct (Ascii.eqb_spec c "\"%char) as [->|_]; [set_solver|].
    f_equal. apply IH. set_solver. }
  assert ("\"%char ∉ replaceBackslash s) as Hnone.
  { induction s as [|c s IH]; [apply not_elem_of_nil|].
    cbn [replaceBackslash map].
    destruct (Ascii.eqb_spec c "\"%char) as [->|Hc];
      intros [E|H]%elem_of_cons; try done; congruence. }
  split; [done|]. split; [apply length_map|]. split; [apply Hplain|].
  by apply Hplain.
Qed.

(** [removeUnderscores] removes at most two characters and none from a
    path without underscore.  Its first replacement acts once: an
    underscore at the start is removed and, with no slash in the path, the
    rest is kept, an underscore at its end too. *)
Theorem removeUnderscores_removes_little (s : jsstring) :
  (length s - 2 <= length (removeUnderscores s) <= length s)%nat
  /\ ("_"%char ∉ s -> removeUnderscores s = s)
  /\ (forall t, s = "_"%char :: t -> "/"%char ∉ t -> removeUnderscores s = t).
Proof.
  unfold removeUnderscores. split; [|split].
  - pose proof (HelperFacts.dropEdgeUnderscore_length s).
    pose proof (HelperFacts.dropSlashUnderscore_length (dropEdgeUnderscore s)). lia.
  - intros Hs. rewrite HelperFacts.dropEdgeUnderscore_plain by done.
    apply HelperFacts.dropSlashUnderscore_plain. by left.
  - intros t -> Ht.
    assert (dropEdgeUnderscore ("_"%char :: t) = t) as ->.
    { unfold dropEdgeUnderscore. change (str "_") with ["_"%char].
      rewrite HelperFacts.startsWith_cons. by rewrite bool_decide_eq_true_2. }
    apply HelperFacts.dropSlashUnderscore_plain. by right.
Qed.

(** [removeTrailingUnderscores] removes at most two characters, and none
    from a path that neither ends with an underscore nor has an underscore
    before a slash: an underscore at the start of a segment is kept.  On a
    path that does not start with an underscore and has no underscore
    after a slash it does what [removeUnderscores] does. *)
Theorem removeTrailingUnderscores_keeps_leading (s : jsstring) :
  (length s - 2 <= length (removeTrailingUnderscores s) <= length s)%nat
  /\ (JS.endsWith s (str "_") = false -> JS.includes s (str "_/") = false ->
      removeTrailingUnderscores s = s)
  /\ (JS.startsWith s (str "_") = false -> JS.includes s (str "/_") = false ->
      removeTrailingUnderscores s = removeUnderscores s).
Proof.
  unfold removeTrailingUnderscores, removeUnderscores. split; [|split].
  - pose proof (HelperFacts.dropTrailingUnderscore_length s).
    pose proof (HelperFacts.dropUnderscoreSlash_length (dropTrailingUnderscore s)).
    lia.
  - intros Hend Hin. unfold dropTrailingUnderscore. rewrite Hend.
    by apply HelperFacts.dropUnderscoreSlash_plain.
  - intros Hstart Hin.
    assert (dropEdgeUnderscore s = dropTrailingUnderscore s) as ->.
    { unfold dropEdgeUnderscore, dropTrailingUnderscore. by rewrite Hstart. }
    symmetry. apply HelperFacts.slash_removers_agree.
    unfold dropTrailingUnderscore. destruct (JS.endsWith s (str "_")); [|done].
    destruct (JS.includes (take _ s) _) eqn:E; [|done].
    apply HelperFacts.includes_take in E. congruence.
Qed.

Lemma removeTrailingUnderscores_keeps_leading_witness :
  removeTrailingUnderscores (str "/_layout/posts") = str "/_layout/posts"
  /\ removeTrailingUnderscores (str "/posts_/edit") = removeUnderscores (str "/posts_/edit").
Proof.
  split.
  - apply (proj1 (proj2 (removeTrailingUnderscores_keeps_leading _))); reflexivity.
  - apply (proj2 (proj2 (removeTrailingUnderscores_keeps_leading _))); reflexivity.
Defined.

(** The route path that [buildRouteConfig] writes into a route file is
    [removeTrailingUnderscores] of the route path: in the replacement
    string of [replaceAll('$', '$$')], [$$] stands for one dollar sign, so
    that this call returns the route path as it is. *)
Theorem escapedRoutePath_keeps_dollars (routePath : jsstring) :
  JS.replaceAllWith (str "$") (str "$$") routePath = routePath
  /\ escapedRoutePath routePath = removeTrailingUnderscores routePath.
Proof.
  assert (JS.replaceAllWith (str "$") (str "$$") routePath = routePath) as E
    by apply HelperFacts.replaceAllWith_dollar.
  split; [done|]. unfold escapedRoutePath. by rewrite E.
Qed.

(** ** [routePathToVariable] *)

Module VariableFacts.

(** A path made of letters, digits and slashes. *)
Lemma slashed_chars (segments : list jsstring) c :
  Forall (Forall (fun c => isAlphaNum c = true)) segments ->
  c ∈ slashed segments -> c = "/"%char \/ isAlphaNum c = true.
Proof.
  induction 1 as [|seg segments Hseg _ IH].
  - intros H. by apply elem_of_nil in H.
  - unfold slashed. cbn [flat_map]. fold (slashed segments).
    intros [H|H]%elem_of_app; [|by apply IH].
    change (str "/" ++ seg) with ("/"%char :: seg) in H.
    apply elem_of_cons in H as [->|H]; [by left|].
    right. rewrite Forall_forall in Hseg. by apply Hseg.
Qed.

Lemma slashed_without (segments : list jsstring) c :
  Forall (Forall (fun c => isAlphaNum c = true)) segments ->
  c <> "/"%char -> isAlphaNum c = false -> c ∉ slashed segments.
Proof.
  intros Hsegs Hc Hal Hin.
  destruct (slashed_chars segments c Hsegs Hin); congruence.
Qed.

Lemma replaceAll_go_absent fuel pat rep s c :
  c ∈ pat -> c ∉ s -> JS.replaceAll_go fuel pat rep s = s.
Proof.
  intros Hc. revert s. induction fuel as [|fuel IH]; intros s Hs; [done|].
  destruct s as [|d s]; [done|]. cbn [JS.replaceAll_go].
  destruct (JS.startsWith (d :: s) pat) eqn:E.
  { destruct Hs. by apply (HelperFacts.startsWith_elem _ _ _ E). }
  f_equal. apply IH. intros H. apply Hs. by right.
Qed.

Lemma filter_absent (c : ascii) (s : jsstring) :
  c ∉ s -> filter (fun d => d <> c) s = s.
Proof.
  induction s as [|d s IH]; intros Hs; [done|].
  rewrite filter_cons. rewrite decide_True.
  - f_equal. apply IH. intros H. apply Hs. by right.
  - intros ->. apply Hs. left.
Qed.

Lemma splitSlashDash_segment (seg : jsstring) (rest : list jsstring) tail :
  Forall (fun c => isAlphaNum c = true) seg ->
  splitSlashDash tail = [] :: rest \/ (tail = [] /\ rest = []) ->
  splitSlashDash (seg ++ tail)
  = match tail with [] => [seg] | _ => seg :: rest end.
Proof.
  intros Hseg Htail. induction Hseg as [|c seg Hc _ IH]; simpl.
  - destruct Htail as [H|[-> ->]]; [|done]. rewrite H.
    destruct tail; [done|]. done.
  - assert (Ascii.eqb c "/"%char || Ascii.eqb c "-"%char = false) as ->.
    { destruct (Ascii.eqb_spec c "/"%char) as [->|_]; [done|].
      destruct (Ascii.eqb_spec c "-"%char) as [->|_]; done. }
    rewrite IH. by destruct tail.
Qed.

Lemma splitSlashDash_slashed (segments : list jsstring) :
  Forall (Forall (fun c => isAlphaNum c = true)) segments ->
  splitSlashDash (slashed segments) = [] :: segments.
Proof.
  induction 1 as [|seg segments Hseg _ IH]; [done|].
  cbn [slashed flat_map]. change (str "/" ++ seg) with ("/"%char :: seg).
  rewrite <- app_comm_cons. cbn [splitSlashDash Ascii.eqb Bool.eqb orb].
  f_equal. fold (slashed segments).
  rewrite (splitSlashDash_segment seg segments (slashed segments) Hseg).
  - destruct segments as [|seg' segments']; [done|]. done.
  - destruct segments as [|seg' segments']; [by right|by left].
Qed.

Lemma imap_map {A B} (f : nat -> A -> B) (g : A -> B) (l : list A) :
  (forall i x, f i x = g x) -> imap f l = map g l.
Proof.
  revert f. induction l as [|x l IH]; intros f Hf; [done|].
  rewrite imap_cons. simpl. rewrite Hf. f_equal. apply IH.
  intros i y. apply Hf.
Qed.

Lemma imap_capitalize (segments : list jsstring) :
  imap (fun i d => if bool_decide (0 < i)%nat then capitalize d else d)
    ([] :: segments)
  = [] :: map capitalize segments.
Proof.
  rewrite imap_cons. f_equal. apply imap_map. intros i x. unfold compose.
  by rewrite bool_decide_eq_true_2 by lia.
Qed.

Lemma join_nil (l : list jsstring) : JS.join [] l = concat l.
Proof.
  induction l as [|x l IH]; [done|]. simpl.
  destruct l as [|y l]; [by rewrite app_nil_r|]. by rewrite IH.
Qed.

Lemma toUpperCase_alphanum c : isAlphaNum c = true -> isAlphaNum (toUpperCase c) = true.
Proof.
  unfold toUpperCase. cbv zeta.
  destruct ((97 <=? nat_of_ascii c)%nat && (nat_of_ascii c <=? 122)%nat) eqn:E;
    [|done].
  intros _. apply andb_true_iff in E as [E1 E2].
  apply Nat.leb_le in E1, E2.
  unfold isAlphaNum. cbv zeta. rewrite nat_ascii_embedding by lia.
  apply orb_true_iff. left. apply orb_true_iff. right.
  apply andb_true_iff. split; apply Nat.leb_le; lia.
Qed.

Lemma filter_alphanum (s : jsstring) :
  Forall (fun c => isAlphaNum c = true) s ->
  filter (fun c => isAlphaNum c = true) s = s.
Proof.
  induction 1 as [|c s Hc _ IH]; [done|].
  rewrite filter_cons, decide_True by done. by rewrite IH.
Qed.

End VariableFacts.

(** The variable name of a route path whose segments are made of letters
    and digits is the segments put together, each with its first letter
    in upper case: [/posts/edit] gives [PostsEdit]. *)
Theorem routePathToVariable_of_plain_path (segments : list jsstring) :
  Forall (Forall (fun c => isAlphaNum c = true)) segments ->
  routePathToVariable (slashed segments) = concat (map capitalize segments).
Proof.
  intros Hsegs. unfold routePathToVariable.
  assert ("_"%char ∉ slashed segments) as Hunder
    by by apply VariableFacts.slashed_without.
  assert ("$"%char ∉ slashed segments) as Hdollar
    by by apply VariableFacts.slashed_without.
  assert (removeUnderscores (slashed segments) = slashed segments) as ->.
  { unfold removeUnderscores.
    rewrite HelperFacts.dropEdgeUnderscore_plain by done.
    apply HelperFacts.dropSlashUnderscore_plain. by left. }
  assert (JS.replaceAll (str "/$/") (str "/splat/") (slashed segments)
          = slashed segments) as ->.
  { apply (VariableFacts.replaceAll_go_absent _ _ _ _ "$"%char); [|done].
    right. left. }
  assert (JS.stripSuffix (str "$") (slashed segments) = None) as ->.
  { unfold JS.stripSuffix. destruct (JS.endsWith _ _) eqn:E; [|done].
    destruct Hdollar. apply (HelperFacts.endsWith_elem _ _ _ E). left. }
  rewrite VariableFacts.filter_absent by done.
  rewrite VariableFacts.splitSlashDash_slashed by done.
  rewrite VariableFacts.imap_capitalize, VariableFacts.join_nil.
  change (concat ([] :: map capitalize segments))
    with (concat (map capitalize segments)).
  apply VariableFacts.filter_alphanum.
  apply Forall_concat, Forall_fmap. eapply Forall_impl; [exact Hsegs|].
  intros seg Hseg. simpl. destruct Hseg as [|c seg Hc Hseg]; [constructor|].
  simpl. constructor; [by apply VariableFacts.toUpperCase_alphanum|done].
Qed.

Lemma routePathToVariable_of_plain_path_witness :
  routePathToVariable (str "/posts/edit") = str "PostsEdit".
Proof.
  apply (routePathToVariable_of_plain_path [str "posts"; str "edit"]).
  repeat constructor.
Defined.

(** ** What the scan keeps and the order of handling *)

Module FilterFacts.

Lemma flat_map_app {A B} (f : A -> list B) l1 l2 :
  flat_map f (l1 ++ l2) = flat_map f l1 ++ flat_map f l2.
Proof. induction l1 as [|x l1 IH]; simpl; [done|]. by rewrite IH, app_assoc. Qed.

Lemma flat_map_skip {A B} (f : A -> list B) l1 x l2 :
  f x = [] -> flat_map f (l1 ++ x :: l2) = flat_map f (l1 ++ l2).
Proof. intros Hx. rewrite !flat_map_app. simpl. by rewrite Hx. Qed.

(** Two suffixes of one string: one is a suffix of the other. *)
Lemma suffix_of_both (s a b : jsstring) :
  a `suffix_of` s -> b `suffix_of` s -> a `suffix_of` b \/ b `suffix_of` a.
Proof.
  intros [ka ->] [kb Hb].
  destruct (decide (length ka <= length kb)%nat) as [Hle|Hgt].
  - right. exists (drop (length ka) kb).
    apply (f_equal (drop (length ka))) in Hb.
    rewrite drop_app_length in Hb. rewrite Hb.
    rewrite drop_app_le by done. done.
  - left. exists (drop (length kb) ka).
    apply (f_equal (drop (length kb))) in Hb.
    rewrite drop_app_length in Hb. rewrite <- Hb.
    rewrite drop_app_le by lia. done.
Qed.

Lemma endsWith_both s a b :
  JS.endsWith s a = true -> JS.endsWith s b = true ->
  JS.endsWith b a || JS.endsWith a b = true.
Proof.
  unfold JS.endsWith. rewrite !bool_decide_eq_true. intros Ha Hb.
  apply orb_true_iff. rewrite !bool_decide_eq_true.
  by apply (suffix_of_both s).
Qed.

Lemma comparable_preSortAccessors routes :
  Forall (comparable routes) preSortAccessors.
Proof.
  unfold preSortAccessors, sign.
  repeat constructor; intros x y a b _ _ [= <-] [= <-]; exact I.
Qed.

End FilterFacts.

(** An entry of a directory that the filter of lines 40-53 rejects (its
    name starts with a dot, or with the ignore prefix when there is one,
    or does not start with the route file prefix when there is one), and a
    file whose name does not end in [.tsx], [.ts], [.jsx] or [.js], give
    the scan nothing: the nodes are those of the directory without the
    entry.  A rejected directory is not entered. *)
Theorem recurse_skips_rejected_entries (cleanPath : jsstring -> jsstring)
    (cfg : Config) (dir : jsstring) (before : list Dirent) (d : Dirent)
    (after : list Dirent) :
  JS.startsWith (direntName d) (str ".") = true
  \/ (routeFileIgnorePrefix cfg <> []
      /\ JS.startsWith (direntName d) (routeFileIgnorePrefix cfg) = true)
  \/ (exists c pre,
        routeFilePrefix cfg = Some (c :: pre)
        /\ JS.startsWith (direntName d) (c :: pre) = false)
  \/ (exists name, d = File name /\ hasRouteExtension name = false) ->
  recurse cleanPath cfg dir (before ++ d :: after)
  = recurse cleanPath cfg dir (before ++ after).
Proof.
  intros Hd.
  assert (keepDirent cfg d = false
          \/ exists name, d = File name /\ hasRouteExtension name = false) as Hskip.
  { destruct Hd as [H|[[Hne H]|[(c & pre & Hpre & H)|H]]]; [left..|by right];
      unfold keepDirent.
    - by rewrite H.
    - rewrite H, (bool_decide_eq_false_2 _ Hne). by rewrite orb_true_r.
    - destruct (_ || _); [done|]. by rewrite Hpre. }
  unfold recurse. f_equal.
  - unfold scanFiles. apply FilterFacts.flat_map_skip.
    destruct Hskip as [Hkeep|(name & -> & Hext)].
    + destruct d; [by rewrite Hkeep|done].
    + by rewrite Hext, andb_false_r.
  - apply FilterFacts.flat_map_skip.
    destruct Hskip as [Hkeep|(name & -> & Hext)].
    + by rewrite Hkeep.
    + by destruct (keepDirent cfg (File name)).
Qed.

Lemma recurse_skips_rejected_entries_witness :
  getRouteNodes Samples.cleanPath Samples.config
    ([File (str "posts.tsx")] ++ Directory (str "-components") [File (str "card.tsx")]
       :: [File (str "index.tsx")])
  = getRouteNodes Samples.cleanPath Samples.config
      [File (str "posts.tsx"); File (str "index.tsx")].
Proof.
  apply (recurse_skips_rejected_entries Samples.cleanPath Samples.config (str "./")
           [File (str "posts.tsx")]
           (Directory (str "-components") [File (str "card.tsx")])
           [File (str "index.tsx")]).
  right. left. split; [discriminate|reflexivity].
Defined.

(** The node of a file is at most one of: a route file, a loader, a
    component, an error component, a pending component, a not-found
    component; whatever [cleanPath] returns. *)
Theorem scanned_node_has_one_kind (cleanPath : jsstring -> jsstring) (cfg : Config)
    (relativePath : jsstring) :
  let node := routeNodeOfFile cleanPath cfg relativePath in
  (length (filter (fun flag => flag = true)
             [isRoute node; isLoader node; isComponent node; isErrorComponent node;
              isPendingComponent node; isNotFoundComponent node]) <= 1)%nat.
Proof.
  cbn [routeNodeOfFile isRoute isLoader isComponent isErrorComponent
         isPendingComponent isNotFoundComponent].
  set (raw := rawRoutePath cleanPath relativePath).
  destruct (JS.endsWith raw (str "/route")) eqn:E1;
    destruct (JS.endsWith raw (str "/loader")) eqn:E2;
    destruct (JS.endsWith raw (str "/component")) eqn:E3;
    destruct (JS.endsWith raw (str "/errorComponent")) eqn:E4;
    destruct (JS.endsWith raw (str "/pendingComponent")) eqn:E5;
    destruct (JS.endsWith raw (str "/notFoundComponent")) eqn:E6;
    try (vm_compute; lia);
    exfalso;
    repeat match goal with
      | Ha : JS.endsWith raw ?a = true, Hb : JS.endsWith raw ?b = true |- _ =>
          pose proof (FilterFacts.endsWith_both raw a b Ha Hb) as Hboth;
          vm_compute in Hboth; discriminate Hboth
      end.
Qed.

(** The nodes handed to [handleNode] are the scanned nodes without the
    node of the root file ([__root], after the route file prefix), in an
    order in which a node with route path ['/'] comes before every node
    with another route path and, among the others, a route path comes
    before every route path with more segments: a route is handled before
    the routes below it. *)
Theorem preRouteNodes_order (cleanPath : jsstring -> jsstring) (cfg : Config)
    (dirList : list Dirent) :
  let pre := preRouteNodes cleanPath cfg dirList in
  let root := str "/" ++ routePathIdPrefix cfg ++ rootPathId in
  pre ≡ₚ filter (fun d => routePath d <> root) (getRouteNodes cleanPath cfg dirList)
  /\ (forall d, d ∈ pre -> routePath d <> root)
  /\ (forall i j a b,
        (i < j)%nat -> pre !! i = Some a -> pre !! j = Some b ->
        (routePath b = str "/" -> routePath a = str "/")
        /\ (routePath a <> str "/" ->
            (length (JS.split "/"%char (routePath a))
             <= length (JS.split "/"%char (routePath b)))%nat)).
Proof.
  intros pre root. subst pre. unfold preRouteNodes. fold root.
  set (scanned := getRouteNodes cleanPath cfg dirList).
  split; [|split].
  - apply filter_Permutation. unfold multiSortBy, sortedEntries.
    rewrite (arraySort_Permutation (compareEntries preSortAccessors)
               (withIndex scanned)).
    by rewrite withIndex_fst.
  - intros d [Hd _]%list_elem_of_filter. done.
  - assert (StronglySorted
              (fun a b : RouteNode =>
                 (routePath b = str "/" -> routePath a = str "/")
                 /\ (routePath a <> str "/" ->
                     (length (JS.split "/"%char (routePath a))
                      <= length (JS.split "/"%char (routePath b)))%nat))
              (filter (fun d => routePath d <> root)
                 (multiSortBy scanned preSortAccessors))) as Hsorted.
    { apply AncestorFacts.StronglySorted_filter.
      apply SortFacts.StronglySorted_from_lookup. intros i j a b Hij Ha Hb.
      unfold multiSortBy in Ha, Hb. rewrite list_lookup_fmap in Ha, Hb.
      destruct (sortedEntries scanned preSortAccessors !! i) as [[a' ai]|] eqn:Ei;
        [|done].
      destruct (sortedEntries scanned preSortAccessors !! j) as [[b' bj]|] eqn:Ej;
        [|done].
      simpl in Ha, Hb. injection Ha as ->. injection Hb as ->.
      assert (compareEntries preSortAccessors (a, ai) (b, bj) <= 0) as Hle.
      { eapply (StronglySorted_lookup_lt
                  (fun x y => compareEntries preSortAccessors x y <= 0)
                  (sortedEntries scanned preSortAccessors) i j); eauto.
        apply (arraySort_sorted preSortAccessors (fun e => e.1 ∈ scanned)).
        - intros x y z Hx Hy Hz.
          apply compareEntries_trans;
            by apply (comparable_agree scanned);
              [apply FilterFacts.comparable_preSortAccessors|..].
        - apply Forall_forall. intros [d k] Hd. apply elem_of_withIndex in Hd.
          simpl. eapply list_elem_of_lookup_2; eauto. }
      revert Hle. unfold preSortAccessors at 1.
      cbn [compareEntries isUndefined strictEq greaterThan jsval_eqb jsval_gtb
             toPrimitive fst snd sign].
      destruct (decide (routePath a = str "/")) as [Ea|Ea],
               (decide (routePath b = str "/")) as [Eb|Eb];
        rewrite ?(bool_decide_eq_true_2 _ Ea), ?(bool_decide_eq_false_2 _ Ea),
          ?(bool_decide_eq_true_2 _ Eb), ?(bool_decide_eq_false_2 _ Eb);
        cbn [Z.eqb Z.ltb Z.compare Pos.eqb Pos.compare Pos.compare_cont];
        try (intros _; split; [done|]; done);
        try (intros Hle; exfalso; lia).
      destruct (Z.eqb_spec (Z.of_nat (length (JS.split "/"%char (routePath a))))
                  (Z.of_nat (length (JS.split "/"%char (routePath b))))) as [E|E].
      { intros _. split; [done|]. intros _. lia. }
      destruct (Z.ltb_spec (Z.of_nat (length (JS.split "/"%char (routePath b))))
                  (Z.of_nat (length (JS.split "/"%char (routePath a))))); [lia|].
      intros _. split; [done|]. intros _. lia. }
    intros i j a b Hij Ha Hb.
    by apply (StronglySorted_lookup_lt _ _ i j a b Hsorted).
Qed.

(** ** [getConfig] *)

Module ConfigFacts.

Lemma endsWith_app s suffix : JS.endsWith (s ++ suffix) suffix = true.
Proof. unfold JS.endsWith. apply bool_decide_eq_true_2. by apply suffix_app_r. Qed.

Lemma stripSuffix_Some suffix s stem :
  JS.stripSuffix suffix s = Some stem <-> s = stem ++ suffix.
Proof.
  unfold JS.stripSuffix, JS.endsWith. case_bool_decide as H.
  - destruct H as [k ->]. rewrite length_app, Nat.add_sub, take_app_length.
    split; [by intros [= ->]|]. intros E. by apply app_inv_tail in E as ->.
  - split; [done|]. intros ->. destruct H. by apply suffix_app_r.
Qed.

Lemma stripSuffix_None suffix s :
  JS.stripSuffix suffix s = None <-> JS.endsWith s suffix = false.
Proof. unfold JS.stripSuffix. by destruct (JS.endsWith s suffix). Qed.

(** What [replace(/\.(ts|tsx)$/, '.js')] returns ends in neither
    extension. *)
Lemma replaceTsExtension_no_ts p :
  JS.endsWith (replaceTsExtension p) (str ".ts") = false
  /\ JS.endsWith (replaceTsExtension p) (str ".tsx") = false.
Proof.
  assert (forall stem,
            JS.endsWith (stem ++ str ".js") (str ".ts") = false
            /\ JS.endsWith (stem ++ str ".js") (str ".tsx") = false) as Hjs.
  { intros stem. split.
    - destruct (JS.endsWith (stem ++ str ".js") (str ".ts")) eqn:E; [|done].
      pose proof (FilterFacts.endsWith_both _ _ _ (endsWith_app stem (str ".js")) E)
        as H. vm_compute in H. discriminate H.
    - destruct (JS.endsWith (stem ++ str ".js") (str ".tsx")) eqn:E; [|done].
      pose proof (FilterFacts.endsWith_both _ _ _ (endsWith_app stem (str ".js")) E)
        as H. vm_compute in H. discriminate H. }
  unfold replaceTsExtension.
  destruct (JS.stripSuffix (str ".ts") p) as [stem|] eqn:E1; [apply Hjs|].
  destruct (JS.stripSuffix (str ".tsx") p) as [stem|] eqn:E2; [apply Hjs|].
  by apply stripSuffix_None in E1, E2.
Qed.

End ConfigFacts.

(** [getConfig] fills every field the file leaves out with the default of
    the schema, and without a file returns the defaults.  When types are
    disabled, the path of the generated route tree never ends in [.ts] or
    [.tsx]: such an extension is replaced by [.js], and a path with
    another ending is kept; when types are not disabled the path is the
    one configured. *)
Theorem getConfig_generated_file_extension (file : option ConfigSchema.input) :
  let given := default ConfigSchema.empty file in
  let tree := default (str "./src/routeTree.gen.ts")
                (ConfigSchema.generatedRouteTree given) in
  let config := getConfig file in
  routeFilePrefix config = ConfigSchema.routeFilePrefix given
  /\ routeFileIgnorePrefix config
     = default (str "-") (ConfigSchema.routeFileIgnorePrefix given)
  /\ routesDirectory config
     = default (str "./src/routes") (ConfigSchema.routesDirectory given)
  /\ quoteStyleSingle config = default true (ConfigSchema.quoteStyle given)
  /\ disableTypes config = default false (ConfigSchema.disableTypes given)
  /\ (disableTypes config = false -> generatedRouteTree config = tree)
  /\ (disableTypes config = true ->
      JS.endsWith (generatedRouteTree config) (str ".ts") = false
      /\ JS.endsWith (generatedRouteTree config) (str ".tsx") = false
      /\ (forall stem,
            tree = stem ++ str ".ts" \/ tree = stem ++ str ".tsx" ->
            generatedRouteTree config = stem ++ str ".js")
      /\ (JS.endsWith tree (str ".ts") = false ->
          JS.endsWith tree (str ".tsx") = false ->
          generatedRouteTree config = tree)).
Proof.
  intros given tree config. subst config. unfold getConfig. fold given.
  destruct (disableTypes (configSchema_parse given)) eqn:Hd.
  - split; [reflexivity|]. split; [reflexivity|]. split; [reflexivity|].
    split; [reflexivity|]. split; [symmetry; exact Hd|].
    split; [cbn; discriminate|].
    intros _. cbn [generatedRouteTree configSchema_parse]. fold tree.
    destruct (ConfigFacts.replaceTsExtension_no_ts tree) as [Hts Htsx].
    split; [done|]. split; [done|]. split.
    + intros stem [E|E]; unfold replaceTsExtension.
      * by rewrite (proj2 (ConfigFacts.stripSuffix_Some (str ".ts") tree stem) E).
      * destruct (JS.stripSuffix (str ".ts") tree) as [stem'|] eqn:E1.
        { apply ConfigFacts.stripSuffix_Some in E1.
          assert (JS.endsWith tree (str ".ts") = true) as H1
            by (rewrite E1; apply ConfigFacts.endsWith_app).
          assert (JS.endsWith tree (str ".tsx") = true) as H2
            by (rewrite E; apply ConfigFacts.endsWith_app).
          pose proof (FilterFacts.endsWith_both _ _ _ H1 H2) as H.
          vm_compute in H. discriminate H. }
        by rewrite (proj2 (ConfigFacts.stripSuffix_Some (str ".tsx") tree stem) E).
    + intros H1 H2. unfold replaceTsExtension.
      apply ConfigFacts.stripSuffix_None in H1, H2. by rewrite H1, H2.
  - split; [reflexivity|]. split; [reflexivity|]. split; [reflexivity|].
    split; [reflexivity|]. split; [reflexivity|]. split; [reflexivity|].
    intros H. congruence.
Qed.

(** ** The arguments of [useBlocker] and early decisions *)

(** The blocker of [useBlocker] is handed to the history unless the
    condition is given and falsy; a condition that is left out counts as
    [true].  With the options object the second argument is not read, and
    the deprecated call with a function and a condition does what the
    options object with the two does.  A blocker function takes
    precedence over the resolver: its answer is the blocker's answer, and
    neither the resolver nor the promise of the hook changes, so that the
    status stays ['idle']. *)
Theorem blockerFn_takes_precedence (blockerFnOrOpts : Blocker.BlockerFnOrOpts)
    (condition : option bool) :
  let '(blockerFn, blockerCondition) :=
    Blocker.readArguments blockerFnOrOpts condition in
  (Blocker.effect blockerFnOrOpts condition
   = if blockerCondition then Some (Blocker.blockerFnComposed blockerFn) else None)
  /\ (forall f c c',
        blockerFnOrOpts = Blocker.BlockerOpts f c ->
        blockerCondition = default true c
        /\ Blocker.effect blockerFnOrOpts condition
           = Blocker.effect blockerFnOrOpts c')
  /\ (forall f,
        blockerFnOrOpts = Blocker.BlockerFn f ->
        Blocker.effect blockerFnOrOpts condition
        = Blocker.effect (Blocker.BlockerOpts (Some f) condition) None)
  /\ (forall answer h,
        blockerFn = Some answer ->
        Blocker.blockerFnComposed blockerFn h = (h, inl answer)).
Proof.
  destruct (Blocker.readArguments blockerFnOrOpts condition)
    as [blockerFn blockerCondition] eqn:E.
  split; [|split; [|split]].
  - unfold Blocker.effect. rewrite E. by destruct blockerCondition.
  - intros f c c' ->. simpl in E. injection E as <- <-. done.
  - by intros f ->.
  - by intros answer h ->.
Qed.

(** A decision taken while nothing is blocked is not lost.  On a hook
    that waits for a decision, [proceed()] or [reset()] called while the
    status is ['idle'] settles the promise of the hook; the next time the
    blocker fires, the status becomes ['blocked'], the promise awaited is
    settled already, and the blocker answers with that earlier decision
    without a new call; the hook then holds a new pending promise and an
    idle resolver. *)
Theorem early_decision_is_kept (h : Blocker.Hook) (decision : bool) :
  Blocker.ready h ->
  Blocker.status (Blocker.resolver h) = Blocker.Idle ->
  let decided :=
    Blocker.call (if decision then Blocker.proceed (Blocker.resolver h)
                  else Blocker.reset (Blocker.resolver h)) h in
  let blocked := (Blocker.blockerFnComposed None decided).1 in
  Blocker.status (Blocker.resolver decided) = Blocker.Idle
  /\ Blocker.status (Blocker.resolver blocked) = Blocker.Blocked
  /\ (Blocker.blockerFnComposed None decided).2 = inr (Blocker.promise h)
  /\ exists h',
       Blocker.blockerFnResumed (Blocker.promise h) blocked = Some (h', decision)
       /\ Blocker.ready h'
       /\ Blocker.status (Blocker.resolver h') = Blocker.Idle
       /\ Blocker.promise h' <> Blocker.promise h.
Proof.
  intros (Hproceed & Hreset & Hpending) Hidle decided blocked.
  assert (decided
          = {| Blocker.resolver := Blocker.resolver h;
               Blocker.promise := Blocker.promise h;
               Blocker.promises :=
                 Blocker.settlePromise (Blocker.promise h) decision
                   (Blocker.promises h) |}) as Hdecided.
  { subst decided. destruct decision; [rewrite Hproceed|rewrite Hreset]; done. }
  assert (Blocker.promises blocked !! Blocker.promise h = Some (Some decision))
    as Hsettled.
  { subst blocked. rewrite Hdecided. simpl.
    by apply BlockerFacts.settlePromise_pending. }
  split; [by rewrite Hdecided|]. split; [done|].
  split; [by rewrite Hdecided|].
  unfold Blocker.blockerFnResumed. rewrite Hsettled.
  eexists. split; [reflexivity|].
  assert (Blocker.promise h < length (Blocker.promises blocked))%nat as Hlt
    by by eapply lookup_lt_Some.
  unfold Blocker.setPromise_createPromise, Blocker.createPromise, Blocker.ready.
  cbn [Blocker.resolver Blocker.promise Blocker.promises Blocker.proceed
         Blocker.reset Blocker.status].
  split; [|split; [done|lia]].
  split; [done|]. split; [done|].
  rewrite lookup_app_r by done. by rewrite Nat.sub_diag.
Qed.

Lemma early_decision_is_kept_witness :
  exists h',
    Blocker.blockerFnResumed (Blocker.promise Blocker.mount)
      (Blocker.blockerFnComposed None
         (Blocker.call (Blocker.reset (Blocker.resolver Blocker.mount))
            Blocker.mount)).1
    = Some (h', false).
Proof.
  destruct (early_decision_is_kept Blocker.mount false BlockerFacts.mount_ready
              eq_refl) as (_ & _ & _ & h' & Hresumed & _).
  by exists h'.
Defined.

(** ** The invocation started last *)

Module CountFacts.
Import Run.

(** What resuming an invocation leaves as it is. *)
Lemma resume_frame t s w :
  latestTask (resume t s w).1 = latestTask w
  /\ first (resume t s w).1 = first w
  /\ (exists evs,
        trace (resume t s w).1 = trace w ++ evs
        /\ forall k, Logged k Generating ∉ evs)
  /\ (forall k, taskOf (resume t s w).2 = Some k -> taskOf t = Some k).
Proof.
  assert (forall k, Logged k Generating ∉ @nil event) as Hnil
    by (intros k; apply not_elem_of_nil).
  assert (forall e, (forall k, e <> Logged k Generating) ->
            forall k, Logged k Generating ∉ [e]) as Hone.
  { intros e He k H%list_elem_of_singleton. by apply (He k). }
  destruct t as [k|k c|k c r|k c|k c|k| |], s as [g| | | |]; cbn [resume];
    try (split; [done|]; split; [done|]; split; [|done];
         exists []; by rewrite app_nil_r).
  - split; [done|]. split; [done|]. split; [|done].
    eexists. split; [reflexivity|]. by apply Hone.
  - unfold checkLatest. case_bool_decide; cbn [negb].
    + split; [done|]. split; [done|]. split; [|done].
      exists []. by rewrite app_nil_r.
    + case_bool_decide; (split; [done|]; split; [done|]; split; [|done]);
        eexists; (split; [reflexivity|]); by apply Hone.
  - unfold checkLatest. case_bool_decide; cbn [negb].
    + split; [done|]. split; [done|]. split; [|done].
      exists []. by rewrite app_nil_r.
    + split; [done|]. split; [done|]. split; [|done].
      eexists. split; [reflexivity|]. by apply Hone.
  - split; [done|]. split; [done|]. split; [|done].
    eexists. split; [reflexivity|]. by apply Hone.
  - split; [done|]. split; [done|]. split; [|done].
    eexists. split; [reflexivity|]. by apply Hone.
Qed.

Lemma numbered_step sys a : numbered sys -> numbered (step sys a).
Proof.
  intros (Hlatest & Hids & Htrace). unfold numbered. destruct a as [|i s].
  - unfold step, start. simpl. split; [|split].
    + rewrite length_app. simpl. lia.
    + intros i t k Hi Hk. apply lookup_app_Some in Hi as [Hi|[Hlen Hi]].
      * by apply (Hids i t).
      * destruct (i - length (tasks sys))%nat as [|n] eqn:E; [|done].
        injection Hi as <-. simpl in Hk. injection Hk as <-. lia.
    + right. destruct Htrace as [(Htr & Hfirst & Hzero)|(rest & Htr & Hrest & Hfirst & Hne)].
      * rewrite Htr, Hfirst, Hzero. simpl. exists [].
        split; [done|]. split; [intros k; apply not_elem_of_nil|]. split; [done|lia].
      * rewrite Htr, Hfirst. simpl. eexists. split; [reflexivity|].
        split; [|split; [done|lia]].
        intros k. rewrite !elem_of_app. intros [H|[H|H]].
        -- by apply (Hrest k).
        -- destruct (skipMessage (world sys)); [by apply elem_of_nil in H|].
           by apply list_elem_of_singleton in H.
        -- by apply list_elem_of_singleton in H.
  - unfold step. destruct (tasks sys !! i) as [t|] eqn:Hi; [|done].
    destruct (resume_frame t s (world sys))
      as (Hl & Hf & (evs & Hevs & Hgen) & Hid).
    destruct (resume t s (world sys)) as [w' t'] eqn:E. simpl in *.
    split; [|split].
    + by rewrite length_insert, Hl.
    + intros j tj k Hj Hk. destruct (decide (i = j)) as [->|Hne].
      * rewrite list_lookup_insert_eq in Hj by (by eapply lookup_lt_Some).
        injection Hj as <-. apply (Hids j t); [done|]. by apply Hid.
      * rewrite list_lookup_insert_ne in Hj by done. by apply (Hids j tj).
    + rewrite Hl, Hf, Hevs.
      destruct Htrace as [(Htr & Hfirst & Hzero)|(rest & Htr & Hrest & Hfirst & Hne)].
      * exfalso. apply lookup_lt_Some in Hi. lia.
      * right. exists (rest ++ evs). rewrite Htr. split; [done|].
        split; [|done]. intros k [H|H]%elem_of_app; [by apply (Hrest k)|].
        by apply (Hgen k).
Qed.

Lemma numbered_run sys schedule : numbered sys -> numbered (run sys schedule).
Proof.
  revert sys. induction schedule as [|a schedule IH]; intros sys H; [done|].
  simpl. apply IH. by apply numbered_step.
Qed.

Lemma numbered_initial file : numbered (initial file).
Proof. split; [done|]. split; [done|]. by left. Qed.

End CountFacts.

(** The invocation started last is never discarded.  Resumed at the check
    of line 462 it passes and decides on the content it read at line 453,
    whatever the file holds by then: when that content is its own it
    returns without a write, and otherwise it goes on to [mkdir].  Resumed
    after [mkdir], still being the last, it calls [fs.writeFile] with its
    content; the file is as it was until that content reaches it.  And at
    any time the file holds what it held at first or the content of a
    call of [fs.writeFile] that was made by the invocation started last
    before that call. *)
Theorem latest_invocation_is_never_discarded (file : option jsstring)
    (schedule : list Run.action) :
  let sys := Run.run (Run.initial file) schedule in
  let w := Run.world sys in
  (forall i c r,
      Run.tasks sys !! i = Some (Run.ReadFileDone (Run.latestTask w) c r) ->
      Run.hasRead file (Run.trace w) (Run.latestTask w) r
      /\ let sys' := Run.step sys (Run.Resume i Run.Fulfilled) in
         Run.routeTreeFile (Run.world sys') = Run.routeTreeFile w
         /\ if bool_decide (r = Some c)
            then Run.tasks sys' !! i = Some Run.Returned
                 /\ Run.writes (Run.world sys') = Run.writes w
            else Run.tasks sys' !! i = Some (Run.AwaitMkdir (Run.latestTask w) c))
  /\ (forall i c,
        Run.tasks sys !! i = Some (Run.AwaitMkdir (Run.latestTask w) c) ->
        let sys' := Run.step sys (Run.Resume i Run.Fulfilled) in
        Run.tasks sys' !! i = Some (Run.AwaitWriteFile (Run.latestTask w) c)
        /\ Run.routeTreeFile (Run.world sys') = Run.routeTreeFile w
        /\ Run.trace (Run.world sys')
           = Run.trace w ++ [Run.Wrote (Run.latestTask w) c])
  /\ (forall i k c,
        Run.tasks sys !! i = Some (Run.AwaitWriteFile k c) ->
        let sys' := Run.step sys (Run.Resume i Run.FileWritten) in
        Run.tasks sys' !! i = Some (Run.WriteFileDone k)
        /\ Run.routeTreeFile (Run.world sys') = Some c)
  /\ (Run.routeTreeFile w = file
      \/ exists pre k c post,
           Run.trace w = pre ++ Run.Wrote k c :: post
           /\ Run.lastStarted pre = Some k
           /\ Run.routeTreeFile w = Some c).
Proof.
  intros sys w.
  assert (Run.Inv file sys) as HI
    by apply RunFacts.Inv_run, RunFacts.Inv_initial.
  split; [|split; [|split]].
  - intros i c r Hi. split; [by apply (Run.inv_read _ _ HI i _ c r)|].
    intros sys'. subst sys'. unfold Run.step. rewrite Hi.
    cbn [Run.resume]. unfold Run.checkLatest. fold w.
    rewrite (bool_decide_eq_false_2 (Run.latestTask w <> Run.latestTask w))
      by (intros H; by apply H).
    cbn [negb].
    assert (i < length (Run.tasks sys))%nat as Hlt by by eapply lookup_lt_Some.
    destruct (decide (r = Some c)) as [Hsame|Hdiff].
    + rewrite (bool_decide_eq_true_2 _ Hsame).
      rewrite (bool_decide_eq_false_2 (r <> Some c)) by (intros H; by apply H).
      cbn [Run.world Run.tasks]. rewrite list_lookup_insert_eq by done.
      split; [done|]. split; [done|].
      unfold Run.writes, Run.emit. cbn [Run.trace]. rewrite filter_app.
      by rewrite app_nil_r.
    + rewrite (bool_decide_eq_false_2 _ Hdiff).
      rewrite (bool_decide_eq_true_2 (r <> Some c)) by done.
      cbn [Run.world Run.tasks]. rewrite list_lookup_insert_eq by done.
      done.
  - intros i c Hi sys'. subst sys'. unfold Run.step. rewrite Hi.
    cbn [Run.resume]. unfold Run.checkLatest. fold w.
    rewrite (bool_decide_eq_false_2 (Run.latestTask w <> Run.latestTask w))
      by (intros H; by apply H).
    cbn [negb].
    assert (i < length (Run.tasks sys))%nat as Hlt by by eapply lookup_lt_Some.
    cbn [Run.world Run.tasks]. rewrite list_lookup_insert_eq by done.
    done.
  - intros i k c Hi sys'. subst sys'. unfold Run.step. rewrite Hi.
    cbn [Run.resume Run.world Run.tasks].
    assert (i < length (Run.tasks sys))%nat as Hlt by by eapply lookup_lt_Some.
    rewrite list_lookup_insert_eq by done. done.
  - unfold w at 1 3. rewrite (Run.inv_file _ _ HI). fold w.
    destruct (RunFacts.fileAfter_cases file (Run.trace w))
      as [Hfirst|(pre & k & c & post & Htr & Hfile)]; [by left|].
    right.
    destruct (Run.inv_landed _ _ HI pre k c post Htr) as (pre1 & pre2 & Hpre).
    exists pre1, k, c, (pre2 ++ Run.Landed k c :: post).
    assert (Run.trace w = pre1 ++ Run.Wrote k c :: pre2 ++ Run.Landed k c :: post)
      as Hsplit.
    { fold w in Htr. rewrite Htr, Hpre. by rewrite <- app_assoc. }
    split; [exact Hsplit|]. split; [|done].
    by destruct (Run.inv_writes _ _ HI pre1 k c _ Hsplit).
Qed.

Lemma latest_invocation_is_never_discarded_witness :
  Run.routeTreeFile
    (Run.world
       (Run.run (Run.initial (Some (str "old")))
          [Run.Invoke; Run.Invoke; Run.Resume 1 (Run.Generated (str "new"));
           Run.Resume 1 Run.FileRead; Run.Resume 1 Run.Fulfilled;
           Run.Resume 1 Run.Fulfilled; Run.Resume 1 Run.FileWritten]))
  = Some (str "new").
Proof.
  exact (proj2 (proj1 (proj2 (proj2 (latest_invocation_is_never_discarded
                                       (Some (str "old"))
                                       [Run.Invoke; Run.Invoke;
                                        Run.Resume 1 (Run.Generated (str "new"));
                                        Run.Resume 1 Run.FileRead;
                                        Run.Resume 1 Run.Fulfilled;
                                        Run.Resume 1 Run.Fulfilled])))
                  1%nat 2%nat (str "new") eq_refl)).
Defined.

(** The invocations are numbered from one in the order they are made:
    [latestTask] is the number of invocations made so far, and the
    invocation at position [i] carries the number [i + 1] for as long as
    it runs.  The message of the first generation is logged once, by the
    first invocation, before it takes its number and before any other
    message, [mkdir] or write (the empty line every invocation logs first
    is no event of the trace); every later invocation logs the other
    message or none. *)
Theorem invocations_are_numbered (file : option jsstring)
    (schedule : list Run.action) :
  let sys := Run.run (Run.initial file) schedule in
  let w := Run.world sys in
  Run.latestTask w = length (Run.tasks sys)
  /\ (forall i t k,
        Run.tasks sys !! i = Some t -> Run.taskOf t = Some k -> k = S i)
  /\ (Run.tasks sys <> [] ->
      exists rest,
        Run.trace w = Run.Logged 1 Run.Generating :: Run.Started 1 :: rest)
  /\ (forall pre k post,
        Run.trace w = pre ++ Run.Logged k Run.Generating :: post ->
        pre = [] /\ k = 1%nat).
Proof.
  intros sys w.
  destruct (CountFacts.numbered_run (Run.initial file) schedule
              (CountFacts.numbered_initial file)) as (Hlatest & Hids & Htrace).
  fold sys in Hlatest, Hids, Htrace. fold w in Hlatest, Htrace.
  split; [done|]. split; [done|]. split.
  - intros Hne.
    destruct Htrace as [(_ & _ & Hzero)|(rest & Htr & _)]; [|by exists rest].
    rewrite Hlatest in Hzero. by destruct (Run.tasks sys).
  - intros pre k post Htr.
    destruct Htrace as [(Hnil & _)|(rest & Hrest & Hgen & _)].
    + rewrite Hnil in Htr. by destruct pre.
    + rewrite Hrest in Htr. destruct pre as [|e pre].
      * simpl in Htr. by injection Htr as <-.
      * exfalso. simpl in Htr. injection Htr as <- Htr.
        destruct pre as [|e' pre]; [done|]. simpl in Htr. injection Htr as <- Htr.
        apply (Hgen k). rewrite Htr. apply elem_of_app. right. left.
Qed.

(** After an invocation was discarded at one of its checks, the next
    invocation that is made logs no message: the discarded one has set
    [skipMessage], which the next one finds, clears and takes as its
    announcement. *)
Theorem message_skipped_after_discard (file : option jsstring)
    (schedule : list Run.action) (i : nat) (older : Run.task) (k : nat) :
  let sys := Run.run (Run.initial file) schedule in
  Run.tasks sys !! i = Some older -> Run.atGuard older k ->
  k <> Run.latestTask (Run.world sys) ->
  let discarded := Run.step sys (Run.Resume i Run.Fulfilled) in
  let next := Run.step discarded Run.Invoke in
  Run.tasks discarded !! i = Some Run.Returned
  /\ Run.skipMessage (Run.world discarded) = true
  /\ Run.trace (Run.world next)
     = Run.trace (Run.world sys)
       ++ [Run.Started (Run.latestTask (Run.world sys) + 1)]
  /\ Run.skipMessage (Run.world next) = false.
Proof.
  intros sys Hi Hguard Hk discarded next.
  destruct (CountFacts.numbered_run (Run.initial file) schedule
              (CountFacts.numbered_initial file)) as (Hlatest & _ & Htrace).
  fold sys in Hlatest, Htrace.
  assert (i < length (Run.tasks sys))%nat as Hlt by by eapply lookup_lt_Some.
  assert (Run.first (Run.world sys) = true) as Hfirst.
  { destruct Htrace as [(_ & _ & Hzero)|(_ & _ & _ & Hfirst & _)]; [lia|done]. }
  assert (discarded
          = {| Run.world := Run.setSkipMessage true (Run.world sys);
               Run.tasks := <[i := Run.Returned]> (Run.tasks sys) |}) as Hd.
  { subst discarded. unfold Run.step. rewrite Hi.
    destruct Hguard as [(c & r & ->)|(c & ->)]; cbn [Run.resume];
      unfold Run.checkLatest;
      rewrite (bool_decide_eq_true_2 (Run.latestTask (Run.world sys) <> k))
        by congruence;
      reflexivity. }
  subst next. rewrite Hd. split; [|split; [done|]].
  - cbn [Run.tasks]. by apply list_lookup_insert_eq.
  - unfold Run.step, Run.start.
    cbn [Run.world Run.setSkipMessage Run.first Run.skipMessage Run.trace
           Run.latestTask].
    rewrite Hfirst. cbn [negb]. split; reflexivity.
Qed.

Lemma message_skipped_after_discard_witness :
  let schedule :=
    [Run.Invoke; Run.Resume 0 (Run.Generated (str "old")); Run.Resume 0 Run.FileRead;
     Run.Invoke] in
  let sys := Run.run (Run.initial None) schedule in
  Run.trace (Run.world (Run.step (Run.step sys (Run.Resume 0 Run.Fulfilled)) Run.Invoke))
  = Run.trace (Run.world sys) ++ [Run.Started 3].
Proof.
  intros schedule sys.
  refine (proj1 (proj2 (proj2 (message_skipped_after_discard None schedule 0%nat
                                 (Run.ReadFileDone 1 (str "old") None) 1%nat _ _ _))));
    [reflexivity| |discriminate].
  left. by exists (str "old"), None.
Defined.

(** ** The nodes of the route tree *)

(** The tree that is built from scanned nodes has every processed node
    in it once: the processed nodes are listed without repetition; the
    top of the tree holds, in the order of processing, those without a
    parent, and the children of an object those whose parent it is.  So a
    processed node is at the top or among the children of exactly one
    object, its parent, and an object that was not processed (a piece)
    has no children. *)
Theorem route_tree_holds_each_node_once (trimPathLeft : jsstring -> jsstring)
    (pre : list RouteNode) :
  Forall fresh pre ->
  exists st,
    buildRouteTree trimPathLeft pre = Some st
    /\ NoDup (routeNodes st)
    /\ routeTree st
       = filter (fun r => parentOf (heap st) r = None) (routeNodes st)
    /\ (forall q qn,
          heap st !! q = Some qn ->
          children qn
          = filter (fun r => parentOf (heap st) r = Some q) (routeNodes st))
    /\ NoDup (routeTree st)
    /\ (forall q qn,
          heap st !! q = Some qn ->
          NoDup (children qn)
          /\ (q ∉ routeNodes st -> children qn = [])
          /\ forall r, r ∈ children qn -> r ∉ routeTree st).
Proof.
  intros Hfresh.
  destruct (ShapeFacts.handleNodes_shape trimPathLeft pre (length pre) Hfresh)
    as (st & Hrun & HI & (Hnd & Htop & Hch) & _); [done|].
  exists st. split; [exact Hrun|]. split; [done|]. split; [done|]. split; [done|].
  split.
  { rewrite Htop. by apply NoDup_filter. }
  intros q qn Hq. rewrite (Hch q qn Hq). split; [by apply NoDup_filter|]. split.
  - intros Hout. by apply (ShapeFacts.no_children_outside pre).
  - intros r [Hr _]%list_elem_of_filter. rewrite Htop.
    intros [Hr' _]%list_elem_of_filter. congruence.
Qed.

Lemma route_tree_holds_each_node_once_witness :
  let pre := preRouteNodes Samples.cleanPath Samples.config Samples.posts in
  exists st,
    buildRouteTree Samples.trimPathLeft pre = Some st /\ NoDup (routeNodes st).
Proof.
  intros pre.
  destruct (route_tree_holds_each_node_once Samples.trimPathLeft pre)
    as (st & Hst & Hnd & _).
  - vm_compute. repeat constructor.
  - exists st. split; [exact Hst|exact Hnd].
Defined.

(** Every scanned file ends up with a route of its route path: a scanned
    node that is no piece is itself among the processed nodes, and for
    every scanned node, a piece too, some processed node (the node itself,
    a route file scanned for the same path, or the virtual node made for
    the pieces) has its route path. *)
Theorem every_route_path_gets_a_node (trimPathLeft : jsstring -> jsstring)
    (pre : list RouteNode) :
  Forall fresh pre ->
  exists st,
    buildRouteTree trimPathLeft pre = Some st
    /\ forall k n,
         pre !! k = Some n ->
         (negb (isVirtual n) && isPiece n = false -> k ∈ routeNodes st)
         /\ exists d dn,
              d ∈ routeNodes st /\ heap st !! d = Some dn
              /\ routePath dn = routePath n
              /\ negb (isVirtual dn) && isPiece dn = false.
Proof.
  intros Hfresh.
  destruct (ShapeFacts.handleNodes_shape trimPathLeft pre (length pre) Hfresh)
    as (st & Hrun & HI & _ & _ & _ & Hdone); [done|].
  exists st. split; [exact Hrun|]. intros k n Hk.
  destruct (Hdone k n) as [Hplain (d & dn & Hd & Hdn & Hp)];
    [by eapply lookup_lt_Some|done|].
  split; [done|]. exists d, dn. split; [done|]. split; [done|]. split; [done|].
  destruct (tree_nodes _ _ HI d Hd) as (dn' & Hdn' & _ & Hfl). congruence.
Qed.

Lemma every_route_path_gets_a_node_witness :
  let pre := preRouteNodes Samples.cleanPath Samples.config Samples.posts in
  exists st,
    buildRouteTree Samples.trimPathLeft pre = Some st /\ 0%nat ∈ routeNodes st.
Proof.
  intros pre.
  destruct (every_route_path_gets_a_node Samples.trimPathLeft pre)
    as (st & Hst & Hall).
  - vm_compute. repeat constructor.
  - exists st. split; [exact Hst|].
    apply (proj1 (Hall 0%nat
                    (routeNodeOfFile Samples.cleanPath Samples.config
                       (str "posts.tsx")) eq_refl)).
    reflexivity.
Defined.
